(** * Remirror-Table: table styling commands over a ProseMirror document

    A shallow embedding of [src/CustomTableExtension/CustomTableExtension.tsx]
    and of the structural editor ([addColumn], [addRow]) together with the
    part of the ProseMirror document model those functions rely on:
    integer-addressed positions, [descendants], [nodeAt], [setNodeMarkup],
    [insert] and [findParentNodeOfType]. *)

From stdpp Require Import gmap strings list fin_maps sorting.
From Stdlib Require Import ZArith Lia.

Open Scope string_scope.
Open Scope nat_scope.
Open Scope list_scope.
Set Warnings "-register-all".

(** ** Attribute values and attribute bags *)

(** The JavaScript values that occur in node attributes. *)
Inductive Val : Type :=
| VNull
| VBool (b : bool)
| VNum (n : Z)
| VStr (s : string)
| VArr (ns : list Z).

#[global] Instance Val_eq_dec : EqDecision Val.
Proof. solve_decision. Defined.

Abbreviation Attrs := (gmap string Val).

(** JavaScript truthiness of [attrs.key]; a missing key is [undefined]. *)
Definition truthy (v : option Val) : bool :=
  match v with
  | None => false
  | Some VNull => false
  | Some (VBool b) => b
  | Some (VNum n) => negb (n =? 0)%Z
  | Some (VStr s) => negb (String.eqb s "")
  | Some (VArr _) => true
  end.

(** ** Document tree *)

(** A text node of [len >= 1] characters, or an element with a type name,
    an attribute bag and child nodes.  ProseMirror has no empty text node. *)
Inductive Node : Type :=
| Text (len : positive)
| Elem (type : string) (attrs : Attrs) (content : list Node).

Definition typeName (n : Node) : string :=
  match n with Text _ => "text" | Elem t _ _ => t end.

Definition attrsOf (n : Node) : Attrs :=
  match n with Text _ => ∅ | Elem _ a _ => a end.

Definition contentOf (n : Node) : list Node :=
  match n with Text _ => [] | Elem _ _ c => c end.

Definition isText (n : Node) : bool :=
  match n with Text _ => true | Elem _ _ _ => false end.

(** [node.nodeSize]: a text node counts its characters, an element its
    content plus the opening and the closing token. *)
Fixpoint nodeSize (n : Node) : nat :=
  match n with
  | Text len => Pos.to_nat len
  | Elem _ _ c => 2 + sum_list_with nodeSize c
  end.

Definition fragSize (c : list Node) : nat := sum_list_with nodeSize c.

(** ** Pre-order traversal with positions *)

Section Traverse.
Variable visit : nat → Node → list (nat * Node).

(** The children of a fragment whose first child starts at [pos]. *)
Fixpoint descFrag_with (pos : nat) (c : list Node) : list (nat * Node) :=
  match c with
  | [] => []
  | x :: c' => visit pos x ++ descFrag_with (pos + nodeSize x) c'
  end.
End Traverse.

(** A node at [pos] followed by everything below it; the content of an
    element starts one position after its opening token. *)
Fixpoint descNode (pos : nat) (n : Node) : list (nat * Node) :=
  (pos, n) :: match n with
              | Text _ => []
              | Elem _ _ c => descFrag_with descNode (S pos) c
              end.

Definition descFrag : nat → list Node → list (nat * Node) :=
  descFrag_with descNode.

(** [doc.descendants(f)] visits these pairs in this order ([f] never
    returns [false] in this program, so every subtree is entered). *)
Definition descendants (doc : Node) : list (nat * Node) :=
  descFrag 0 (contentOf doc).

(** [doc.nodeAt(pos)], for positions that point directly in front of a node. *)
Fixpoint lookupPos (pos : nat) (l : list (nat * Node)) : option Node :=
  match l with
  | [] => None
  | (q, n) :: l' => if decide (q = pos) then Some n else lookupPos pos l'
  end.

Definition nodeAt (doc : Node) (pos : nat) : option Node :=
  lookupPos pos (descendants doc).

(** ** Replacing the attributes of the node at a position *)

Section OnChild.
Variable onNode : Node → nat → option Node.

(** Find the child of [c] that covers offset [p] and rewrite it. *)
Fixpoint inChild (c : list Node) (p : nat) : option (list Node) :=
  match c with
  | [] => None
  | x :: c' =>
      if p <? nodeSize x
      then x' ← onNode x p; Some (x' :: c')
      else c'' ← inChild c' (p - nodeSize x); Some (x :: c'')
  end.
End OnChild.

(** [p] is relative to the start of [n]: [0] is [n] itself, [S p] is
    offset [p] of its content.  No node starts inside a text node or at a
    closing token, and a text node cannot be re-created with attributes:
    [setNodeMarkup] raises a RangeError there ([None]). *)
Fixpoint setAt (a : Attrs) (n : Node) (p : nat) : option Node :=
  match n with
  | Text _ => None
  | Elem t old c =>
      match p with
      | 0 => Some (Elem t a c)
      | S p' => c' ← inChild (setAt a) c p'; Some (Elem t old c')
      end
  end.

(** ** Inserting a node at a position *)

Section InsertChild.
Variable new : Node.
Variable onNode : Node → nat → option Node.

(** Offset [0] of a fragment is in front of its first child; an offset
    at the end of a child is in front of the next one. *)
Fixpoint insChild (c : list Node) (p : nat) : option (list Node) :=
  match p, c with
  | 0, _ => Some (new :: c)
  | _, [] => None
  | _, x :: c' =>
      if p <? nodeSize x
      then x' ← onNode x p; Some (x' :: c')
      else c'' ← insChild c' (p - nodeSize x); Some (x :: c'')
  end.
End InsertChild.

(** [p >= 1] is relative to the start of [n]; [S p] is offset [p] of the
    content of [n].  Splitting a text node is not needed by this program
    and is left out ([None]). *)
Fixpoint insAt (new : Node) (n : Node) (p : nat) : option Node :=
  match n with
  | Text _ => None
  | Elem t a c =>
      match p with
      | 0 => None
      | S p' => c' ← insChild new (insAt new) c p'; Some (Elem t a c')
      end
  end.

(** ** Selections and transactions *)

(** What the commands read from a selection: [selection.from] and, for a
    [CellSelection], the cell positions that [forEachCell] enumerates. *)
Record Selection : Type := mkSelection {
  from : nat;
  cellRange : option (list nat)
}.

(** A transaction: the current document, the (mapped) selection, the
    insertions made so far, oldest first, each as (position, size), and
    whether it carries the [fixTables] metadata of the table plugin. *)
Record Transaction : Type := mkTr {
  doc : Node;
  selection : Selection;
  mapping : list (nat * nat);
  fixTablesMeta : bool
}.

(** [state.tr]: a fresh transaction on a document and a selection. *)
Definition startTr (d : Node) (sel : Selection) : Transaction :=
  {| doc := d; selection := sel; mapping := []; fixTablesMeta := false |}.

(** One insertion moves every position at or after it (association 1). *)
Definition mapThrough (step : nat * nat) (pos : nat) : nat :=
  if fst step <=? pos then pos + snd step else pos.

(** [tr.mapping.map(pos)]. *)
Definition mapPos (m : list (nat * nat)) (pos : nat) : nat :=
  foldl (λ p step, mapThrough step p) pos m.

(** [tr.setNodeMarkup(pos, undefined, attrs)]: document positions do not
    move, so neither the selection nor the mapping changes.  Here and below
    [None] stands for an exception. *)
Definition setNodeMarkup (pos : nat) (a : Attrs) (tr : Transaction)
  : option Transaction :=
  d ← setAt a (doc tr) (S pos);
  Some {| doc := d; selection := selection tr; mapping := mapping tr;
          fixTablesMeta := fixTablesMeta tr |}.

(** The selection of a transaction follows the insertions. *)
Definition mapSelection (step : nat * nat) (sel : Selection) : Selection :=
  {| from := mapThrough step (from sel);
     cellRange := fmap (M := list) (mapThrough step) <$> cellRange sel |}.

(** [tr.insert(pos, node)]. *)
Definition insert (pos : nat) (new : Node) (tr : Transaction)
  : option Transaction :=
  d ← insAt new (doc tr) (S pos);
  let step := (pos, nodeSize new) in
  Some {| doc := d; selection := mapSelection step (selection tr);
          mapping := mapping tr ++ [step];
          fixTablesMeta := fixTablesMeta tr |}.

(** ** Ancestor lookup *)

(** The elements that contain position [p]: those a resolved position
    lists as its ancestors. *)
Definition encloses (p : nat) (e : nat * Node) : bool :=
  negb (isText e.2) && (e.1 <? p) && (p <? e.1 + nodeSize e.2).

(** [findParentNodeOfType({selection, types})]: the closest ancestor of
    [selection.$from] with the given type, with its position.  Ancestors
    come outermost first in document order, so the closest one is last. *)
Definition findParentNodeOfType (sel : Selection) (ty : string) (d : Node)
  : option (nat * Node) :=
  last (List.filter (λ e, encloses (from sel) e && String.eqb (typeName e.2) ty)
          (descendants d)).

(** ** Commands of the table extension *)

(** What running a command gives: an exception, or a boolean together
    with the transaction handed to [dispatch], if any. *)
Inductive Outcome : Type :=
| Throws
| Returns (result : bool) (dispatched : option Transaction).

Definition isTable (n : Node) : bool := String.eqb (typeName n) "table".
Definition isRow (n : Node) : bool := String.eqb (typeName n) "tableRow".
Definition isCell (n : Node) : bool :=
  String.eqb (typeName n) "tableCell" || String.eqb (typeName n) "tableHeaderCell".

(** [!node.attrs.highlight] is false for these nodes. *)
Definition highlighted (n : Node) : bool := truthy (attrsOf n !! "highlight").

(** [selection.forEachCell(f)]: [f] gets the node the selection's own
    document [d0] has at each position; a position without a node makes
    [f] read [attrs] of [null] and raise. *)
Definition forEachCell (f : Node → nat → Transaction → option Transaction)
    (d0 : Node) (cells : list nat) (tr : Transaction) : option Transaction :=
  foldl (λ acc pos, t ← acc; cellNode ← nodeAt d0 pos; f cellNode pos t)
        (Some tr) cells.

(** The shape shared by the three per-cell commands: every cell of a
    [CellSelection], or else the enclosing [tableCell]. *)
Definition setTableCellBackground (background : Val) (tr : Transaction) : Outcome :=
  let sel := selection tr in
  match cellRange sel with
  | Some cells =>
      match forEachCell (λ cellNode pos t,
                setNodeMarkup pos (<["highlight" := VBool true]>
                                   (<["background" := background]> (attrsOf cellNode))) t)
              (doc tr) cells tr with
      | Some tr' => Returns true (Some tr')
      | None => Throws
      end
  | None =>
      match findParentNodeOfType sel "tableCell" (doc tr) with
      | Some (pos, node) =>
          match setNodeMarkup pos (<["highlight" := VBool true]>
                                   (<["background" := background]> (attrsOf node))) tr with
          | Some tr' => Returns true (Some tr')
          | None => Throws
          end
      | None => Returns false None
      end
  end.

Definition highlightSelection (border borderColor : Val) (tr : Transaction) : Outcome :=
  let sel := selection tr in
  let mark (a : Attrs) : Attrs :=
    <["highlight" := VBool true]> (<["borderColor" := borderColor]> (<["border" := border]> a)) in
  match cellRange sel with
  | Some cells =>
      match forEachCell (λ cellNode pos t, setNodeMarkup pos (mark (attrsOf cellNode)) t)
              (doc tr) cells tr with
      | Some tr' => Returns true (Some tr')
      | None => Throws
      end
  | None =>
      match findParentNodeOfType sel "tableCell" (doc tr) with
      | Some (pos, node) =>
          match setNodeMarkup pos (mark (attrsOf node)) tr with
          | Some tr' => Returns true (Some tr')
          | None => Throws
          end
      | None => Returns false None
      end
  end.

(** The cell-range branch resets [border], [borderColor] and [highlight];
    the single-cell branch writes [highlight: false] only. *)
Definition removeHighlightSelection (tr : Transaction) : Outcome :=
  let sel := selection tr in
  match cellRange sel with
  | Some cells =>
      match forEachCell (λ cellNode pos t,
                setNodeMarkup pos (<["highlight" := VBool false]>
                                   (<["borderColor" := VNull]>
                                    (<["border" := VNull]> (attrsOf cellNode)))) t)
              (doc tr) cells tr with
      | Some tr' => Returns true (Some tr')
      | None => Throws
      end
  | None =>
      match findParentNodeOfType sel "tableCell" (doc tr) with
      | Some (pos, node) =>
          match setNodeMarkup pos (<["highlight" := VBool false]> (attrsOf node)) tr with
          | Some tr' => Returns true (Some tr')
          | None => Throws
          end
      | None => Returns false None
      end
  end.

(** ** Table-wide defaults *)

(** The loop variables [last] and [curTable] of the traversal callback;
    [last] is [undefined] until the first table in front of the selection
    is met. *)
Record Scope : Type := mkScope {
  last : option nat;
  curTable : bool
}.

Definition noScope : Scope := {| last := None; curTable := false |}.

(** First [if] of the callback: a table that starts in front of the
    selection moves [last] to its end, and sets [curTable] when the
    selection lies before that end.  [curTable] is never reset. *)
Definition enterTable (currSelection pos : nat) (node : Node) (sc : Scope) : Scope :=
  if isTable node && (pos <? currSelection)
  then let l := pos + nodeSize node in
       {| last := Some l; curTable := curTable sc || (currSelection <? l) |}
  else sc.

(** [pos <= last && curTable]; a comparison with [undefined] is false. *)
Definition inScope (pos : nat) (sc : Scope) : bool :=
  match last sc with
  | Some l => (pos <=? l) && curTable sc
  | None => false
  end.

(** The callback of the three default commands, for the attribute [key]. *)
Definition defaultVisit (currSelection : nat) (key : string) (value : Val)
    (st : Scope * Transaction) (e : nat * Node) : option (Scope * Transaction) :=
  let '(pos, node) := e in
  let sc := enterTable currSelection pos node st.1 in
  if inScope pos sc && isCell node && negb (highlighted node)
  then tr ← setNodeMarkup pos (<[key := value]> (attrsOf node)) st.2; Some (sc, tr)
  else Some (sc, st.2).

(** Threading a fallible callback through a traversal. *)
Definition walk {S : Type} (f : S → nat * Node → option S)
    (l : list (nat * Node)) (s : S) : option S :=
  foldl (λ acc e, st ← acc; f st e) (Some s) l.

(** Body shared by [defaultBorder], [defaultBorderColor] and
    [defaultBackgroundColor], which differ in the attribute name only.
    [found] is used unchecked: without an enclosing table, reading
    [found.pos] raises a TypeError. *)
Definition setTableDefault (key : string) (tr : Transaction) (value : Val) : Outcome :=
  let sel := selection tr in
  match findParentNodeOfType sel "table" (doc tr) with
  | None => Throws
  | Some (fpos, fnode) =>
      match tr1 ← setNodeMarkup fpos (<[key := value]> (attrsOf fnode)) tr;
            walk (defaultVisit (from sel) key value) (descendants (doc tr1)) (noScope, tr1) with
      | Some st => Returns true (Some st.2)
      | None => Throws
      end
  end.

Definition defaultBorder (props : Transaction) (border : Val) : Outcome :=
  setTableDefault "border" props border.

Definition defaultBorderColor (props : Transaction) (borderColor : Val) : Outcome :=
  setTableDefault "borderColor" props borderColor.

Definition defaultBackgroundColor (props : Transaction) (background : Val) : Outcome :=
  setTableDefault "background" props background.

Definition setDefaultTableBorder (border : Val) (props : Transaction) : Outcome :=
  defaultBorder props border.

Definition setDefaultTableBorderColor (borderColor : Val) (props : Transaction) : Outcome :=
  defaultBorderColor props borderColor.

Definition setDefaultTableBackgroundColor (background : Val) (props : Transaction) : Outcome :=
  defaultBackgroundColor props background.

(** ** Alternating row colours *)

Definition bandingColor : Val := VStr "#E6E6E6".
Definition noColor : Val := VStr "null".

(** [node.attrs.alternateColor == "false"]: only the string compares equal. *)
Definition alternateOff (n : Node) : bool :=
  match attrsOf n !! "alternateColor" with
  | Some (VStr s) => String.eqb s "false"
  | _ => false
  end.

(** The callback of [alternateColor]: scope, row counter, transaction. *)
Definition alternateVisit (currSelection : nat)
    (st : Scope * nat * Transaction) (e : nat * Node)
  : option (Scope * nat * Transaction) :=
  let '(pos, node) := e in
  let '(sc0, count0, tr0) := st in
  let sc := enterTable currSelection pos node sc0 in
  tr1 ← (if isTable node && (pos <? currSelection)
            && (currSelection <? pos + nodeSize node) && alternateOff node
         then setNodeMarkup pos (<["alternateColor" := VStr "true"]> (attrsOf node)) tr0
         else Some tr0);
  if inScope pos sc
  then
    let count := if isRow node then count0 + 1 else count0 in
    if isCell node && negb (highlighted node)
    then
      tr2 ← setNodeMarkup pos
              (<["background" := if negb (count mod 2 =? 0) then bandingColor else noColor]>
               (attrsOf node)) tr1;
      Some (sc, count, tr2)
    else Some (sc, count, tr1)
  else Some (sc, count0, tr1).

Definition alternateColor (props : Transaction) : Outcome :=
  let sel := selection props in
  match findParentNodeOfType sel "table" (doc props) with
  | None => Throws
  | Some (fpos, fnode) =>
      match tr1 ← setNodeMarkup fpos (attrsOf fnode) props;
            walk (alternateVisit (from sel)) (descendants (doc tr1)) (noScope, 0, tr1) with
      | Some st => Returns true (Some st.2)
      | None => Throws
      end
  end.

Definition applyAlternateColor (props : Transaction) : Outcome :=
  alternateColor props.

(** ** Repair and merge toggling *)

Record EditorState : Type := mkState {
  sdoc : Node;
  sselection : Selection
}.

(** The editor as the extension sees it: the view's state and the
    extension's [lastGoodState] slot. *)
Record Editor : Type := mkEditor {
  state : EditorState;
  lastGoodState : option EditorState
}.

(** [state.apply(tr)]. *)
Definition applyTr (tr : Transaction) : EditorState :=
  {| sdoc := doc tr; sselection := selection tr |}.

(** [onStateUpdate]: a transaction carrying the table plugin's metadata
    makes the new state the last good one. *)
Definition onStateUpdate (tr : Transaction) (st : EditorState)
    (old : option EditorState) : option EditorState :=
  if fixTablesMeta tr then Some st else old.

Definition dispatch (ed : Editor) (tr : Transaction) : Editor :=
  let st := applyTr tr in
  {| state := st; lastGoodState := onStateUpdate tr st (lastGoodState ed) |}.

(** Run a command on the editor: its boolean and the editor afterwards. *)
Definition runCommand (cmd : Editor → Outcome) (ed : Editor) : option (bool * Editor) :=
  match cmd ed with
  | Throws => None
  | Returns b None => Some (b, ed)
  | Returns b (Some tr) => Some (b, dispatch ed tr)
  end.

Section TablePlugin.
(** Functions of the table plugin the extension calls into. *)
Variable fixTables : EditorState → option EditorState → option Transaction.
Variable mergeCells : EditorState → bool * option Transaction.
Variable splitCell : EditorState → bool * option Transaction.

Definition fixTablesCommand (lastGood : option EditorState) (st : EditorState) : Outcome :=
  match fixTables st lastGood with
  | None => Returns false None
  | Some tr => Returns true (Some tr)
  end.

(** The [fixTables] command of the extension. *)
Definition fixTablesCmd (ed : Editor) : Outcome :=
  fixTablesCommand (lastGoodState ed) (state ed).

(** [mergeCells] and [splitCell] dispatch on their own; the toggle
    passes its [dispatch] on and turns a successful merge into [false]. *)
Definition toggleMergeCellCommand (st : EditorState) : Outcome :=
  let '(merged, mtr) := mergeCells st in
  if merged then Returns false mtr
  else let '(split, str) := splitCell st in Returns split str.
End TablePlugin.

(** ** Structural editor *)

(** [TableMap]: [map] holds, row by row, the offset (from the start of the
    table's content) of the cell covering each slot. *)
Record TableMap : Type := mkMap {
  width : Z;
  height : Z;
  map : list nat
}.

(** The [rect] a structural command receives from [selectedRect]. *)
Record Rect : Type := mkRect {
  rmap : TableMap;
  tableStart : nat;
  table : Node;
  left : Z;
  right : Z;
  top : Z;
  bottom : Z
}.

(** [map.map[i]]; outside the array the result is [undefined]. *)
Definition slot (m : TableMap) (i : Z) : option nat :=
  if (i <? 0)%Z then None else map m !! Z.to_nat i.

(** [map.colCount(pos)]: the column of the first slot holding [pos];
    raises when there is none. *)
Definition colCount (m : TableMap) (pos : nat) : option Z :=
  i ← list_find (λ q, q = pos) (map m);
  Some (Z.of_nat i.1 mod width m)%Z.

(** [table.child(i)]; raises outside the child list. *)
Definition child (n : Node) (i : Z) : option Node :=
  if (i <? 0)%Z then None else contentOf n !! Z.to_nat i.

(** Offset of the start of child [i] of the table. *)
Fixpoint rowStartOf (rows : list Node) (i : nat) : option nat :=
  match i, rows with
  | 0, _ => Some 0
  | S i', r :: rows' => s ← rowStartOf rows' i'; Some (nodeSize r + s)
  | S _, [] => None
  end.

(** The [while] loop of [positionAt]: skip the slots of the row that
    hold cells from earlier rows. *)
Fixpoint skipSpanned (m : TableMap) (rowStart : nat) (fuel : nat) (index rowEndIndex : Z) : Z :=
  match fuel with
  | 0 => index
  | S fuel' =>
      if (index <? rowEndIndex)%Z
      then match slot m index with
           | Some p => if p <? rowStart
                       then skipSpanned m rowStart fuel' (index + 1)%Z rowEndIndex
                       else index
           | None => index
           end
      else index
  end.

(** [map.positionAt(row, col, table)]: where the cell of slot (row, col)
    starts, or the end of the row when the rest of the row is spanned. *)
Definition positionAt (m : TableMap) (row col : Z) (tbl : Node) : option nat :=
  if (row <? 0)%Z then None else
  rowStart ← rowStartOf (contentOf tbl) (Z.to_nat row);
  r ← child tbl row;
  let rowEnd := rowStart + nodeSize r in
  let rowEndIndex := ((row + 1) * width m)%Z in
  let index := skipSpanned m rowStart (Z.to_nat (width m)) (col + row * width m)%Z rowEndIndex in
  if (index =? rowEndIndex)%Z then Some (rowEnd - 1) else slot m index.

(** *** Numbers *)

(** The numbers of the structural editor are JavaScript's doubles.  Sizes,
    positions, slot indices and the loop counters are integers of the size
    of the document, where doubles are exact; an attribute holds whatever
    number the document was given, so arithmetic on [colspan] and
    [rowspan] rounds as doubles do. *)

(** The double nearest to an integer, a tie going to the even significand.
    Every integer below 2^53 in size is a double; from there on doubles
    are 2^(e-52) apart between 2^e and 2^(e+1).  A sum beyond the largest
    double is infinite in the source; the model is of the finite ones. *)
Definition toDouble (x : Z) : Z :=
  let a := Z.abs x in
  let e := Z.log2 a in
  if (e <? 53)%Z then x
  else
    let u := (2 ^ (e - 52))%Z in
    let q := (a / u)%Z in
    let r := (a mod u)%Z in
    let q' := if (2 * r <? u)%Z then q
              else if (u <? 2 * r)%Z then (q + 1)%Z
              else if Z.even q then q else (q + 1)%Z in
    (Z.sgn x * (q' * u))%Z.

(** [a + b] and [a - b] on doubles that hold integers. *)
Definition jsAdd (a b : Z) : Z := toDouble (a + b).
Definition jsSub (a b : Z) : Z := toDouble (a - b).

(** A numeric attribute; the schema gives [colspan] and [rowspan] a
    numeric default, for other values the model has no arithmetic. *)
Definition numAttr (a : Attrs) (key : string) : option Z :=
  match a !! key with
  | Some (VNum n) => Some n
  | _ => None
  end.

(** *** How a run ends *)

(** A piece of the structural editor ends with a value, with an
    exception, or without a verdict of the model: the model follows a loop
    for as many turns as the table has rows or columns, which is all a loop
    over spans of at least 1 takes, and it has arithmetic for numeric
    [colspan] and [rowspan] only. *)
Inductive Step (A : Type) : Type :=
| Gives (a : A)
| Raises
| Unsettled.

Arguments Gives {A} a.
Arguments Raises {A}.
Arguments Unsettled {A}.

#[global] Instance Step_bind : MBind Step := λ A B f s,
  match s with
  | Gives a => f a
  | Raises => Raises
  | Unsettled => Unsettled
  end.

(** A value whose absence is an exception. *)
Definition orRaise {A : Type} (o : option A) : Step A :=
  match o with Some a => Gives a | None => Raises end.

(** A value whose absence leaves the model without a verdict. *)
Definition orUnsettled {A : Type} (o : option A) : Step A :=
  match o with Some a => Gives a | None => Unsettled end.

(** A run of a function that is handed a [dispatch] callback: the
    transactions it has passed to the callback, oldest first, and how it
    ends.  The commands below pass the same transaction object every time
    and go on changing it in between; a call is recorded with the state
    the object has at that moment.  The callback's own work is not part of
    this code: a callback that raises ends the run at that call ([under]
    below). *)
Record Ran (A : Type) : Type := mkRan {
  calls : list Transaction;
  ending : Step A
}.

Arguments mkRan {A} calls ending.
Arguments calls {A} r.
Arguments ending {A} r.

(** A run that calls nothing. *)
Definition quiet {A : Type} (s : Step A) : Ran A := {| calls := []; ending := s |}.

#[global] Instance Ran_bind : MBind Ran := λ A B k r,
  match ending r with
  | Gives a => {| calls := calls r ++ calls (k a); ending := ending (k a) |}
  | Raises => {| calls := calls r; ending := Raises |}
  | Unsettled => {| calls := calls r; ending := Unsettled |}
  end.

(** The calls as they go with a callback [cb] that works on the caller's
    world and may raise ([None]): they are made in order, and the first
    one that raises is the last. *)
Fixpoint handOver {W : Type} (cb : Transaction → W → option W)
    (ts : list Transaction) (w : W) : W * bool :=
  match ts with
  | [] => (w, true)
  | t :: ts' =>
      match cb t w with
      | Some w' => handOver cb ts' w'
      | None => (w, false)
      end
  end.

(** A run under such a callback: the world the calls leave, and the
    ending, which is the callback's exception when it raised. *)
Definition under {W A : Type} (cb : Transaction → W → option W) (r : Ran A) (w : W)
  : W * Step A :=
  let res := handOver cb (calls r) w in
  (res.1, if res.2 then ending r else Raises).

(** *** Attribute rewrites of the table plugin *)

(** [colwidth.splice(pos, 0, 0)]: a zero goes in at [pos], counted from
    the end when [pos] is negative, and clamped to the array. *)
Definition spliceZero (pos : Z) (ws : list Z) : list Z :=
  let len := Z.of_nat (length ws) in
  let start := if (pos <? 0)%Z then Z.max (len + pos) 0 else Z.min pos len in
  take (Z.to_nat start) ws ++ 0%Z :: drop (Z.to_nat start) ws.

(** [addColSpan(attrs, pos)] of the table plugin: [colspan + 1], and a zero
    width spliced into [colwidth] when that is set; a [colwidth] that is
    set but no array has no [splice]. *)
Definition addColSpan (a : Attrs) (pos : Z) : Step Attrs :=
  c ← orUnsettled (numAttr a "colspan");
  let a' := <["colspan" := VNum (jsAdd c 1)]> a in
  match a !! "colwidth" with
  | Some (VArr ws) => Gives (<["colwidth" := VArr (spliceZero pos ws)]> a')
  | w => if truthy w then Raises else Gives a'
  end.

(** Modelled from the spec: [setAttr] of [table-column-resizing], which is
    not among the sources; the spec has the spanning cell's [rowspan]
    incremented and nothing else changed. *)
Definition setAttr (a : Attrs) (name : string) (value : Val) : Attrs :=
  <[name := value]> a.

(** A table attribute as the commands read it; every attribute of the
    schema is present on a node, an absent key reads as [null]. *)
Definition attrOr (a : Attrs) (key : string) : Val :=
  default VNull (a !! key).

(** *** The closing default calls *)

(** A default command called with the caller's transaction and the
    caller's [dispatch]: it changes the transaction whether or not there is
    a callback, and passes it to the callback when there is one
    ([dispatch?.(tr)]).  [dispatch] says whether the caller has one. *)
Definition callDefault (dispatch : bool) (o : Outcome) : Ran Transaction :=
  match o with
  | Throws => quiet Raises
  | Returns _ (Some tr) => {| calls := if dispatch then [tr] else []; ending := Gives tr |}
  | Returns _ None => quiet Unsettled
  end.

(** The three calls that close [addColumn] and [addRow]; each one passes
    the transaction on to [dispatch]. *)
Definition reapplyDefaults (dispatch : bool) (tbl : Node) (tr : Transaction)
  : Ran Transaction :=
  let border := attrOr (attrsOf tbl) "border" in
  let background := attrOr (attrsOf tbl) "background" in
  let borderColor := attrOr (attrsOf tbl) "borderColor" in
  tr1 ← callDefault dispatch (defaultBorder tr border);
  tr2 ← callDefault dispatch (defaultBackgroundColor tr1 background);
  callDefault dispatch (defaultBorderColor tr2 borderColor).

Section Schema.
(** Node creation is the schema's: [type.createAndFill()] for a type
    name, and the default attributes of a row. *)
Variable createAndFill : string → option Node.
Variable rowDefaults : Attrs.

Section AddColumn.
Variable m : TableMap.
Variable tStart : nat.
Variable tbl : Node.
Variable col : Z.

Definition refColumn : Z := if (col <? width m - 1)%Z then 0%Z else (-1)%Z.

(** One turn of the [for] loop: the transaction and the row the loop
    continues with, [row += rowspan - 1] and then [row++] behind a
    spanning cell. *)
Definition addColumnRow (row : Z) (tr : Transaction) : Step (Transaction * Z) :=
  let index := (row * width m + col)%Z in
  if (0 <? col)%Z && (col <? width m)%Z
     && bool_decide (slot m (index - 1) = slot m index)
  then
    pos ← orRaise (slot m index);
    cell ← orRaise (nodeAt tbl pos);
    cc ← orRaise (colCount m pos);
    a ← addColSpan (attrsOf cell) (col - cc);
    tr' ← orRaise (setNodeMarkup (mapPos (mapping tr) (tStart + pos)) a tr);
    rs ← orUnsettled (numAttr (attrsOf cell) "rowspan");
    Gives (tr', jsAdd (jsAdd row (jsSub rs 1)) 1)
  else
    orRaise (rp ← slot m (index + refColumn);
             ref ← nodeAt tbl rp;
             new ← createAndFill (typeName ref);
             pos ← positionAt m row col tbl;
             tr' ← insert (mapPos (mapping tr) (tStart + pos)) new tr;
             Some (tr', (row + 1)%Z)).

(** The loop, followed for [fuel] turns.  With every [rowspan] at least 1
    it is over after as many turns as the table has rows; a [rowspan]
    below 1 keeps [row] from advancing, and the source loop then need not
    end: the model gives no verdict when the turns are used up. *)
Fixpoint addColumnRows (fuel : nat) (row : Z) (tr : Transaction) : Step Transaction :=
  if (height m <=? row)%Z then Gives tr
  else match fuel with
       | 0 => Unsettled
       | S fuel' => r ← addColumnRow row tr; addColumnRows fuel' r.2 r.1
       end.
End AddColumn.

(** [addColumn(tr, rect, col, dispatch)]: the loop over the rows, then the
    table's defaults once more, each of the three calls passing the
    transaction to [dispatch]. *)
Definition addColumn (tr : Transaction) (rect : Rect) (col : Z) (dispatch : bool)
  : Ran Transaction :=
  let m := rmap rect in
  tr' ← quiet (addColumnRows m (tableStart rect) (table rect) col
                 (Z.to_nat (height m)) 0%Z tr);
  reapplyDefaults dispatch (table rect) tr'.

Section AddRow.
Variable m : TableMap.
Variable tStart : nat.
Variable tbl : Node.
Variable row : Z.

Definition refRow : Z := if (row <? height m - 1)%Z then 0%Z else (-1)%Z.

(** One turn of the [for] loop over the columns: the transaction, the
    cells collected so far, and the column the loop continues with,
    [col += colspan - 1] and then [col++] under a spanning cell.
    [index] advances by one per turn whatever [col] does. *)
Definition addRowCol (col index : Z) (st : Transaction * list Node)
  : Step (Transaction * list Node * Z) :=
  if (0 <? row)%Z && (row <? height m)%Z
     && bool_decide (slot m index = slot m (index - width m))
  then
    pos ← orRaise (slot m index);
    cell ← orRaise (nodeAt tbl pos);
    rs ← orUnsettled (numAttr (attrsOf cell) "rowspan");
    tr' ← orRaise (setNodeMarkup (tStart + pos)
                     (setAttr (attrsOf cell) "rowspan" (VNum (jsAdd rs 1))) st.1);
    cs ← orUnsettled (numAttr (attrsOf cell) "colspan");
    Gives (tr', st.2, jsAdd (jsAdd col (jsSub cs 1)) 1)
  else
    orRaise (rp ← slot m (index + refRow * width m);
             ref ← nodeAt tbl rp;
             new ← createAndFill (typeName ref);
             Some (st.1, st.2 ++ [new], (col + 1)%Z)).

(** The loop, followed for [fuel] turns; without a verdict when they are
    used up, as for the columns' loop. *)
Fixpoint addRowCols (fuel : nat) (col index : Z) (st : Transaction * list Node)
  : Step (Transaction * list Node) :=
  if (width m <=? col)%Z then Gives st
  else match fuel with
       | 0 => Unsettled
       | S fuel' => r ← addRowCol col index st;
                    addRowCols fuel' r.2 (index + 1)%Z r.1
       end.
End AddRow.

(** [addRow(tr, rect, row, dispatch)]: spanning cells grow, the other
    slots get a new cell each, the new row goes in at [rowPos], then the
    table's defaults once more, each call passing the transaction to
    [dispatch]. *)
Definition addRow (tr : Transaction) (rect : Rect) (row : Z) (dispatch : bool)
  : Ran Transaction :=
  let m := rmap rect in
  tr' ← quiet (off ← orRaise (rowStartOf (contentOf (table rect)) (Z.to_nat row));
               st ← addRowCols m (tableStart rect) (table rect) row
                      (Z.to_nat (width m)) 0%Z (width m * row)%Z (tr, []);
               orRaise (insert (tableStart rect + off)
                          (Elem "tableRow" rowDefaults st.2) st.1));
  reapplyDefaults dispatch (table rect) tr'.

(** The four commands, [command(state, dispatch)].  Outside a table they
    return [false]; without a [dispatch] they return [true] and do
    nothing; with one they run the edit on [state.tr] and then pass the
    transaction to [dispatch] once more, except [addRowAfter], which
    leaves it at the calls of the closing default commands. *)
Section Commands.
Variable isInTable : EditorState → bool.
Variable selectedRect : EditorState → Rect.

Definition structural (edit : Transaction → Rect → bool → Ran Transaction)
    (passOn : bool) (st : EditorState) (dispatch : bool) : Ran bool :=
  if negb (isInTable st) then quiet (Gives false)
  else if dispatch
  then tr ← edit (startTr (sdoc st) (sselection st)) (selectedRect st) true;
       {| calls := if passOn then [tr] else []; ending := Gives true |}
  else quiet (Gives true).

Definition addColumnBefore : EditorState → bool → Ran bool :=
  structural (λ tr rect, addColumn tr rect (left rect)) true.
Definition addColumnAfter : EditorState → bool → Ran bool :=
  structural (λ tr rect, addColumn tr rect (right rect)) true.
Definition addRowBefore : EditorState → bool → Ran bool :=
  structural (λ tr rect, addRow tr rect (top rect)) true.
Definition addRowAfter : EditorState → bool → Ran bool :=
  structural (λ tr rect, addRow tr rect (bottom rect)) false.
End Commands.
End Schema.

(** ** Repair, as the spec has it *)

(** Modelled from the spec: the grid (3) while the resolver builds it,
    the position of the cell that covers slot (row, column). *)
Definition Grid : Type := gmap (nat * nat) nat.

(** Modelled from the spec: a span attribute; the spec (3) has [colspan]
    and [rowspan] integers of 1 or more. *)
Definition spanOf (a : Attrs) (key : string) : option nat :=
  n ← numAttr a key; if (1 <=? n)%Z then Some (Z.to_nat n) else None.

(** Modelled from the spec: the footprint (4.1) of a cell of [rs] rows
    and [cs] columns at slot (r, c). *)
Definition footprint (r c rs cs : nat) : list (nat * nat) :=
  i ← seq r rs; j ← seq c cs; [(i, j)].

(** Modelled from the spec: the first free slot (4.1) of row [r] at or
    behind column [c]. *)
Fixpoint firstFree (g : Grid) (r fuel c : nat) : nat :=
  match fuel with
  | 0 => c
  | S fuel' => if decide (is_Some (g !! (r, c))) then firstFree g r fuel' (S c) else c
  end.

(** Modelled from the spec: one cell marks its footprint (4.1); the
    column behind it is where the scan line goes on. *)
Definition markCell (g : Grid) (w h r c pos : nat) (cell : Node) : option (Grid * nat) :=
  cs ← spanOf (attrsOf cell) "colspan";
  rs ← spanOf (attrsOf cell) "rowspan";
  let c0 := firstFree g r w c in
  let slots := footprint r c0 rs cs in
  if bool_decide (c0 + cs ≤ w) && bool_decide (r + rs ≤ h)
     && forallb (λ s, bool_decide (g !! s = None)) slots
  then Some (foldr (λ s g', <[s := pos]> g') g slots, c0 + cs)
  else None.

(** Modelled from the spec: the cells of one row (4.1), and at its end
    the check that the row's line is tiled. *)
Fixpoint markRow (g : Grid) (w h r c pos : nat) (cells : list Node) : option Grid :=
  match cells with
  | [] => if forallb (λ j, bool_decide (is_Some (g !! (r, j)))) (seq 0 w)
          then Some g else None
  | cell :: rest =>
      gc ← markCell g w h r c pos cell;
      markRow gc.1 w h r gc.2 (pos + nodeSize cell) rest
  end.

(** Modelled from the spec: the pass over the rows (4.1). *)
Fixpoint markRows (g : Grid) (w h r pos : nat) (rows : list Node) : option Grid :=
  match rows with
  | [] => Some g
  | row :: rest =>
      g' ← markRow g w h r 0 (pos + 1) (contentOf row);
      markRows g' w h (S r) (pos + nodeSize row) rest
  end.

(** Modelled from the spec: the grid resolver (4.1) of the table plugin,
    which is not among the sources.  A single pass over the rows and the
    cells of each row; every cell marks its footprint of [colspan] by
    [rowspan] slots, starting at the first free slot of its row's scan
    line; the resolver signals a malformed table ([None]) when a span is
    no integer of 1 or more, when a footprint leaves the grid or meets a
    marked slot, or when a row leaves a slot of its line unmarked.  No
    span from above lies on the first row, so its cells tile the width
    exactly when their [colspan]s add up to it.  Positions are counted
    from the start of the table's content, as [TableMap] has them. *)
Definition resolveGrid (tbl : Node) : option TableMap :=
  let rows := contentOf tbl in
  let h := length rows in
  w ← match rows with
      | [] => Some 0
      | row :: _ =>
          sum_list <$> mapM (λ cell, spanOf (attrsOf cell) "colspan") (contentOf row)
      end;
  g ← markRows ∅ w h 0 0 rows;
  Some {| width := Z.of_nat w; height := Z.of_nat h;
          map := (λ s, default 0 (g !! s)) <$> footprint 0 0 h w |}.

(** Modelled from the spec: the state [NeedsFix] of the repair state
    machine (4.7): the resolver signals a malformed table for one of the
    tables of the document. *)
Definition needsFix (d : Node) : bool :=
  existsb (λ e, isTable e.2 && negb (bool_decide (is_Some (resolveGrid e.2))))
          (descendants d).

(** Modelled from the spec: [fixTables] of the table plugin, which is not
    among the sources.  The spec (4.7, 6) has a fix request compute a
    corrective transaction for a malformed document from the document and
    the snapshot held, and report that there is nothing to fix when no fix
    is needed or none can be computed.  How the correction is computed the
    spec leaves open: it is the parameter [repair]. *)
Definition specFixTables (repair : EditorState → option EditorState → option Transaction)
    (st : EditorState) (lastGood : option EditorState) : option Transaction :=
  if needsFix (sdoc st) then repair st lastGood else None.

(** ** Vocabulary of the properties *)

(** Two traversal entries with the same position, type and size. *)
Definition sameShape (e e' : nat * Node) : Prop :=
  e'.1 = e.1 ∧ typeName e'.2 = typeName e.2 ∧ nodeSize e'.2 = nodeSize e.2
  ∧ isText e'.2 = isText e.2.

(** [e'] is [e] after the attributes at position [p] became [a]. *)
Definition rewritten (p : nat) (a : Attrs) (e e' : nat * Node) : Prop :=
  sameShape e e' ∧ attrsOf e'.2 = if decide (e.1 = p) then a else attrsOf e.2.

(** Document order of traversal entries. *)
Definition before (e e' : nat * Node) : Prop := e.1 < e'.1.

(** A queue of attribute replacements, applied oldest first. *)
Definition applyWrites (ws : list (nat * Attrs)) (tr : Transaction) : option Transaction :=
  foldl (λ acc w, t ← acc; setNodeMarkup w.1 w.2 t) (Some tr) ws.

(** The attributes the queue leaves at position [q], if it writes there. *)
Fixpoint lastWrite (ws : list (nat * Attrs)) (q : nat) : option Attrs :=
  match ws with
  | [] => None
  | (p, a) :: ws' =>
      match lastWrite ws' q with
      | Some a' => Some a'
      | None => if decide (p = q) then Some a else None
      end
  end.

(** [e'] is [e] after the queue [ws]. *)
Definition written (ws : list (nat * Attrs)) (e e' : nat * Node) : Prop :=
  sameShape e e' ∧ attrsOf e'.2 = default (attrsOf e.2) (lastWrite ws e.1).

(** The scope variables after the callback has seen the entries [l]. *)
Definition scanScope (currSelection : nat) (sc : Scope) (l : list (nat * Node)) : Scope :=
  foldl (λ sc e, enterTable currSelection e.1 e.2 sc) sc l.

(** What [defaultVisit] queues at one entry, and over a traversal. *)
Definition defaultWrite (key : string) (value : Val) (sc : Scope) (e : nat * Node)
  : list (nat * Attrs) :=
  if inScope e.1 sc && isCell e.2 && negb (highlighted e.2)
  then [(e.1, <[key := value]> (attrsOf e.2))] else [].

Fixpoint defaultWrites (currSelection : nat) (key : string) (value : Val)
    (sc : Scope) (l : list (nat * Node)) : list (nat * Attrs) :=
  match l with
  | [] => []
  | e :: l' =>
      let sc' := enterTable currSelection e.1 e.2 sc in
      defaultWrite key value sc' e ++ defaultWrites currSelection key value sc' l'
  end.

(** Everything a default command queues: the table, then the walk. *)
Definition tableWrites (key : string) (value : Val) (sel : Selection)
    (fpos : nat) (fnode : Node) (d : Node) : list (nat * Attrs) :=
  (fpos, <[key := value]> (attrsOf fnode))
  :: defaultWrites (from sel) key value noScope (descendants d).

(** No table starts strictly inside the span of the node [n] at [p]. *)
Definition noTableInside (l : list (nat * Node)) (p : nat) (n : Node) : Prop :=
  ∀ e, e ∈ l → isTable e.2 = true → ¬ (p < e.1 < p + nodeSize n).

(** Every table that starts behind position [p] and in front of the
    selection at [cs] reaches up to [q]: no table nested in the table at
    [p] in front of the selection ends in front of [q]. *)
Definition reaches (l : list (nat * Node)) (p cs q : nat) : Prop :=
  ∀ e, e ∈ l → isTable e.2 = true → p < e.1 → e.1 < cs → q ≤ e.1 + nodeSize e.2.

(** The attributes of the node at a position. *)
Definition attrsAt (d : Node) (pos : nat) : option Attrs :=
  attrsOf <$> nodeAt d pos.

(** The queue [forEachCell] builds when its callback rewrites each cell
    with [g] of the cell's attributes. *)
Definition cellWrites (g : Attrs → Attrs) (d0 : Node) (cells : list nat)
  : option (list (nat * Attrs)) :=
  mapM (λ pos, n ← nodeAt d0 pos; Some (pos, g (attrsOf n))) cells.

(** The cells a per-cell command works on. *)
Definition targetCells (sel : Selection) (d : Node) : list nat :=
  match cellRange sel with
  | Some cells => cells
  | None => match findParentNodeOfType sel "tableCell" d with
            | Some (pos, _) => [pos]
            | None => []
            end
  end.

(** The common shape of the per-cell commands. *)
Definition perCell (gRange gSingle : Attrs → Attrs) (tr : Transaction) : Outcome :=
  let sel := selection tr in
  match cellRange sel with
  | Some cells =>
      match forEachCell (λ cellNode pos t, setNodeMarkup pos (gRange (attrsOf cellNode)) t)
              (doc tr) cells tr with
      | Some tr' => Returns true (Some tr')
      | None => Throws
      end
  | None =>
      match findParentNodeOfType sel "tableCell" (doc tr) with
      | Some (pos, node) =>
          match setNodeMarkup pos (gSingle (attrsOf node)) tr with
          | Some tr' => Returns true (Some tr')
          | None => Throws
          end
      | None => Returns false None
      end
  end.

(** The rewrite a per-cell command uses for this selection. *)
Definition perCellAttrs (gRange gSingle : Attrs → Attrs) (sel : Selection) : Attrs → Attrs :=
  match cellRange sel with Some _ => gRange | None => gSingle end.

(** The attribute rewrites of [highlightSelection] and
    [setTableCellBackground]. *)
Definition highlightMark (border borderColor : Val) (a : Attrs) : Attrs :=
  <["highlight" := VBool true]> (<["borderColor" := borderColor]> (<["border" := border]> a)).

Definition backgroundMark (background : Val) (a : Attrs) : Attrs :=
  <["highlight" := VBool true]> (<["background" := background]> a).

(** The three default commands with the attribute each one sets. *)
Definition defaultCommands : list (string * (Val → Transaction → Outcome)) :=
  [("border", setDefaultTableBorder);
   ("borderColor", setDefaultTableBorderColor);
   ("background", setDefaultTableBackgroundColor)].

(** The scope and the row counter after [alternateVisit] has seen an entry. *)
Definition altStep (currSelection : nat) (st : Scope * nat) (e : nat * Node) : Scope * nat :=
  let sc := enterTable currSelection e.1 e.2 st.1 in
  (sc, if inScope e.1 sc && isRow e.2 then st.2 + 1 else st.2).

(** What [alternateVisit] queues at an entry, given the scope and counter
    it has reached there: the flag of an enclosing table, the background
    of a cell. *)
Definition altWrite (currSelection : nat) (st : Scope * nat) (e : nat * Node)
  : list (nat * Attrs) :=
  (if isTable e.2 && (e.1 <? currSelection) && (currSelection <? e.1 + nodeSize e.2)
      && alternateOff e.2
   then [(e.1, <["alternateColor" := VStr "true"]> (attrsOf e.2))] else [])
  ++ (if inScope e.1 st.1 && isCell e.2 && negb (highlighted e.2)
      then [(e.1, <["background" := if negb (st.2 mod 2 =? 0) then bandingColor else noColor]>
                   (attrsOf e.2))]
      else []).

Fixpoint alternateWrites (currSelection : nat) (st : Scope * nat)
    (l : list (nat * Node)) : list (nat * Attrs) :=
  match l with
  | [] => []
  | e :: l' =>
      let st' := altStep currSelection st e in
      altWrite currSelection st' e ++ alternateWrites currSelection st' l'
  end.

Definition scanAlt (currSelection : nat) (st : Scope * nat) (l : list (nat * Node))
  : Scope * nat :=
  foldl (altStep currSelection) st l.

(** Same position, type, size and attributes. *)
Definition sameEntry (e e' : nat * Node) : Prop :=
  sameShape e e' ∧ attrsOf e'.2 = attrsOf e.2.

(** Everything [alternateColor] queues: the table unchanged, then the walk. *)
Definition alternateQueue (sel : Selection) (fpos : nat) (fnode : Node) (d : Node)
  : list (nat * Attrs) :=
  (fpos, attrsOf fnode) :: alternateWrites (from sel) (noScope, 0) (descendants d).

(** The background the alternation walk gives a cell at row count [count]. *)
Definition bandOf (count : nat) : Val :=
  if negb (count mod 2 =? 0) then bandingColor else noColor.

(** A row whose cells hold neither tables nor rows. *)
Definition plainRow (r : Node) : Prop :=
  isRow r = true
  ∧ ∀ s e, e ∈ descFrag s (contentOf r) → isTable e.2 = false ∧ isRow e.2 = false.

(** The scope inside a table that ends at [tableEnd] and holds the selection. *)
Definition scopeOf (tableEnd : nat) : Scope :=
  {| last := Some tableEnd; curTable := true |}.

(** ** Statements the documents below are tested against *)

(** Alternation parity as the specification words it: any 4-row table
    around the selection that holds no highlighted cell gets the banding
    colour in rows 1 and 3 and the no-colour string in rows 2 and 4. *)
Definition parityClaim (d : Node) (sel : Selection) : Prop :=
  ∀ fpos ta r1 r2 r3 r4,
    let rows := [r1; r2; r3; r4] in
    findParentNodeOfType sel "table" d = Some (fpos, Elem "table" ta rows) →
    (∀ e, e ∈ descNode fpos (Elem "table" ta rows) → isCell e.2 = true →
          highlighted e.2 = false) →
    ∃ tr', applyAlternateColor (startTr d sel) = Returns true (Some tr')
      ∧ ∀ i r q c, rows !! i = Some r →
          (q, c) ∈ descNode (fpos + 1 + fragSize (take i rows)) r →
          isCell c = true →
          attrsAt (doc tr') q ≫= (.!! "background")
          = Some (if Nat.even i then bandingColor else noColor).

(** Highlight exemption as the specification words it: after
    [setHighlight] on the cell set S, a default command leaves the cells of
    S unchanged and sets its attribute on every other cell of the table
    around the selection. *)
Definition exemptionClaim (tr0 : Transaction) (border borderColor : Val)
    (sel' : Selection) (key : string) (cmd : Val → Transaction → Outcome)
    (v : Val) : Prop :=
  ∀ tr1 fpos fnode,
    highlightSelection border borderColor tr0 = Returns true (Some tr1) →
    findParentNodeOfType sel' "table" (doc tr1) = Some (fpos, fnode) →
    ∃ tr2, cmd v (startTr (doc tr1) sel') = Returns true (Some tr2)
      ∧ (∀ q, q ∈ targetCells (selection tr0) (doc tr0) →
           attrsAt (doc tr2) q = attrsAt (doc tr1) q)
      ∧ (∀ q c, nodeAt (doc tr1) q = Some c → isCell c = true →
           fpos < q < fpos + nodeSize fnode →
           q ∉ targetCells (selection tr0) (doc tr0) →
           attrsAt (doc tr2) q = Some (<[key := v]> (attrsOf c))).

(** ** Example documents *)

Definition exPara : Node := Elem "paragraph" ∅ [Text 1].

Definition exCellAttrs : Attrs :=
  <["colspan" := VNum 1]> (<["rowspan" := VNum 1]> (<["background" := VNull]>
  (<["border" := VNull]> (<["borderColor" := VNull]> (<["highlight" := VBool false]> ∅))))).

Definition exTableAttrs : Attrs :=
  <["border" := VNull]> (<["borderColor" := VNull]> (<["background" := VNull]>
  (<["alternateColor" := VStr "false"]> ∅))).

Definition exCell (c : list Node) : Node := Elem "tableCell" exCellAttrs c.
Definition exRow (cells : list Node) : Node := Elem "tableRow" ∅ cells.
Definition exTable (rows : list Node) : Node := Elem "table" exTableAttrs rows.
Definition exDoc (blocks : list Node) : Node := Elem "doc" ∅ blocks.

(** Four rows of one cell each; the table starts at 0, the rows at 1, 8,
    15 and 22, their cells one further. *)
Definition exFourRows : Node :=
  exDoc [exTable [exRow [exCell [exPara]]; exRow [exCell [exPara]];
                  exRow [exCell [exPara]]; exRow [exCell [exPara]]]].

(** The same with a one-cell table behind the paragraph of the first
    cell: the inner table starts at 6, the second outer row at 17. *)
Definition exInner : Node := exTable [exRow [exCell [exPara]]].

Definition exFourRowsNested : Node :=
  exDoc [exTable [exRow [exCell [exPara; exInner]]; exRow [exCell [exPara]];
                  exRow [exCell [exPara]]; exRow [exCell [exPara]]]].

(** A cursor inside the paragraph of the first cell. *)
Definition exCursor : Selection := {| from := 4; cellRange := None |}.

(** The transaction a command dispatched, or the one it started on. *)
Definition dispatchedOr (tr : Transaction) (o : Outcome) : Transaction :=
  match o with
  | Returns _ (Some tr') => tr'
  | _ => tr
  end.

(** One row of two cells, at 2 and 7, and a cursor inside the second. *)
Definition exTwoCells : Node :=
  exDoc [exTable [exRow [exCell [exPara]; exCell [exPara]]]].

Definition exCursor2 : Selection := {| from := 9; cellRange := None |}.

(** The second cell given a background of its own. *)
Definition exBackground : Transaction :=
  dispatchedOr (startTr exTwoCells exCursor2)
    (setTableCellBackground (VStr "red") (startTr exTwoCells exCursor2)).

(** Then the first cell highlighted. *)
Definition exHighlighted : Transaction :=
  dispatchedOr (startTr (doc exBackground) exCursor)
    (highlightSelection (VStr "4px dashed") (VStr "blue")
       (startTr (doc exBackground) exCursor)).

(** A document without a table, and a cursor inside its paragraph. *)
Definition exNoTable : Node := exDoc [exPara].
Definition exCursorPara : Selection := {| from := 1; cellRange := None |}.

(** Two sibling tables B (at 3) and A (at 12) inside the only cell of an
    outer table; the cell of B is at 5, the cursor inside the cell of A. *)
Definition exSiblings : Node :=
  exDoc [exTable [exRow [exCell [exInner; exInner]]]].

Definition exCursorA : Selection := {| from := 16; cellRange := None |}.

(** Running a command that is expected to dispatch. *)
Definition docAfter (o : Outcome) : option Node :=
  match o with
  | Returns _ (Some tr) => Some (doc tr)
  | _ => None
  end.

(** [createAndFill] of a schema whose cells default to [exCellAttrs] and
    are filled with an empty paragraph. *)
Definition exCreate (type : string) : option Node :=
  Some (Elem type exCellAttrs [Elem "paragraph" ∅ []]).

(** A table of one row and one column, with the rectangle of a cursor in
    its cell. *)
Definition exOneCell : Node := exTable [exRow [exCell [exPara]]].

Definition exOneCellRect : Rect :=
  {| rmap := {| width := 1; height := 1; map := [1] |};
     tableStart := 1; table := exOneCell;
     left := 0; right := 1; top := 0; bottom := 1 |}.

(** A table with default border "2px solid" whose first cell holds a
    table behind its paragraph; the cursor is in the second cell. *)
Definition exStyledAttrs : Attrs := <["border" := VStr "2px solid"]> exTableAttrs.

Definition exStyledCell (c : list Node) : Node :=
  Elem "tableCell" (<["border" := VStr "2px solid"]> exCellAttrs) c.

Definition exStyled : Node :=
  Elem "table" exStyledAttrs
    [exRow [exStyledCell [exPara; exInner]; exStyledCell [exPara]]].

Definition exStyledRect : Rect :=
  {| rmap := {| width := 2; height := 1; map := [1; 15] |};
     tableStart := 1; table := exStyled;
     left := 1; right := 2; top := 0; bottom := 1 |}.

Definition exStyledState : EditorState :=
  {| sdoc := exDoc [exStyled]; sselection := {| from := 18; cellRange := None |} |}.

(** The same table without the inner one. *)
Definition exFlat : Node :=
  Elem "table" exStyledAttrs [exRow [exStyledCell [exPara]; exStyledCell [exPara]]].

Definition exFlatRect : Rect :=
  {| rmap := {| width := 2; height := 1; map := [1; 6] |};
     tableStart := 1; table := exFlat;
     left := 1; right := 2; top := 0; bottom := 1 |}.

Definition exFlatState : EditorState :=
  {| sdoc := exDoc [exFlat]; sselection := {| from := 9; cellRange := None |} |}.

(** The border of the node at a position, when there is one. *)
Definition borderAt (d : Node) (pos : nat) : option Val :=
  attrsAt d pos ≫= (.!! "border").

(** Two runs of a command in succession: both booleans and the editor
    after the second run. *)
Definition runTwice (cmd : Editor → Outcome) (ed : Editor) : option (bool * bool * Editor) :=
  r1 ← runCommand cmd ed;
  r2 ← runCommand cmd r1.2;
  Some (r1.1, r2.1, r2.2).

(** Then the default border set with the cursor in the first cell. *)
Definition exDefaulted : Transaction :=
  dispatchedOr (startTr (doc exHighlighted) exCursor)
    (setDefaultTableBorder (VStr "1px dotted") (startTr (doc exHighlighted) exCursor)).

(** The table of [exHighlighted], at position 0. *)
Definition exHighlightedTable : Node := default exPara (nodeAt (doc exHighlighted) 0).

(** A decidable form of [reaches]. *)
Definition reachesb (l : list (nat * Node)) (p cs q : nat) : bool :=
  forallb (λ e, negb (isTable e.2 && (p <? e.1) && (e.1 <? cs))
                || (q <=? e.1 + nodeSize e.2)) l.

(** A table whose second cell holds a table, behind a cursor in the
    first cell: the cells are at 2 and 7, the inner table at 11 and its
    cell at 13. *)
Definition exNestedBehind : Node :=
  exDoc [exTable [exRow [exCell [exPara]; exCell [exPara; exInner]]]].

(** Its first cell highlighted, and then the default border set. *)
Definition exMarked : Transaction :=
  dispatchedOr (startTr exNestedBehind exCursor)
    (highlightSelection (VStr "4px dashed") (VStr "blue")
       (startTr exNestedBehind exCursor)).

Definition exMarkedTable : Node := default exPara (nodeAt (doc exMarked) 0).

(** [exFourRowsNested] after the alternation command. *)
Definition exBanded : Transaction :=
  dispatchedOr (startTr exFourRowsNested exCursor)
    (applyAlternateColor (startTr exFourRowsNested exCursor)).

(** A decidable form of "the table at [fpos] is the only table around
    position [cs]". *)
Definition onlyTableAroundb (l : list (nat * Node)) (cs fpos : nat) : bool :=
  forallb (λ e, negb (isTable e.2 && (e.1 <? cs) && (cs <? e.1 + nodeSize e.2))
                || (e.1 =? fpos)) l.

(** Two tables side by side at the top of the document, at 0 and 9, and
    a cursor in the second one. *)
Definition exTwoTables : Node := exDoc [exInner; exInner].
Definition exCursorSecond : Selection := {| from := 13; cellRange := None |}.

(** The table of [exTwoCells]. *)
Definition exTwoCellsTable : Node := exTable [exRow [exCell [exPara]; exCell [exPara]]].

(** The attribute rewrite of [removeHighlightSelection]: the cell-range
    branch and the single-cell branch. *)
Definition clearMark (sel : Selection) (a : Attrs) : Attrs :=
  match cellRange sel with
  | Some _ =>
      <["highlight" := VBool false]> (<["borderColor" := VNull]> (<["border" := VNull]> a))
  | None => <["highlight" := VBool false]> a
  end.

(** The three per-cell commands with the rewrite each one applies. *)
Definition cellCommands (background border borderColor : Val) (sel : Selection)
  : list ((Transaction → Outcome) * (Attrs → Attrs)) :=
  [(setTableCellBackground background, backgroundMark background);
   (highlightSelection border borderColor, highlightMark border borderColor);
   (removeHighlightSelection, clearMark sel)].

(** A cell selection of both cells of [exTwoCells], at 2 and 7. *)
Definition exRange : Selection := {| from := 2; cellRange := Some [2; 7] |}.

(** A decidable form of "every target holds an element". *)
Definition targetsOkb (sel : Selection) (d : Node) : bool :=
  forallb (λ q, match nodeAt d q with Some c => negb (isText c) | None => false end)
          (targetCells sel d).

(** A table whose first row is one cell across both columns; relative to
    the table's content the cells start at 1, 8 and 13. *)
Definition exSpanCell : Node :=
  Elem "tableCell" (<["colspan" := VNum 2]> exCellAttrs) [exPara].

Definition exSpan : Node :=
  exTable [exRow [exSpanCell]; exRow [exCell [exPara]; exCell [exPara]]].

Definition exSpanMap : TableMap := {| width := 2; height := 2; map := [1; 1; 8; 13] |}.

(** ** The commands on the editor *)

(** A command of the extension run on the editor: it works on [state.tr],
    the transaction the current state starts. *)
Definition onEditor (cmd : Transaction → Outcome) (ed : Editor) : Outcome :=
  cmd (startTr (sdoc (state ed)) (sselection (state ed))).

(** The seven styling commands of the extension. *)
Definition stylingCommands (background border borderColor value : Val)
  : list (Transaction → Outcome) :=
  [setTableCellBackground background; highlightSelection border borderColor;
   removeHighlightSelection; setDefaultTableBorder value;
   setDefaultTableBorderColor value; setDefaultTableBackgroundColor value;
   applyAlternateColor].

(** ** Browser support *)

(** The module's [tablesEnabled] flag and the [document.execCommand] calls
    made so far, oldest first. *)
Record Browser : Type := mkBrowser {
  tablesEnabled : bool;
  execLog : list (string * bool * string)
}.

(** [enableTableSupport()]. *)
Definition enableTableSupport (b : Browser) : Browser :=
  if negb (tablesEnabled b)
  then {| tablesEnabled := true;
          execLog := execLog b ++ [("enableObjectResizing", false, "false");
                                   ("enableInlineTableEditing", false, "false")] |}
  else b.

(** A [colwidth] that [addColSpan] can work on: an array, or a value it
    skips. *)
Definition spliceable (a : Attrs) : bool :=
  match a !! "colwidth" with
  | Some (VArr _) => true
  | w => negb (truthy w)
  end.

(** A table whose second row has one cell for two columns, and an editor
    on the well-formed [exTwoCells] with a repair function that always has
    a correction at hand. *)
Definition exRagged : Node :=
  exDoc [exTable [exRow [exCell [exPara]; exCell [exPara]]; exRow [exCell [exPara]]]].

Definition exEditor : Editor :=
  {| state := {| sdoc := exTwoCells; sselection := exCursor |}; lastGoodState := None |}.

Definition exRepair (st : EditorState) (lastGood : option EditorState) : option Transaction :=
  Some {| doc := exNoTable; selection := sselection st; mapping := [];
          fixTablesMeta := true |}.

(** * Properties *)

Lemma Node_ind' (P : Node → Prop) :
  (∀ len, P (Text len)) →
  (∀ t a c, Forall P c → P (Elem t a c)) →
  ∀ n, P n.
Proof.
  intros HT HE. fix IH 1. intros [len | t a c].
  - apply HT.
  - apply HE. induction c as [| x c IHc]; constructor; [apply IH | exact IHc].
Qed.

Lemma nodeSize_pos n : 0 < nodeSize n.
Proof. destruct n; simpl; lia. Qed.

Lemma descFrag_cons s x c :
  descFrag s (x :: c) = descNode s x ++ descFrag (s + nodeSize x) c.
Proof. reflexivity. Qed.

Lemma descNode_Elem s t a c :
  descNode s (Elem t a c) = (s, Elem t a c) :: descFrag (S s) c.
Proof. reflexivity. Qed.

(** Every entry of a subtree lies inside the span of its root. *)
Lemma descNode_range n : ∀ s e, e ∈ descNode s n → s ≤ e.1 < s + nodeSize n.
Proof.
  induction n as [len | t a c IH] using Node_ind'; intros s e.
  - simpl. intros ->%list_elem_of_singleton. simpl. lia.
  - rewrite descNode_Elem, elem_of_cons. intros [-> | He]; [simpl; lia |].
    cut (S s ≤ e.1 < S s + fragSize c); [unfold fragSize; simpl; lia |].
    revert He. generalize (S s) as s'. 
    induction IH as [| x c Hx _ IHc]; intros s'.
    + intros []%elem_of_nil.
    + rewrite descFrag_cons, elem_of_app. unfold fragSize. simpl.
      intros [He | He].
      * apply Hx in He. lia.
      * apply IHc in He. unfold fragSize in He. lia.
Qed.

Lemma descFrag_range c : ∀ s e, e ∈ descFrag s c → s ≤ e.1 < s + fragSize c.
Proof.
  induction c as [| x c IHc]; intros s e.
  - intros []%elem_of_nil.
  - rewrite descFrag_cons, elem_of_app. unfold fragSize. simpl.
    intros [He%descNode_range | He%IHc]; unfold fragSize in *; lia.
Qed.

Lemma sameShape_refl e : sameShape e e.
Proof. by repeat split. Qed.

Lemma rewritten_refl p a l :
  (∀ e, e ∈ l → e.1 ≠ p) → Forall2 (rewritten p a) l l.
Proof.
  intros H. apply Forall2_same_length_lookup_2; [done |].
  intros i e e' He He'. simplify_eq. split; [apply sameShape_refl |].
  rewrite decide_False; [done |]. apply H. by eapply list_elem_of_lookup_2.
Qed.

Lemma inChild_spec a c :
  Forall (λ x, ∀ p x' s, setAt a x p = Some x' →
          nodeSize x' = nodeSize x
          ∧ Forall2 (rewritten (s + p) a) (descNode s x) (descNode s x')) c →
  ∀ p c' s, inChild (setAt a) c p = Some c' →
    fragSize c' = fragSize c
    ∧ Forall2 (rewritten (s + p) a) (descFrag s c) (descFrag s c').
Proof.
  induction 1 as [| x c Hx _ IHc]; intros p c' s; simpl; [done |].
  destruct (Nat.ltb_spec p (nodeSize x)) as [Hlt | Hge].
  - destruct (setAt a x p) as [x' |] eqn:Hset; simpl; [| done].
    intros [= <-]. destruct (Hx _ _ s Hset) as [Hsz HF].
    split; [unfold fragSize; simpl; lia |].
    rewrite !descFrag_cons, Hsz. apply Forall2_app; [done |].
    apply rewritten_refl. intros e He%descFrag_range. lia.
  - destruct (inChild (setAt a) c (p - nodeSize x)) as [c'' |] eqn:Hin; simpl; [| done].
    intros [= <-]. destruct (IHc _ _ (s + nodeSize x) Hin) as [Hsz HF].
    split; [unfold fragSize in *; simpl; lia |].
    rewrite !descFrag_cons. apply Forall2_app.
    + apply rewritten_refl. intros e He%descNode_range. lia.
    + by replace (s + p) with (s + nodeSize x + (p - nodeSize x)) by lia.
Qed.

(** Rewriting the node at offset [p] keeps every size and changes the
    attributes of exactly the entry at that position. *)
Lemma setAt_spec a n : ∀ p n' s, setAt a n p = Some n' →
  nodeSize n' = nodeSize n
  ∧ Forall2 (rewritten (s + p) a) (descNode s n) (descNode s n').
Proof.
  induction n as [len | t old c IH] using Node_ind'; intros p n' s; [done |].
  destruct p as [| p]; simpl.
  - intros [= <-]. split; [done |]. constructor.
    + split; [by repeat split |]. simpl. rewrite decide_True; [done | lia].
    + apply rewritten_refl. intros e He%descFrag_range. lia.
  - destruct (inChild (setAt a) c p) as [c' |] eqn:Hin; simpl; [| done].
    intros [= <-]. destruct (inChild_spec a c IH _ _ (S s) Hin) as [Hsz HF].
    split; [unfold fragSize in Hsz; simpl; lia |]. constructor.
    + split; [repeat split; simpl; unfold fragSize in Hsz; lia |].
      simpl. rewrite decide_False; [done | lia].
    + by replace (s + S p) with (S s + p) by lia.
Qed.

Lemma inChild_is_Some a c :
  Forall (λ x, ∀ s q m, (q, m) ∈ descNode s x → isText m = false →
          is_Some (setAt a x (q - s))) c →
  ∀ s q m, (q, m) ∈ descFrag s c → isText m = false →
    is_Some (inChild (setAt a) c (q - s)).
Proof.
  induction 1 as [| x c Hx _ IHc]; intros s q m.
  - intros []%elem_of_nil.
  - rewrite descFrag_cons, elem_of_app. simpl. intros [He | He] Hm.
    + pose proof (descNode_range _ _ _ He) as Hr. simpl in Hr.
      destruct (Nat.ltb_spec (q - s) (nodeSize x)); [| lia].
      destruct (Hx _ _ _ He Hm) as [x' ->]. by eexists.
    + pose proof (descFrag_range _ _ _ He) as Hr. simpl in Hr.
      destruct (Nat.ltb_spec (q - s) (nodeSize x)); [lia |].
      destruct (IHc _ _ _ He Hm) as [c' Hc'].
      replace (q - s - nodeSize x) with (q - (s + nodeSize x)) by lia.
      rewrite Hc'. by eexists.
Qed.

(** An element listed by the traversal can be rewritten in place. *)
Lemma setAt_is_Some a n : ∀ s q m,
  (q, m) ∈ descNode s n → isText m = false → is_Some (setAt a n (q - s)).
Proof.
  induction n as [len | t old c IH] using Node_ind'; intros s q m.
  - simpl. intros [= -> ->]%list_elem_of_singleton. done.
  - rewrite descNode_Elem, elem_of_cons. intros [[= -> ->] | He] Hm.
    + rewrite Nat.sub_diag. by eexists.
    + pose proof (descFrag_range _ _ _ He) as Hr. simpl in Hr.
      replace (q - s) with (S (q - S s)) by lia. simpl.
      destruct (inChild_is_Some a c IH _ _ _ He Hm) as [c' ->]. by eexists.
Qed.

Lemma descNode_NoDup n : ∀ s, NoDup (descNode s n).*1.
Proof.
  induction n as [len | t a c IH] using Node_ind'; intros s.
  - simpl. apply NoDup_singleton.
  - rewrite descNode_Elem, fmap_cons. apply NoDup_cons. split.
    + intros [e [He Hin]]%list_elem_of_fmap. apply descFrag_range in Hin.
      simpl in He. lia.
    + generalize (S s) as s'. induction IH as [| x c Hx _ IHc]; intros s'.
      * apply NoDup_nil_2.
      * rewrite descFrag_cons, fmap_app. apply NoDup_app. split_and!; [done | | done].
        intros p [e [-> He]]%list_elem_of_fmap [e' [Hp He']]%list_elem_of_fmap.
        apply descNode_range in He. apply descFrag_range in He'. lia.
Qed.

Lemma descFrag_NoDup c : ∀ s, NoDup (descFrag s c).*1.
Proof.
  induction c as [| x c IHc]; intros s; [apply NoDup_nil_2 |].
  rewrite descFrag_cons, fmap_app. apply NoDup_app.
  split_and!; [apply descNode_NoDup | | done].
  intros p [e [-> He]]%list_elem_of_fmap [e' [Hp He']]%list_elem_of_fmap.
  apply descNode_range in He. apply descFrag_range in He'. lia.
Qed.

Lemma descendants_NoDup d : NoDup (descendants d).*1.
Proof. apply descFrag_NoDup. Qed.

Lemma setNodeMarkup_spec q a tr tr' :
  setNodeMarkup q a tr = Some tr' →
  selection tr' = selection tr ∧ mapping tr' = mapping tr
  ∧ fixTablesMeta tr' = fixTablesMeta tr
  ∧ Forall2 (rewritten q a) (descendants (doc tr)) (descendants (doc tr')).
Proof.
  unfold setNodeMarkup. destruct (doc tr) as [len | t old c] eqn:Hd; [done |].
  simpl. destruct (inChild (setAt a) c q) as [c' |] eqn:Hin; [| done].
  simpl. intros [= <-]. simpl. split_and!; try done.
  eapply (inChild_spec a c) with (s := 0) in Hin as [_ HF]; [done |].
  apply Forall_forall. intros x _ p x' s. apply setAt_spec.
Qed.

Lemma setNodeMarkup_is_Some q a m tr :
  (q, m) ∈ descendants (doc tr) → isText m = false →
  is_Some (setNodeMarkup q a tr).
Proof.
  unfold setNodeMarkup, descendants. destruct (doc tr) as [len | t old c] eqn:Hd.
  - intros []%elem_of_nil.
  - simpl. intros He Hm.
    eapply (inChild_is_Some a c) in He as [c' Hc']; [| | done].
    + rewrite Nat.sub_0_r in Hc'. rewrite Hc'. by eexists.
    + apply Forall_forall. intros x _ s p x'. apply setAt_is_Some.
Qed.

Lemma descNode_sorted n : ∀ s, StronglySorted before (descNode s n).
Proof.
  induction n as [len | t a c IH] using Node_ind'; intros s.
  - simpl. repeat constructor.
  - rewrite descNode_Elem. apply StronglySorted_cons. split.
    + apply Forall_forall. intros e He%descFrag_range. unfold before. simpl. lia.
    + generalize (S s) as s'. induction IH as [| x c Hx _ IHc]; intros s'.
      * constructor.
      * rewrite descFrag_cons. apply StronglySorted_app_2; [| done | done].
        intros e e' He%descNode_range He'%descFrag_range. unfold before. lia.
Qed.

Lemma descFrag_sorted c : ∀ s, StronglySorted before (descFrag s c).
Proof.
  induction c as [| x c IHc]; intros s; [constructor |].
  rewrite descFrag_cons. apply StronglySorted_app_2; [| apply descNode_sorted | done].
  intros e e' He%descNode_range He'%descFrag_range. unfold before. lia.
Qed.

Lemma descendants_sorted d : StronglySorted before (descendants d).
Proof. apply descFrag_sorted. Qed.

(** Positions identify entries. *)
Lemma unique_by_position (l : list (nat * Node)) q m m' :
  NoDup l.*1 → (q, m) ∈ l → (q, m') ∈ l → m = m'.
Proof.
  intros HN [i Hi]%list_elem_of_lookup [j Hj]%list_elem_of_lookup.
  assert (i = j) as ->; [| congruence].
  eapply NoDup_lookup; [exact HN | |];
    rewrite list_lookup_fmap; [rewrite Hi | rewrite Hj]; done.
Qed.

Lemma descendants_unique d q m m' :
  (q, m) ∈ descendants d → (q, m') ∈ descendants d → m = m'.
Proof. apply unique_by_position, descendants_NoDup. Qed.

Lemma lookupPos_Some q m l :
  lookupPos q l = Some m → (q, m) ∈ l.
Proof.
  induction l as [| [p n] l IH]; simpl; [done |].
  case_decide; [intros [= <-]; subst; left | right; auto].
Qed.

Lemma lookupPos_elem_of q m l :
  NoDup l.*1 → (q, m) ∈ l → lookupPos q l = Some m.
Proof.
  induction l as [| [p n] l IH]; simpl; [intros _ []%elem_of_nil |].
  rewrite NoDup_cons, elem_of_cons. intros [Hp HN] [[= -> ->] | Hin].
  - by rewrite decide_True.
  - rewrite decide_False; [auto |]. intros ->. apply Hp.
    apply list_elem_of_fmap. by exists (q, m).
Qed.

Lemma nodeAt_elem_of d q m : nodeAt d q = Some m ↔ (q, m) ∈ descendants d.
Proof.
  split; [apply lookupPos_Some | apply lookupPos_elem_of, descendants_NoDup].
Qed.



Lemma foldl_bind_None {A B} (f : A → B → option A) l :
  foldl (λ acc x, a ← acc; f a x) None l = None.
Proof. by induction l. Qed.

Lemma applyWrites_cons w ws tr :
  applyWrites (w :: ws) tr = setNodeMarkup w.1 w.2 tr ≫= applyWrites ws.
Proof.
  unfold applyWrites. simpl. destruct (setNodeMarkup w.1 w.2 tr); simpl; [done |].
  apply foldl_bind_None.
Qed.

Lemma walk_cons {S} (f : S → nat * Node → option S) e l s :
  walk f (e :: l) s = f s e ≫= walk f l.
Proof.
  unfold walk. simpl. destruct (f s e); simpl; [done |]. apply foldl_bind_None.
Qed.

Lemma sameShape_trans e1 e2 e3 : sameShape e1 e2 → sameShape e2 e3 → sameShape e1 e3.
Proof. intros (? & ? & ? & ?) (? & ? & ? & ?). repeat split; congruence. Qed.

Lemma applyWrites_inv ws : ∀ tr tr',
  applyWrites ws tr = Some tr' →
  selection tr' = selection tr ∧ mapping tr' = mapping tr
  ∧ fixTablesMeta tr' = fixTablesMeta tr
  ∧ Forall2 (written ws) (descendants (doc tr)) (descendants (doc tr')).
Proof.
  induction ws as [| [q a] ws IH]; intros tr tr'.
  - intros [= <-]. split_and!; try done.
    apply Forall2_same_length_lookup_2; [done |]. intros i e e' ? ?. simplify_eq.
    split; [apply sameShape_refl | done].
  - rewrite applyWrites_cons. simpl.
    destruct (setNodeMarkup q a tr) as [tr1 |] eqn:H1; [| done]. simpl. intros H2.
    apply setNodeMarkup_spec in H1 as (Hs1 & Hm1 & Hf1 & HF1).
    apply IH in H2 as (Hs2 & Hm2 & Hf2 & HF2).
    split_and!; try congruence.
    eapply Forall2_trans; [| exact HF1 | exact HF2].
    intros e1 e2 e3 [Hsh1 Ha1] [Hsh2 Ha2]. split; [by eapply sameShape_trans |].
    rewrite Ha2. destruct Hsh1 as [-> _]. simpl.
    destruct (lastWrite ws e1.1); simpl; [done |]. rewrite Ha1.
    repeat case_decide; simplify_eq; done.
Qed.

Lemma applyWrites_is_Some ws : ∀ tr,
  (∀ w, w ∈ ws → ∃ m, (w.1, m) ∈ descendants (doc tr) ∧ isText m = false) →
  is_Some (applyWrites ws tr).
Proof.
  induction ws as [| [q a] ws IH]; intros tr Hws; [by eexists |].
  rewrite applyWrites_cons. simpl.
  destruct (Hws (q, a)) as (m & Hm & Htxt); [left |].
  destruct (setNodeMarkup_is_Some q a m tr Hm Htxt) as [tr1 H1]. rewrite H1. simpl.
  apply IH. intros w Hw. destruct (Hws w) as (m' & Hm' & Htxt'); [by right |].
  apply setNodeMarkup_spec in H1 as (_ & _ & _ & HF).
  apply list_elem_of_lookup in Hm' as [i Hi].
  destruct (Forall2_lookup_l _ _ _ _ _ HF Hi) as ([p n] & Hn & [(Hp & _ & _ & Ht) _]).
  simpl in *. subst p. exists n. split; [by eapply list_elem_of_lookup_2 | congruence].
Qed.

Lemma walk_default cs key value l : ∀ sc tr,
  snd <$> walk (defaultVisit cs key value) l (sc, tr)
  = applyWrites (defaultWrites cs key value sc l) tr.
Proof.
  induction l as [| [pos node] l IH]; intros sc tr; [done |].
  rewrite walk_cons. simpl. unfold defaultWrite. simpl.
  destruct (inScope pos _ && isCell node && negb (highlighted node)); simpl.
  - rewrite applyWrites_cons. simpl.
    destruct (setNodeMarkup pos _ tr) as [tr1 |]; simpl; [apply IH | done].
  - apply IH.
Qed.

Lemma lastWrite_app ws1 ws2 q :
  lastWrite (ws1 ++ ws2) q
  = match lastWrite ws2 q with Some a => Some a | None => lastWrite ws1 q end.
Proof.
  induction ws1 as [| [p a] ws1 IH]; simpl; [by destruct (lastWrite ws2 q) |].
  rewrite IH. by destruct (lastWrite ws2 q).
Qed.

Lemma lastWrite_None ws q : q ∉ ws.*1 → lastWrite ws q = None.
Proof.
  induction ws as [| [p a] ws IH]; simpl; [done |].
  rewrite not_elem_of_cons. intros [Hne Hq]. rewrite IH by done.
  by rewrite decide_False.
Qed.

Lemma lastWrite_Some ws q a : lastWrite ws q = Some a → (q, a) ∈ ws.
Proof.
  induction ws as [| [p b] ws IH]; simpl; [done |].
  destruct (lastWrite ws q) as [a' |].
  - intros [= ->]. right. auto.
  - case_decide; [intros [= ->]; subst; left | done].
Qed.

Lemma defaultWrites_app cs key value l1 l2 : ∀ sc,
  defaultWrites cs key value sc (l1 ++ l2)
  = defaultWrites cs key value sc l1
    ++ defaultWrites cs key value (scanScope cs sc l1) l2.
Proof.
  induction l1 as [| e l1 IH]; intros sc; simpl; [done |].
  by rewrite IH, (assoc_L (++)).
Qed.

Lemma defaultWrites_elem_of cs key value l : ∀ sc w,
  w ∈ defaultWrites cs key value sc l →
  ∃ m, (w.1, m) ∈ l ∧ isCell m = true ∧ highlighted m = false
       ∧ w.2 = <[key := value]> (attrsOf m).
Proof.
  induction l as [| [pos node] l IH]; intros sc w; simpl; [intros []%elem_of_nil |].
  rewrite elem_of_app. intros [Hw | Hw].
  - unfold defaultWrite in Hw. simpl in Hw.
    destruct (inScope pos _); simpl in Hw; [| by apply elem_of_nil in Hw].
    destruct (isCell node) eqn:Hc; simpl in Hw; [| by apply elem_of_nil in Hw].
    destruct (highlighted node) eqn:Hh; simpl in Hw; [by apply elem_of_nil in Hw |].
    apply list_elem_of_singleton in Hw as ->. exists node. split_and!; try done. left.
  - apply IH in Hw as (m & Hm & ?). exists m. split; [by right | done].
Qed.

(** What the default walk writes at one entry depends on the scope the
    entries in front of it leave behind. *)
Lemma default_lastWrite cs key value sc l1 q m l2 :
  StronglySorted before (l1 ++ (q, m) :: l2) →
  lastWrite (defaultWrites cs key value sc (l1 ++ (q, m) :: l2)) q
  = if inScope q (enterTable cs q m (scanScope cs sc l1))
       && isCell m && negb (highlighted m)
    then Some (<[key := value]> (attrsOf m)) else None.
Proof.
  intros Hs. rewrite defaultWrites_app. simpl.
  rewrite !lastWrite_app.
  apply StronglySorted_app in Hs as (H12 & _ & [Hq _]%StronglySorted_cons).
  rewrite (lastWrite_None (defaultWrites _ _ _ _ l2)).
  2:{ intros [w [Hw1 Hw]]%list_elem_of_fmap.
      apply defaultWrites_elem_of in Hw as (m' & Hm' & _).
      rewrite Forall_forall in Hq. apply Hq in Hm'. unfold before in Hm'. simpl in *. lia. }
  rewrite (lastWrite_None (defaultWrites _ _ _ _ l1)).
  2:{ intros [w [Hw1 Hw]]%list_elem_of_fmap.
      apply defaultWrites_elem_of in Hw as (m' & Hm' & _).
      specialize (H12 _ (q, m) Hm'). unfold before in H12. simpl in *.
      specialize (H12 ltac:(left)). lia. }
  unfold defaultWrite. simpl.
  destruct (inScope q _ && isCell m && negb (highlighted m)); simpl; [| done].
  by rewrite decide_True.
Qed.



Lemma findParent_Some sel ty d p n :
  findParentNodeOfType sel ty d = Some (p, n) →
  (p, n) ∈ descendants d ∧ typeName n = ty ∧ isText n = false
  ∧ p < from sel < p + nodeSize n.
Proof.
  unfold findParentNodeOfType. intros H%last_Some_elem_of.
  apply list_elem_of_In, filter_In in H as [Hin Hb]. apply list_elem_of_In in Hin.
  unfold encloses in Hb. simpl in Hb.
  apply andb_prop in Hb as [Hb Hty]. apply andb_prop in Hb as [Hb H2].
  apply andb_prop in Hb as [Ht H1].
  apply String.eqb_eq in Hty. apply Nat.ltb_lt in H1, H2.
  apply negb_true_iff in Ht. done.
Qed.

Lemma findParent_None sel ty d :
  findParentNodeOfType sel ty d = None →
  ∀ p n, (p, n) ∈ descendants d → typeName n = ty → isText n = false →
         ¬ (p < from sel < p + nodeSize n).
Proof.
  unfold findParentNodeOfType. intros H p n Hin Hty Ht [H1 H2].
  apply last_None in H.
  assert ((p, n) ∈ List.filter (λ e, encloses (from sel) e && String.eqb (typeName e.2) ty)
            (descendants d)) as Hf.
  { apply list_elem_of_In, filter_In. split; [by apply list_elem_of_In |].
    unfold encloses. simpl. rewrite Ht. simpl.
    apply andb_true_intro. split; [| by apply String.eqb_eq].
    apply andb_true_intro. split; by apply Nat.ltb_lt. }
  rewrite H in Hf. by apply elem_of_nil in Hf.
Qed.

Lemma isCell_not_text m : isCell m = true → isText m = false.
Proof. by destruct m. Qed.

Lemma isCell_not_table m : isCell m = true → isTable m = false.
Proof.
  unfold isCell, isTable. destruct (typeName m =? "table")%string eqn:E; [| done].
  apply String.eqb_eq in E. by rewrite E.
Qed.

Lemma enterTable_shape cs e e' sc :
  sameShape e e' → enterTable cs e'.1 e'.2 sc = enterTable cs e.1 e.2 sc.
Proof.
  intros (Hp & Hty & Hsz & _). unfold enterTable, isTable. by rewrite Hp, Hty, Hsz.
Qed.

(** Rewriting a node that is not a cell does not change what the default
    walk writes. *)
Lemma defaultWrites_rewritten cs key value p a l l' :
  Forall2 (rewritten p a) l l' →
  (∀ m, (p, m) ∈ l → isCell m = false) →
  ∀ sc, defaultWrites cs key value sc l' = defaultWrites cs key value sc l.
Proof.
  induction 1 as [| e e' l l' [Hsh Ha] _ IH]; intros Hp sc; [done |].
  simpl. rewrite (enterTable_shape _ _ _ _ Hsh).
  rewrite IH by (intros m Hm; apply Hp; by right). f_equal.
  unfold defaultWrite, isCell, highlighted.
  destruct Hsh as (Hpos & Hty & _). rewrite Hpos, Hty.
  case_decide as Hq; [| by rewrite Ha].
  assert (isCell e.2 = false) as Hc.
  { apply Hp. destruct e; simpl in *; subst. left. }
  unfold isCell in Hc. rewrite Hc. by rewrite !andb_false_r.
Qed.

Lemma Forall2_sameShape_elem_of (R : nat * Node → nat * Node → Prop) l l' q m :
  (∀ e e', R e e' → sameShape e e') →
  Forall2 R l l' → (q, m) ∈ l →
  ∃ m', (q, m') ∈ l' ∧ R (q, m) (q, m').
Proof.
  intros HR HF [i Hi]%list_elem_of_lookup.
  destruct (Forall2_lookup_l _ _ _ _ _ HF Hi) as ([p n] & Hn & Hrel).
  pose proof (HR _ _ Hrel) as (Hp & _). simpl in Hp. subst p.
  exists n. split; [by eapply list_elem_of_lookup_2 | done].
Qed.

(** With an enclosing table the default commands return [true], and the
    dispatched document is the old one with the table's attribute and the
    walk's writes applied. *)
Lemma setTableDefault_spec key value tr fpos fnode :
  findParentNodeOfType (selection tr) "table" (doc tr) = Some (fpos, fnode) →
  ∃ tr', setTableDefault key tr value = Returns true (Some tr')
    ∧ selection tr' = selection tr ∧ mapping tr' = mapping tr
    ∧ Forall2 (written (tableWrites key value (selection tr) fpos fnode (doc tr)))
        (descendants (doc tr)) (descendants (doc tr')).
Proof.
  intros Hf. pose proof (findParent_Some _ _ _ _ _ Hf) as (Hin & Hty & Htxt & _).
  unfold setTableDefault. rewrite Hf.
  destruct (setNodeMarkup_is_Some fpos (<[key := value]> (attrsOf fnode)) _ _ Hin Htxt)
    as [tr1 H1].
  rewrite H1. simpl.
  pose proof (setNodeMarkup_spec _ _ _ _ H1) as (Hs1 & _ & _ & HF1).
  assert (∀ m, (fpos, m) ∈ descendants (doc tr) → isCell m = false) as Hnc.
  { intros m Hm. rewrite (descendants_unique _ _ _ _ Hm Hin).
    unfold isCell. by rewrite Hty. }
  set (W := defaultWrites (from (selection tr)) key value noScope (descendants (doc tr))).
  assert (is_Some (applyWrites W tr1)) as [tr' H2].
  { apply applyWrites_is_Some. intros w Hw.
    apply defaultWrites_elem_of in Hw as (m & Hm & Hc & _).
    destruct (Forall2_sameShape_elem_of _ _ _ _ _ (λ _ _ H, proj1 H) HF1 Hm)
      as (m' & Hm' & (_ & _ & _ & Ht) & _).
    exists m'. split; [done |]. simpl in Ht. rewrite Ht. by apply isCell_not_text. }
  pose proof (walk_default (from (selection tr)) key value (descendants (doc tr1))
                noScope tr1) as Hw.
  rewrite (defaultWrites_rewritten _ _ _ _ _ _ _ HF1 Hnc) in Hw. fold W in Hw.
  rewrite H2 in Hw.
  destruct (walk _ _ _) as [[sc t] |]; simpl in Hw; [| done]. simplify_eq.
  exists tr'. simpl.
  assert (applyWrites (tableWrites key value (selection tr) fpos fnode (doc tr)) tr
          = Some tr') as Hall.
  { unfold tableWrites. rewrite applyWrites_cons. simpl. rewrite H1. done. }
  apply applyWrites_inv in Hall as (? & ? & ? & ?). done.
Qed.

(** Without an enclosing table the unchecked [found] makes them raise. *)
Lemma setTableDefault_throws key value tr :
  findParentNodeOfType (selection tr) "table" (doc tr) = None →
  setTableDefault key tr value = Throws.
Proof. unfold setTableDefault. by intros ->. Qed.

Lemma scanScope_app cs sc l1 l2 :
  scanScope cs sc (l1 ++ l2) = scanScope cs (scanScope cs sc l1) l2.
Proof. apply foldl_app. Qed.

Lemma scanScope_no_table cs l : ∀ sc,
  (∀ e, e ∈ l → isTable e.2 = false) → scanScope cs sc l = sc.
Proof.
  induction l as [| e l IH]; intros sc H; [done |]. simpl.
  replace (enterTable cs e.1 e.2 sc) with sc
    by (unfold enterTable; by rewrite (H e) by left).
  apply IH. intros e' He'. apply H. by right.
Qed.

(** In front of an entry inside table [n], whose span holds the selection
    and no other table, the scope is that of [n]. *)
Lemma scope_in_table cs l1 q m l2 p n :
  StronglySorted before (l1 ++ (q, m) :: l2) →
  (p, n) ∈ l1 ++ (q, m) :: l2 →
  isTable n = true → p < cs < p + nodeSize n → p < q < p + nodeSize n →
  noTableInside (l1 ++ (q, m) :: l2) p n →
  scanScope cs noScope l1 = {| last := Some (p + nodeSize n); curTable := true |}.
Proof.
  intros Hs Hin Ht Hcs Hq Hno.
  pose proof Hs as (H12 & Hs1 & [Hq2 _]%StronglySorted_cons)%StronglySorted_app.
  rewrite Forall_forall in Hq2.
  assert ((p, n) ∈ l1) as Hin1.
  { apply elem_of_app in Hin as [? | [[= -> ->] | Hin]%elem_of_cons]; [done | lia |].
    apply Hq2 in Hin. unfold before in Hin. simpl in Hin. lia. }
  apply list_elem_of_split in Hin1 as (la & lb & ->).
  rewrite scanScope_app. simpl.
  apply StronglySorted_app in Hs1 as (_ & _ & [Hb _]%StronglySorted_cons).
  rewrite Forall_forall in Hb.
  rewrite scanScope_no_table.
  - unfold enterTable. rewrite Ht. simpl.
    destruct (Nat.ltb_spec p cs); [| lia]. simpl.
    destruct (Nat.ltb_spec cs (p + nodeSize n)); [| lia]. by rewrite orb_true_r.
  - intros e He. destruct (isTable e.2) eqn:Hte; [| done]. exfalso.
    apply (Hno e); [| done |].
    + apply elem_of_app. left. apply elem_of_app. right. by right.
    + pose proof (Hb _ He) as H1. unfold before in H1. simpl in H1.
      assert (before e (q, m)) as H2.
      { apply H12; [| left]. apply elem_of_app. right. by right. }
      unfold before in H2. simpl in H2. lia.
Qed.

(** A cell of the enclosing table that is not highlighted is written. *)
Lemma tableWrites_cell key value sel fpos fnode d q m :
  (fpos, fnode) ∈ descendants d → isTable fnode = true →
  fpos < from sel < fpos + nodeSize fnode →
  noTableInside (descendants d) fpos fnode →
  (q, m) ∈ descendants d → fpos < q < fpos + nodeSize fnode →
  isCell m = true → highlighted m = false →
  lastWrite (tableWrites key value sel fpos fnode d) q
  = Some (<[key := value]> (attrsOf m)).
Proof.
  intros Hf Ht Hsel Hno Hq Hin Hc Hh. unfold tableWrites. simpl.
  pose proof (descendants_sorted d) as Hs.
  apply list_elem_of_split in Hq as (l1 & l2 & Hd). rewrite Hd in *.
  rewrite default_lastWrite by done.
  rewrite (scope_in_table _ _ _ _ _ _ _ Hs Hf Ht Hsel Hin Hno).
  unfold enterTable. rewrite (isCell_not_table _ Hc). simpl.
  unfold inScope. simpl. destruct (Nat.leb_spec q (fpos + nodeSize fnode)); [| lia].
  by rewrite Hc, Hh.
Qed.

(** Nothing but the table itself and cells without highlight is written. *)
Lemma tableWrites_exempt key value sel fpos fnode d q m :
  (q, m) ∈ descendants d → q ≠ fpos →
  isCell m = false ∨ highlighted m = true →
  lastWrite (tableWrites key value sel fpos fnode d) q = None.
Proof.
  intros Hq Hne Hm. unfold tableWrites. simpl.
  destruct (lastWrite _ q) as [a |] eqn:Hl; [| by rewrite decide_False].
  apply lastWrite_Some, defaultWrites_elem_of in Hl as (m' & Hm' & Hc & Hh & _).
  simpl in Hm'. rewrite (descendants_unique _ _ _ _ Hm' Hq) in *.
  destruct Hm; congruence.
Qed.

Lemma forEachCell_cons f d0 pos cells tr :
  forEachCell f d0 (pos :: cells) tr
  = (cellNode ← nodeAt d0 pos; f cellNode pos tr) ≫= forEachCell f d0 cells.
Proof.
  unfold forEachCell. simpl.
  destruct (nodeAt d0 pos ≫= _) as [t |]; simpl; [done |].
  induction cells; simpl; auto.
Qed.

(** [forEachCell] with a [setNodeMarkup] callback is a queue of writes
    computed from the selection's document. *)
Lemma forEachCell_writes g d0 cells : ∀ tr tr',
  forEachCell (λ cellNode pos t, setNodeMarkup pos (g (attrsOf cellNode)) t) d0 cells tr
  = Some tr' →
  ∃ ws, cellWrites g d0 cells = Some ws ∧ applyWrites ws tr = Some tr'.
Proof.
  induction cells as [| pos cells IH]; intros tr tr'.
  - intros [= <-]. by exists [].
  - rewrite forEachCell_cons. destruct (nodeAt d0 pos) as [n |] eqn:Hn; [| done]. simpl.
    destruct (setNodeMarkup pos _ tr) as [tr1 |] eqn:H1; [| done]. simpl.
    intros (ws & Hws & Happ)%IH. exists ((pos, g (attrsOf n)) :: ws). split.
    + unfold cellWrites in *. simpl. rewrite Hn. simpl. by rewrite Hws.
    + rewrite applyWrites_cons. simpl. by rewrite H1.
Qed.

Lemma cellWrites_cons g d0 pos cells ws :
  cellWrites g d0 (pos :: cells) = Some ws →
  ∃ n ws', nodeAt d0 pos = Some n ∧ cellWrites g d0 cells = Some ws'
           ∧ ws = (pos, g (attrsOf n)) :: ws'.
Proof.
  unfold cellWrites. simpl. destruct (nodeAt d0 pos) as [n |]; [| done]. simpl.
  destruct (mapM _ cells) as [ws' |]; [| done]. simpl. intros [= <-]. by exists n, ws'.
Qed.

Lemma cellWrites_fst g d0 cells : ∀ ws,
  cellWrites g d0 cells = Some ws → ws.*1 = cells.
Proof.
  induction cells as [| pos cells IH]; intros ws.
  - by intros [= <-].
  - intros (n & ws' & _ & Hws' & ->)%cellWrites_cons. simpl. f_equal. by apply IH.
Qed.

Lemma cellWrites_lastWrite_in g d0 cells : ∀ ws q n,
  cellWrites g d0 cells = Some ws → q ∈ cells → nodeAt d0 q = Some n →
  lastWrite ws q = Some (g (attrsOf n)).
Proof.
  induction cells as [| pos cells IH]; intros ws q n; [by intros _ []%elem_of_nil |].
  intros (m & ws' & Hm & Hws' & ->)%cellWrites_cons Hq Hn. simpl.
  destruct (decide (q ∈ cells)) as [Hin | Hnin].
  - by rewrite (IH ws' q n Hws' Hin Hn).
  - apply elem_of_cons in Hq as [-> | ?]; [| done].
    rewrite lastWrite_None by (by rewrite (cellWrites_fst _ _ _ _ Hws')).
    rewrite decide_True by done. congruence.
Qed.

Lemma cellWrites_lastWrite_out g d0 cells ws q :
  cellWrites g d0 cells = Some ws → q ∉ cells → lastWrite ws q = None.
Proof.
  intros Hws Hq. apply lastWrite_None. by rewrite (cellWrites_fst _ _ _ _ Hws).
Qed.

Lemma highlightSelection_perCell b bc tr :
  highlightSelection b bc tr = perCell (highlightMark b bc) (highlightMark b bc) tr.
Proof. reflexivity. Qed.

Lemma setTableCellBackground_perCell bg tr :
  setTableCellBackground bg tr = perCell (backgroundMark bg) (backgroundMark bg) tr.
Proof. reflexivity. Qed.

Lemma removeHighlightSelection_perCell tr :
  removeHighlightSelection tr
  = perCell (λ a, <["highlight" := VBool false]>
                    (<["borderColor" := VNull]> (<["border" := VNull]> a)))
            (λ a, <["highlight" := VBool false]> a) tr.
Proof. reflexivity. Qed.

Lemma written_nodeAt ws d d' q c :
  Forall2 (written ws) (descendants d) (descendants d') →
  nodeAt d q = Some c →
  ∃ c', nodeAt d' q = Some c' ∧ typeName c' = typeName c
        ∧ nodeSize c' = nodeSize c
        ∧ attrsOf c' = default (attrsOf c) (lastWrite ws q).
Proof.
  intros HF Hc%nodeAt_elem_of.
  destruct (Forall2_sameShape_elem_of _ _ _ _ _ (λ _ _ H, proj1 H) HF Hc)
    as (c' & Hc' & (_ & Hty & Hsz & _) & Ha).
  exists c'. by rewrite nodeAt_elem_of.
Qed.

(** A per-cell command that returns [true] rewrote exactly its target
    cells, each from its attributes in the document it started on. *)
Lemma perCell_spec gR gS tr tr1 :
  perCell gR gS tr = Returns true (Some tr1) →
  ∃ ws, Forall2 (written ws) (descendants (doc tr)) (descendants (doc tr1))
    ∧ (∀ q c, q ∈ targetCells (selection tr) (doc tr) → nodeAt (doc tr) q = Some c →
         lastWrite ws q = Some (perCellAttrs gR gS (selection tr) (attrsOf c)))
    ∧ (∀ q, q ∉ targetCells (selection tr) (doc tr) → lastWrite ws q = None).
Proof.
  unfold perCell, targetCells, perCellAttrs.
  destruct (cellRange (selection tr)) as [cells |].
  - destruct (forEachCell _ _ _ _) as [tr' |] eqn:Hf; [| done]. intros [= <-].
    apply forEachCell_writes in Hf as (ws & Hws & Happ).
    apply applyWrites_inv in Happ as (_ & _ & _ & HF). exists ws. split_and!; [done | |].
    + intros q c Hq Hc. by eapply cellWrites_lastWrite_in.
    + intros q Hq. by eapply cellWrites_lastWrite_out.
  - destruct (findParentNodeOfType _ _ _) as [[pos node] |] eqn:Hf; [| done].
    destruct (setNodeMarkup _ _ _) as [tr' |] eqn:Hs; [| done]. intros [= <-].
    exists [(pos, gS (attrsOf node))]. split_and!.
    + change (applyWrites [(pos, gS (attrsOf node))] tr = Some tr') in Hs.
      by apply applyWrites_inv in Hs as (_ & _ & _ & HF).
    + intros q c ->%list_elem_of_singleton Hc. simpl. rewrite decide_True by done.
      apply findParent_Some in Hf as (Hin%nodeAt_elem_of & _). congruence.
    + intros q [Hq _]%not_elem_of_cons. simpl. by rewrite decide_False.
Qed.

Lemma defaultCommands_setTableDefault key cmd :
  (key, cmd) ∈ defaultCommands →
  ∀ v tr, cmd v tr = setTableDefault key tr v.
Proof.
  unfold defaultCommands. rewrite !elem_of_cons, elem_of_nil.
  intros [[= -> ->] | [[= -> ->] | [[= -> ->] | []]]]; reflexivity.
Qed.

Lemma forEachCell_applyWrites g d0 cells : ∀ ws tr,
  cellWrites g d0 cells = Some ws →
  forEachCell (λ cellNode pos t, setNodeMarkup pos (g (attrsOf cellNode)) t) d0 cells tr
  = applyWrites ws tr.
Proof.
  induction cells as [| pos cells IH]; intros ws tr.
  - by intros [= <-].
  - intros (n & ws' & Hn & Hws' & ->)%cellWrites_cons.
    rewrite forEachCell_cons, applyWrites_cons, Hn. simpl.
    destruct (setNodeMarkup pos _ tr) as [tr1 |]; simpl; [by apply IH | done].
Qed.

Lemma cellWrites_is_Some g d0 cells :
  (∀ q, q ∈ cells → is_Some (nodeAt d0 q)) → is_Some (cellWrites g d0 cells).
Proof.
  induction cells as [| pos cells IH]; intros H; [by eexists |].
  destruct (H pos) as [n Hn]; [left |].
  destruct IH as [ws Hws]; [intros q Hq; apply H; by right |].
  exists ((pos, g (attrsOf n)) :: ws). unfold cellWrites in *. simpl.
  rewrite Hn. simpl. by rewrite Hws.
Qed.

(** A per-cell command returns [true] when it has a target and every
    target position holds an element of the document. *)
Lemma perCell_returns gR gS tr :
  is_Some (cellRange (selection tr)) ∨ targetCells (selection tr) (doc tr) ≠ [] →
  (∀ q, q ∈ targetCells (selection tr) (doc tr) →
        ∃ c, nodeAt (doc tr) q = Some c ∧ isText c = false) →
  ∃ tr1, perCell gR gS tr = Returns true (Some tr1).
Proof.
  unfold perCell, targetCells. intros Hsome Hwf.
  destruct (cellRange (selection tr)) as [cells |].
  - destruct (cellWrites_is_Some gR (doc tr) cells) as [ws Hws].
    { intros q Hq. destruct (Hwf q Hq) as (c & -> & _). by eexists. }
    rewrite (forEachCell_applyWrites _ _ _ _ _ Hws).
    destruct (applyWrites_is_Some ws tr) as [tr1 ->]; [| by eexists].
    intros [q a] Hw. simpl.
    assert (q ∈ cells) as Hq.
    { rewrite <- (cellWrites_fst _ _ _ _ Hws). apply list_elem_of_fmap. by exists (q, a). }
    destruct (Hwf q Hq) as (c & Hc & Ht). exists c. by rewrite <- nodeAt_elem_of.
  - destruct (findParentNodeOfType _ _ _) as [[pos node] |] eqn:Hf.
    + apply findParent_Some in Hf as (Hin & _ & Ht & _).
      destruct (setNodeMarkup_is_Some pos (gS (attrsOf node)) node tr Hin Ht) as [tr1 ->].
      by eexists.
    + destruct Hsome as [[? [=]] | []]. done.
Qed.

Lemma walk_alternate cs l : ∀ sc count tr,
  snd <$> walk (alternateVisit cs) l (sc, count, tr)
  = applyWrites (alternateWrites cs (sc, count) l) tr.
Proof.
  induction l as [| [pos node] l IH]; intros sc count tr; [done |].
  rewrite walk_cons. simpl. unfold altWrite, altStep. simpl.
  destruct (isTable node && (pos <? cs) && (cs <? pos + nodeSize node) && alternateOff node);
    simpl.
  - rewrite applyWrites_cons. simpl.
    destruct (setNodeMarkup pos _ tr) as [tr1 |]; simpl; [| done].
    destruct (inScope pos _); simpl; [| apply IH].
    destruct (isCell node && negb (highlighted node)); simpl.
    + rewrite applyWrites_cons. simpl.
      destruct (setNodeMarkup pos _ tr1) as [tr2 |]; simpl; [apply IH | done].
    + apply IH.
  - destruct (inScope pos _); simpl; [| apply IH].
    destruct (isCell node && negb (highlighted node)); simpl.
    + rewrite applyWrites_cons. simpl.
      destruct (setNodeMarkup pos _ tr) as [tr2 |]; simpl; [apply IH | done].
    + apply IH.
Qed.

Lemma alternateWrites_app cs l1 l2 : ∀ st,
  alternateWrites cs st (l1 ++ l2)
  = alternateWrites cs st l1 ++ alternateWrites cs (scanAlt cs st l1) l2.
Proof.
  induction l1 as [| e l1 IH]; intros st; simpl; [done |].
  by rewrite IH, (assoc_L (++)).
Qed.

Lemma altWrite_elem_of cs st e w :
  w ∈ altWrite cs st e →
  w.1 = e.1
  ∧ ((isTable e.2 = true ∧ e.1 < cs < e.1 + nodeSize e.2)
     ∨ (isCell e.2 = true ∧ highlighted e.2 = false ∧ inScope e.1 st.1 = true
        ∧ w.2 = <["background" := if negb (st.2 mod 2 =? 0) then bandingColor else noColor]>
                  (attrsOf e.2))).
Proof.
  unfold altWrite. rewrite elem_of_app. intros [Hw | Hw].
  - destruct (isTable e.2) eqn:Ht; simpl in Hw; [| by apply elem_of_nil in Hw].
    destruct (Nat.ltb_spec e.1 cs); simpl in Hw; [| by apply elem_of_nil in Hw].
    destruct (Nat.ltb_spec cs (e.1 + nodeSize e.2)); simpl in Hw;
      [| by apply elem_of_nil in Hw].
    destruct (alternateOff e.2); [| by apply elem_of_nil in Hw].
    apply list_elem_of_singleton in Hw as ->. simpl. split; [done |]. left. done.
  - destruct (inScope e.1 st.1) eqn:Hs; simpl in Hw; [| by apply elem_of_nil in Hw].
    destruct (isCell e.2) eqn:Hc; simpl in Hw; [| by apply elem_of_nil in Hw].
    destruct (highlighted e.2) eqn:Hh; simpl in Hw; [by apply elem_of_nil in Hw |].
    apply list_elem_of_singleton in Hw as ->. simpl. split; [done |]. right. done.
Qed.

Lemma alternateWrites_elem_of cs l : ∀ st w,
  w ∈ alternateWrites cs st l →
  ∃ m, (w.1, m) ∈ l
    ∧ ((isTable m = true ∧ w.1 < cs < w.1 + nodeSize m)
       ∨ (isCell m = true ∧ highlighted m = false)).
Proof.
  induction l as [| [pos node] l IH]; intros st w; simpl; [intros []%elem_of_nil |].
  rewrite elem_of_app. intros [Hw | Hw].
  - apply altWrite_elem_of in Hw as [Hp Hw]. simpl in *. exists node. rewrite Hp.
    split; [left |]. destruct Hw as [? | (? & ? & _)]; [by left | by right].
  - apply IH in Hw as (m & Hm & ?). exists m. split; [by right | done].
Qed.

Lemma altStep_shape cs st e e' :
  sameShape e e' → altStep cs st e' = altStep cs st e.
Proof.
  intros Hsh. unfold altStep. rewrite (enterTable_shape _ _ _ _ Hsh).
  destruct Hsh as (Hp & Hty & _). unfold isRow. by rewrite Hp, Hty.
Qed.

(** What the alternation walk writes depends on positions, types, sizes
    and attributes only. *)
Lemma alternateWrites_sameEntry cs l l' :
  Forall2 sameEntry l l' →
  ∀ st, alternateWrites cs st l' = alternateWrites cs st l.
Proof.
  induction 1 as [| e e' l l' [Hsh Ha] _ IH]; intros st; [done |].
  simpl. rewrite (altStep_shape _ _ _ _ Hsh), IH. f_equal.
  destruct Hsh as (Hp & Hty & Hsz & _).
  unfold altWrite, isTable, isCell, alternateOff, highlighted.
  by rewrite Hp, Hty, Hsz, Ha.
Qed.

Lemma isTable_not_text m : isTable m = true → isText m = false.
Proof. by destruct m. Qed.

(** With an enclosing table [alternateColor] returns [true], and the
    dispatched document is the old one with the walk's writes applied. *)
Lemma alternateColor_spec tr fpos fnode :
  findParentNodeOfType (selection tr) "table" (doc tr) = Some (fpos, fnode) →
  ∃ tr', alternateColor tr = Returns true (Some tr')
    ∧ selection tr' = selection tr
    ∧ Forall2 (written (alternateQueue (selection tr) fpos fnode (doc tr)))
        (descendants (doc tr)) (descendants (doc tr')).
Proof.
  intros Hf. pose proof (findParent_Some _ _ _ _ _ Hf) as (Hin & Hty & Htxt & _).
  unfold alternateColor. rewrite Hf.
  destruct (setNodeMarkup_is_Some fpos (attrsOf fnode) _ _ Hin Htxt) as [tr1 H1].
  rewrite H1. simpl.
  pose proof (setNodeMarkup_spec _ _ _ _ H1) as (Hs1 & _ & _ & HF1).
  assert (Forall2 sameEntry (descendants (doc tr)) (descendants (doc tr1))) as HE.
  { apply Forall2_same_length_lookup_2; [by eapply Forall2_length |].
    intros i [p n] e' He He'.
    destruct (Forall2_lookup_lr _ _ _ _ _ _ HF1 He He') as [Hsh Ha].
    split; [done |]. rewrite Ha. simpl. destruct (decide (p = fpos)) as [-> |]; [| done].
    f_equal.
    eapply descendants_unique; [exact Hin |]. by eapply list_elem_of_lookup_2. }
  set (W := alternateWrites (from (selection tr)) (noScope, 0) (descendants (doc tr))).
  assert (is_Some (applyWrites W tr1)) as [tr' H2].
  { apply applyWrites_is_Some. intros w Hw.
    apply alternateWrites_elem_of in Hw as (m & Hm & Hkind).
    destruct (Forall2_sameShape_elem_of _ _ _ _ _ (λ _ _ H, proj1 H) HF1 Hm)
      as (m' & Hm' & (_ & _ & _ & Ht) & _).
    exists m'. split; [done |]. simpl in Ht. rewrite Ht.
    destruct Hkind as [[? _] | [? _]];
      [by apply isTable_not_text | by apply isCell_not_text]. }
  pose proof (walk_alternate (from (selection tr)) (descendants (doc tr1)) noScope 0 tr1)
    as Hw.
  rewrite (alternateWrites_sameEntry _ _ _ HE) in Hw. fold W in Hw. rewrite H2 in Hw.
  destruct (walk _ _ _) as [[[sc n] t] |]; simpl in Hw; [| done]. simplify_eq.
  exists tr'. simpl.
  assert (applyWrites (alternateQueue (selection tr) fpos fnode (doc tr)) tr = Some tr')
    as Hall.
  { unfold alternateQueue. rewrite applyWrites_cons. simpl. by rewrite H1. }
  apply applyWrites_inv in Hall as (? & ? & ? & ?). done.
Qed.

(** Highlighted cells are not written by the alternation walk. *)
Lemma alternateQueue_exempt sel fpos fnode d q m :
  (q, m) ∈ descendants d → q ≠ fpos →
  isCell m = true → highlighted m = true →
  lastWrite (alternateQueue sel fpos fnode d) q = None.
Proof.
  intros Hq Hne Hc Hh. unfold alternateQueue. simpl.
  destruct (lastWrite _ q) as [a |] eqn:Hl; [| by rewrite decide_False].
  apply lastWrite_Some, alternateWrites_elem_of in Hl as (m' & Hm' & Hkind).
  simpl in Hm'. rewrite (descendants_unique _ _ _ _ Hm' Hq) in *.
  destruct Hkind as [[Ht _] | [_ ?]]; [| congruence].
  apply isCell_not_table in Hc. congruence.
Qed.

Lemma alternateWrites_fst cs l st q :
  q ∈ (alternateWrites cs st l).*1 → q ∈ l.*1.
Proof.
  intros [w [-> Hw]]%list_elem_of_fmap.
  apply alternateWrites_elem_of in Hw as (m & Hm & _).
  apply list_elem_of_fmap. by exists (w.1, m).
Qed.

Lemma scanAlt_app cs st l1 l2 :
  scanAlt cs st (l1 ++ l2) = scanAlt cs (scanAlt cs st l1) l2.
Proof. apply foldl_app. Qed.

(** What the alternation walk writes at one entry depends on the scope
    and the counter the entries in front of it leave behind. *)
Lemma alternate_lastWrite cs st l1 q m l2 :
  StronglySorted before (l1 ++ (q, m) :: l2) →
  lastWrite (alternateWrites cs st (l1 ++ (q, m) :: l2)) q
  = lastWrite (altWrite cs (altStep cs (scanAlt cs st l1) (q, m)) (q, m)) q.
Proof.
  intros Hs. rewrite alternateWrites_app. simpl. rewrite !lastWrite_app.
  apply StronglySorted_app in Hs as (H12 & _ & [Hq _]%StronglySorted_cons).
  rewrite Forall_forall in Hq.
  rewrite (lastWrite_None (alternateWrites _ _ l2)).
  2:{ intros [e [He Hin]]%alternateWrites_fst%list_elem_of_fmap.
      apply Hq in Hin. unfold before in Hin. simpl in *. lia. }
  rewrite (lastWrite_None (alternateWrites _ _ l1)).
  2:{ intros [e [He Hin]]%alternateWrites_fst%list_elem_of_fmap.
      specialize (H12 e (q, m) Hin ltac:(left)). unfold before in H12. simpl in *. lia. }
  by destruct (lastWrite _ q).
Qed.

Lemma scanAlt_plain cs l : ∀ st,
  (∀ e, e ∈ l → isTable e.2 = false ∧ isRow e.2 = false) → scanAlt cs st l = st.
Proof.
  induction l as [| e l IH]; intros st H; [done |]. simpl.
  replace (altStep cs st e) with st.
  - apply IH. intros e' He'. apply H. by right.
  - destruct (H e) as [Ht Hr]; [left |]. unfold altStep, enterTable.
    rewrite Ht, Hr. simpl. rewrite andb_false_r. by destruct st.
Qed.

(** Outside every table that holds the selection the walk stays idle. *)
Lemma scanAlt_idle cs l : ∀ sc k,
  curTable sc = false →
  (∀ e, e ∈ l → isTable e.2 = true → ¬ (e.1 < cs < e.1 + nodeSize e.2)) →
  (scanAlt cs (sc, k) l).2 = k ∧ curTable (scanAlt cs (sc, k) l).1 = false.
Proof.
  induction l as [| e l IH]; intros sc k Hc H; [done |]. simpl.
  assert (curTable (enterTable cs e.1 e.2 sc) = false) as Hc'.
  { unfold enterTable. destruct (isTable e.2) eqn:Ht; simpl; [| done].
    destruct (Nat.ltb_spec e.1 cs); simpl; [| done]. rewrite Hc. simpl.
    apply Nat.ltb_ge. specialize (H e ltac:(left) Ht). lia. }
  assert (altStep cs (sc, k) e = (enterTable cs e.1 e.2 sc, k)) as ->.
  { unfold altStep. simpl. unfold inScope. rewrite Hc'.
    destruct (last _); simpl; [by rewrite andb_false_r | done]. }
  apply IH; [done |]. intros e' He'. apply H. by right.
Qed.

Lemma isRow_not_table r : isRow r = true → isTable r = false.
Proof.
  unfold isRow, isTable. intros ->%String.eqb_eq. done.
Qed.

Lemma isCell_not_row c : isCell c = true → isRow c = false.
Proof.
  unfold isCell, isRow. destruct (typeName c =? "tableRow")%string eqn:E; [| done].
  apply String.eqb_eq in E. by rewrite E.
Qed.

Lemma descNode_unfold p n :
  descNode p n = (p, n) :: descFrag (S p) (contentOf n).
Proof. by destruct n. Qed.

(** One plain row in scope: the counter goes up by one, and every cell
    of the row without highlight gets the band of the new count. *)
Lemma scan_row cs tableEnd p r k :
  plainRow r → p + nodeSize r ≤ tableEnd →
  scanAlt cs (scopeOf tableEnd, k) (descNode p r) = (scopeOf tableEnd, k + 1)
  ∧ ∀ q c, (q, c) ∈ descNode p r → isCell c = true → highlighted c = false →
      lastWrite (alternateWrites cs (scopeOf tableEnd, k) (descNode p r)) q
      = Some (<["background" := bandOf (k + 1)]> (attrsOf c)).
Proof.
  intros [Hr Hplain] Hend.
  assert (altStep cs (scopeOf tableEnd, k) (p, r) = (scopeOf tableEnd, k + 1)) as Hstep.
  { unfold altStep, enterTable, inScope. simpl. rewrite (isRow_not_table _ Hr), Hr. simpl.
    destruct (Nat.leb_spec p tableEnd); [done |]. pose proof (nodeSize_pos r). lia. }
  rewrite descNode_unfold. split.
  - simpl. rewrite Hstep. apply scanAlt_plain. intros e. apply Hplain.
  - intros q c [[= -> ->] | Hin]%elem_of_cons Hc Hh.
    { apply isCell_not_row in Hc. congruence. }
    pose proof (descNode_sorted r p) as Hs. rewrite descNode_unfold in Hs.
    apply list_elem_of_split in Hin as (l1 & l2 & Hl). rewrite Hl in *.
    rewrite (alternate_lastWrite cs _ ((p, r) :: l1) q c l2 Hs).
    simpl. rewrite Hstep.
    rewrite scanAlt_plain.
    2:{ intros e He. apply (Hplain (S p)). rewrite Hl. apply elem_of_app. by left. }
    assert (q < tableEnd) as Hq.
    { assert ((q, c) ∈ descFrag (S p) (contentOf r)) as Hqin
        by (rewrite Hl; apply elem_of_app; right; left).
      apply descFrag_range in Hqin. simpl in Hqin.
      destruct r; simpl in *; unfold fragSize in *; lia. }
    unfold altStep, altWrite, enterTable, inScope. simpl.
    rewrite (isCell_not_table _ Hc), (isCell_not_row _ Hc). simpl.
    destruct (Nat.leb_spec q tableEnd); [| lia]. simpl.
    rewrite Hc, Hh. simpl. by rewrite decide_True.
Qed.

Lemma fragSize_cons x c : fragSize (x :: c) = nodeSize x + fragSize c.
Proof. reflexivity. Qed.

(** Plain rows in scope, one after the other: row [i] of the list gives
    its cells the band of [k + i + 1]. *)
Lemma scan_rows cs tableEnd rows : ∀ p k,
  Forall plainRow rows → p + fragSize rows ≤ tableEnd →
  scanAlt cs (scopeOf tableEnd, k) (descFrag p rows)
  = (scopeOf tableEnd, k + length rows)
  ∧ ∀ i r q c, rows !! i = Some r →
      (q, c) ∈ descNode (p + fragSize (take i rows)) r →
      isCell c = true → highlighted c = false →
      lastWrite (alternateWrites cs (scopeOf tableEnd, k) (descFrag p rows)) q
      = Some (<["background" := bandOf (k + i + 1)]> (attrsOf c)).
Proof.
  induction rows as [| r0 rows IH]; intros p k Hrows Hend.
  - split; [simpl; f_equal; lia | by intros i r q c [=]].
  - apply Forall_cons in Hrows as [Hr0 Hrows]. rewrite fragSize_cons in Hend.
    destruct (scan_row cs tableEnd p r0 k Hr0 ltac:(lia)) as [Hscan0 Hw0].
    destruct (IH (p + nodeSize r0) (k + 1) Hrows ltac:(lia)) as [Hscan Hw].
    rewrite descFrag_cons. split.
    + rewrite scanAlt_app, Hscan0, Hscan. simpl. f_equal. lia.
    + intros i r q c Hi Hq Hc Hh. rewrite alternateWrites_app, Hscan0, lastWrite_app.
      destruct i as [| i]; simpl in Hi.
      * simplify_eq. change (p + fragSize (take 0 (r :: rows))) with (p + 0) in Hq.
        rewrite Nat.add_0_r in Hq.
        rewrite lastWrite_None.
        2:{ intros [e [He Hin]]%alternateWrites_fst%list_elem_of_fmap.
            apply descFrag_range in Hin. apply descNode_range in Hq. simpl in *. lia. }
        rewrite (Hw0 q c Hq Hc Hh). by rewrite Nat.add_0_r.
      * change (take (S i) (r0 :: rows)) with (r0 :: take i rows) in Hq.
        rewrite fragSize_cons in Hq.
        replace (p + (nodeSize r0 + fragSize (take i rows)))
          with (p + nodeSize r0 + fragSize (take i rows)) in Hq by lia.
        rewrite (Hw i r q c Hi Hq Hc Hh). do 3 f_equal. lia.
Qed.

(** The entries of a subtree are a contiguous run of the traversal. *)
Lemma descNode_subtree m : ∀ s p n,
  (p, n) ∈ descNode s m →
  ∃ pre post, descNode s m = pre ++ descNode p n ++ post.
Proof.
  induction m as [len | t a c IH] using Node_ind'; intros s p n.
  - simpl. intros [= -> ->]%list_elem_of_singleton. by exists [], [].
  - rewrite descNode_Elem, elem_of_cons. intros [[= -> ->] | Hin].
    + exists [], []. by rewrite app_nil_r.
    + cut (∃ pre post, descFrag (S s) c = pre ++ descNode p n ++ post).
      { intros (pre & post & ->). by exists ((s, Elem t a c) :: pre), post. }
      revert Hin. generalize (S s) as s'.
      induction IH as [| x c Hx _ IHc]; intros s'; [intros []%elem_of_nil |].
      rewrite descFrag_cons, elem_of_app. intros [Hin | Hin].
      * destruct (Hx _ _ _ Hin) as (pre & post & ->).
        exists pre, (post ++ descFrag (s' + nodeSize x) c). by rewrite <- !(assoc_L (++)).
      * destruct (IHc _ Hin) as (pre & post & ->).
        exists (descNode s' x ++ pre), post. by rewrite <- !(assoc_L (++)).
Qed.

Lemma descFrag_subtree c : ∀ s p n,
  (p, n) ∈ descFrag s c →
  ∃ pre post, descFrag s c = pre ++ descNode p n ++ post.
Proof.
  induction c as [| x c IHc]; intros s p n; [intros []%elem_of_nil |].
  rewrite descFrag_cons, elem_of_app. intros [Hin | Hin].
  - destruct (descNode_subtree _ _ _ _ Hin) as (pre & post & ->).
    exists pre, (post ++ descFrag (s + nodeSize x) c). by rewrite <- !(assoc_L (++)).
  - destruct (IHc _ _ _ Hin) as (pre & post & ->).
    exists (descNode s x ++ pre), post. by rewrite <- !(assoc_L (++)).
Qed.

Lemma descFrag_lookup rows : ∀ p i r e,
  rows !! i = Some r → e ∈ descNode (p + fragSize (take i rows)) r →
  e ∈ descFrag p rows.
Proof.
  induction rows as [| r0 rows IH]; intros p i r e; [done |].
  rewrite descFrag_cons, elem_of_app. destruct i as [| i]; simpl.
  - intros [= ->]. change (fragSize []) with 0. rewrite Nat.add_0_r. by left.
  - intros Hi He. right. apply (IH _ i r); [done |].
    change (fragSize (r0 :: take i rows)) with (nodeSize r0 + fragSize (take i rows)) in He.
    by replace (p + nodeSize r0 + fragSize (take i rows))
      with (p + (nodeSize r0 + fragSize (take i rows))) by lia.
Qed.

(** A table of plain rows that is the only table around the selection:
    [alternateColor] returns [true] and gives every cell without highlight
    in row [i] (counted from 0) the band of [i + 1]. *)
Lemma alternate_table d sel fpos ta rows :
  findParentNodeOfType sel "table" d = Some (fpos, Elem "table" ta rows) →
  (∀ e, e ∈ descendants d → isTable e.2 = true →
        e.1 < from sel < e.1 + nodeSize e.2 → e.1 = fpos) →
  Forall plainRow rows →
  ∃ tr', alternateColor (startTr d sel) = Returns true (Some tr')
    ∧ ∀ i r q c, rows !! i = Some r →
        (q, c) ∈ descNode (fpos + 1 + fragSize (take i rows)) r →
        isCell c = true → highlighted c = false →
        attrsAt (doc tr') q = Some (<["background" := bandOf (i + 1)]> (attrsOf c)).
Proof.
  intros Hf Hout Hrows. set (tbl := Elem "table" ta rows) in *.
  destruct (alternateColor_spec (startTr d sel) fpos tbl Hf) as (tr' & Hret & _ & HF).
  simpl in HF. exists tr'. split; [done |]. intros i r q c Hi Hq Hc Hh.
  pose proof (findParent_Some _ _ _ _ _ Hf) as (Hin & _ & _ & Hsel).
  destruct (descFrag_subtree _ _ _ _ Hin) as (pre & post & Hd).
  fold (descendants d) in Hd.
  replace (fpos + 1) with (S fpos) in Hq by lia.
  assert ((q, c) ∈ descFrag (S fpos) rows) as Hqr by (by eapply descFrag_lookup).
  assert ((q, c) ∈ descendants d) as Hqd.
  { rewrite Hd. apply elem_of_app. right. apply elem_of_app. left. by right. }
  apply nodeAt_elem_of in Hqd.
  destruct (written_nodeAt _ _ _ _ _ HF Hqd) as (c' & Hc' & _ & _ & Ha).
  unfold attrsAt. rewrite Hc'. simpl. rewrite Ha. clear Ha HF Hret.
  cut (lastWrite (alternateWrites (from sel) (noScope, 0) (descendants d)) q
       = Some (<["background" := bandOf (i + 1)]> (attrsOf c))).
  { unfold alternateQueue. simpl. by intros ->. }
  pose proof (descendants_sorted d) as Hs. rewrite Hd in Hs |- *.
  apply StronglySorted_app in Hs as (Hpre & _ & (Hpost & _ & _)%StronglySorted_app).
  destruct (scanAlt_idle (from sel) pre noScope 0) as [Hk Hcur]; [done | |].
  { intros e He Ht Henc. assert (e.1 = fpos) as Heq.
    { apply Hout; [| done | done]. rewrite Hd. apply elem_of_app. by left. }
    specialize (Hpre e (fpos, tbl) He). unfold before in Hpre. simpl in Hpre.
    rewrite Heq in Hpre. apply (Nat.lt_irrefl fpos), Hpre. left. }
  rewrite alternateWrites_app, (descNode_unfold fpos tbl). simpl.
  rewrite alternateWrites_app.
  assert (altStep (from sel) (scanAlt (from sel) (noScope, 0) pre) (fpos, tbl)
          = (scopeOf (fpos + nodeSize tbl), 0)) as ->.
  { destruct (scanAlt _ _ pre) as [sc k]. simpl in *. subst k.
    unfold altStep, enterTable, inScope, scopeOf. simpl.
    destruct (Nat.ltb_spec fpos (from sel)); [| lia]. simpl.
    destruct (Nat.ltb_spec (from sel) (fpos + S (S (sum_list_with nodeSize rows))));
      [| simpl in Hsel; lia].
    rewrite Hcur. simpl. by rewrite andb_false_r. }
  destruct (scan_rows (from sel) (fpos + nodeSize tbl) rows (S fpos) 0 Hrows)
    as [_ Hw]; [simpl; unfold fragSize; lia |].
  rewrite !lastWrite_app.
  rewrite (lastWrite_None (alternateWrites _ _ post)).
  2:{ intros [e [He Hep]]%alternateWrites_fst%list_elem_of_fmap.
      specialize (Hpost (q, c) e). unfold before in Hpost.
      rewrite (descNode_unfold fpos tbl) in Hpost.
      specialize (Hpost ltac:(by right) Hep). simpl in Hpost. lia. }
  by rewrite (Hw i r q c Hi Hq Hc Hh).
Qed.

Lemma scanScope_idle cs l : ∀ sc,
  curTable sc = false →
  (∀ e, e ∈ l → isTable e.2 = true → ¬ (e.1 < cs < e.1 + nodeSize e.2)) →
  curTable (scanScope cs sc l) = false.
Proof.
  induction l as [| e l IH]; intros sc Hc H; [done |]. simpl. apply IH.
  - unfold enterTable. destruct (isTable e.2) eqn:Ht; simpl; [| done].
    destruct (Nat.ltb_spec e.1 cs); simpl; [| done]. rewrite Hc. simpl.
    apply Nat.ltb_ge. specialize (H e ltac:(left) Ht). lia.
  - intros e' He'. apply H. by right.
Qed.

Lemma scanScope_last_bound cs bound l : ∀ sc,
  (∀ x, last sc = Some x → x ≤ bound) →
  (∀ e, e ∈ l → isTable e.2 = true → e.1 < cs → e.1 + nodeSize e.2 ≤ bound) →
  ∀ x, last (scanScope cs sc l) = Some x → x ≤ bound.
Proof.
  induction l as [| e l IH]; intros sc Hsc H; [done |]. simpl. apply IH.
  - unfold enterTable. destruct (isTable e.2) eqn:Ht; simpl; [| done].
    destruct (Nat.ltb_spec e.1 cs); simpl; [| done].
    intros x [= <-]. apply H; [left | done | done].
  - intros e' He'. apply H. by right.
Qed.

(** When the enclosing table is the only table around the selection, a
    default command changes nothing in front of it and nothing behind the
    position that follows it: tables next to it keep their cells. *)
Lemma default_stays_in_table key v tr fpos fnode :
  findParentNodeOfType (selection tr) "table" (doc tr) = Some (fpos, fnode) →
  (∀ e, e ∈ descendants (doc tr) → isTable e.2 = true →
        e.1 < from (selection tr) < e.1 + nodeSize e.2 → e.1 = fpos) →
  ∃ tr', setTableDefault key tr v = Returns true (Some tr')
    ∧ ∀ q c, nodeAt (doc tr) q = Some c →
        q < fpos ∨ fpos + nodeSize fnode < q →
        attrsAt (doc tr') q = Some (attrsOf c).
Proof.
  intros Hf Hout.
  destruct (setTableDefault_spec key v tr fpos fnode Hf) as (tr' & Hret & _ & _ & HF).
  exists tr'. split; [done |]. intros q c Hc Hq.
  pose proof (findParent_Some _ _ _ _ _ Hf) as (Hin & _ & _ & Hsel).
  destruct (written_nodeAt _ _ _ _ _ HF Hc) as (c' & Hc' & _ & _ & Ha).
  unfold attrsAt. rewrite Hc'. simpl. rewrite Ha. clear Ha HF Hret.
  cut (lastWrite (tableWrites key v (selection tr) fpos fnode (doc tr)) q = None);
    [by intros -> |].
  unfold tableWrites. simpl. rewrite (decide_False (P := fpos = q)) by lia.
  cut (lastWrite (defaultWrites (from (selection tr)) key v noScope (descendants (doc tr))) q
       = None); [by intros -> |].
  apply nodeAt_elem_of in Hc. pose proof (descendants_sorted (doc tr)) as Hs.
  apply list_elem_of_split in Hc as (l1 & l2 & Hd). rewrite Hd in Hs, Hout, Hin |- *.
  rewrite default_lastWrite by done.
  change (enterTable (from (selection tr)) q c (scanScope (from (selection tr)) noScope l1))
    with (scanScope (from (selection tr)) (scanScope (from (selection tr)) noScope l1) [(q, c)]).
  rewrite <- scanScope_app.
  assert (∀ e, e ∈ l1 ++ [(q, c)] → e.1 ≤ q) as Hle.
  { apply StronglySorted_app in Hs as (H12 & _ & _).
    intros e [He | ->%list_elem_of_singleton]%elem_of_app; [| done].
    specialize (H12 e (q, c) He ltac:(left)). unfold before in H12. simpl in H12. lia. }
  assert (∀ e, e ∈ l1 ++ [(q, c)] → e ∈ l1 ++ (q, c) :: l2) as Hsub.
  { intros e [He | ->%list_elem_of_singleton]%elem_of_app; apply elem_of_app;
      [by left | right; left]. }
  assert (inScope q (scanScope (from (selection tr)) noScope (l1 ++ [(q, c)])) = false)
    as ->; [| done].
  unfold inScope. destruct Hq as [Hq | Hq].
  - rewrite scanScope_idle; [by destruct (last _); rewrite ?andb_false_r | done |].
    intros e He Ht Henc. specialize (Hle e He).
    rewrite (Hout e (Hsub e He) Ht Henc) in Hle. lia.
  - destruct (last _) as [x |] eqn:Hl; [| done].
    apply (scanScope_last_bound _ (fpos + nodeSize fnode)) in Hl; [| done |].
    + destruct (Nat.leb_spec q x); [lia | done].
    + intros e He Ht Hlt.
      destruct (decide (from (selection tr) < e.1 + nodeSize e.2)) as [Hlt2 | ?]; [| lia].
      pose proof (Hout e (Hsub e He) Ht ltac:(lia)) as Heq.
      pose proof (unique_by_position (l1 ++ (q, c) :: l2) fpos e.2 fnode) as Hu.
      rewrite <- Hd in Hu. specialize (Hu (descendants_NoDup _)). rewrite Hd in Hu.
      rewrite <- Heq in Hu. destruct e as [p n]. simpl in *.
      rewrite (Hu (Hsub _ He)); [lia |]. by rewrite Heq.
Qed.

(** Below 2^53 in size an integer is its own double. *)
Lemma toDouble_exact x : (Z.abs x < 2 ^ 53)%Z → toDouble x = x.
Proof.
  intros Hx. unfold toDouble. cbv zeta.
  destruct (Z.ltb_spec (Z.log2 (Z.abs x)) 53) as [| Hge]; [done |].
  exfalso. destruct (Z.eq_dec (Z.abs x) 0) as [H0 | H0].
  - rewrite H0 in Hge. simpl in Hge. lia.
  - pose proof (Z.log2_spec (Z.abs x) ltac:(lia)) as [Hlo _].
    assert (2 ^ 53 ≤ 2 ^ Z.log2 (Z.abs x))%Z by (apply Z.pow_le_mono_r; lia). lia.
Qed.

Lemma jsAdd_exact a b : (Z.abs (a + b) < 2 ^ 53)%Z → jsAdd a b = (a + b)%Z.
Proof. apply toDouble_exact. Qed.

Lemma jsSub_exact a b : (Z.abs (a - b) < 2 ^ 53)%Z → jsSub a b = (a - b)%Z.
Proof. apply toDouble_exact. Qed.

(** With a callback that raises at the first call a run raises there,
    whatever it would have gone on to do; with one that never raises it
    ends as recorded. *)
Lemma under_raises_first {W A : Type} (cb : Transaction → W → option W) (r : Ran A)
    w t ts :
  calls r = t :: ts → cb t w = None → under cb r w = (w, Raises).
Proof. unfold under. intros -> Hcb. simpl. by rewrite Hcb. Qed.

Lemma handOver_returns {W : Type} (cb : Transaction → W → option W) ts : ∀ w,
  (∀ t w', is_Some (cb t w')) → (handOver cb ts w).2 = true.
Proof.
  induction ts as [| t ts IH]; intros w Hcb; [done |]. simpl.
  destruct (Hcb t w) as [w' ->]. by apply IH.
Qed.

Lemma under_returns {W A : Type} (cb : Transaction → W → option W) (r : Ran A) w :
  (∀ t w', is_Some (cb t w')) → (under cb r w).2 = ending r.
Proof. intros Hcb. unfold under. simpl. by rewrite handOver_returns. Qed.

Lemma addColSpan_colspan a pos a' w :
  numAttr a "colspan" = Some w → addColSpan a pos = Gives a' →
  a' !! "colspan" = Some (VNum (jsAdd w 1)).
Proof.
  unfold addColSpan. intros ->. simpl. intros Ha.
  repeat case_match; simplify_eq;
    rewrite ?lookup_insert_ne by done; by rewrite lookup_insert_eq.
Qed.

(** A turn of the column loop at a slot inside a span that started
    further left: the spanning cell gets one more column, nothing is
    inserted, and the loop skips the rows the cell covers. *)
Lemma addColumnRow_extends_span createAndFill m tStart tbl col row tr pos cell w tr' next :
  (0 < col < width m)%Z →
  slot m (row * width m + col - 1) = Some pos →
  slot m (row * width m + col) = Some pos →
  nodeAt tbl pos = Some cell →
  numAttr (attrsOf cell) "colspan" = Some w →
  addColumnRow createAndFill m tStart tbl col row tr = Gives (tr', next) →
  mapping tr' = mapping tr
  ∧ (∃ rs, numAttr (attrsOf cell) "rowspan" = Some rs
           ∧ next = jsAdd (jsAdd row (jsSub rs 1)) 1)
  ∧ ∃ a, a !! "colspan" = Some (VNum (jsAdd w 1))
      ∧ Forall2 (rewritten (mapPos (mapping tr) (tStart + pos)) a)
          (descendants (doc tr)) (descendants (doc tr')).
Proof.
  intros [Hc1 Hc2] Hs1 Hs2 Hcell Hw. unfold addColumnRow.
  destruct (Z.ltb_spec 0 col); [| lia]. destruct (Z.ltb_spec col (width m)); [| lia].
  rewrite Hs1, Hs2, bool_decide_eq_true_2 by done. simpl. rewrite Hcell. simpl.
  destruct (colCount m pos) as [cc |]; [| done]. simpl.
  destruct (addColSpan (attrsOf cell) (col - cc)) as [a | |] eqn:Ha; [| done | done]. simpl.
  destruct (setNodeMarkup _ a tr) as [tr1 |] eqn:Hset; [| done]. simpl.
  destruct (numAttr (attrsOf cell) "rowspan") as [rs |]; [| done]. simpl.
  intros [= <- <-]. apply setNodeMarkup_spec in Hset as (_ & Hm & _ & HF).
  split_and!; [done | by exists rs |].
  exists a. split; [by eapply addColSpan_colspan | done].
Qed.

(** A turn of the column loop anywhere else: one node is inserted, made
    by [createAndFill] for the type of the cell in the reference column. *)
Lemma addColumnRow_inserts createAndFill m tStart tbl col row tr tr' next :
  ((0 <? col)%Z && (col <? width m)%Z
   && bool_decide (slot m (row * width m + col - 1) = slot m (row * width m + col))) = false →
  addColumnRow createAndFill m tStart tbl col row tr = Gives (tr', next) →
  next = (row + 1)%Z
  ∧ ∃ rp ref new pos,
      slot m (row * width m + col + refColumn m col) = Some rp
      ∧ nodeAt tbl rp = Some ref
      ∧ createAndFill (typeName ref) = Some new
      ∧ positionAt m row col tbl = Some pos
      ∧ insert (mapPos (mapping tr) (tStart + pos)) new tr = Some tr'
      ∧ mapping tr' = mapping tr ++ [(mapPos (mapping tr) (tStart + pos), nodeSize new)].
Proof.
  intros Hcond. unfold addColumnRow. rewrite Hcond. cbv beta iota zeta.
  destruct (slot m (row * width m + col + refColumn m col)) as [rp |] eqn:Hrp;
    simpl; [| done].
  destruct (nodeAt tbl rp) as [ref |] eqn:Href; simpl; [| done].
  destruct (createAndFill (typeName ref)) as [new |] eqn:Hnew; simpl; [| done].
  destruct (positionAt m row col tbl) as [pos |] eqn:Hpos; simpl; [| done].
  destruct (insert (mapPos (mapping tr) (tStart + pos)) new tr) as [tr1 |] eqn:Hins;
    simpl; [| done].
  intros [= <- <-]. split; [done |]. exists rp, ref, new, pos.
  split_and!; [done .. |].
  unfold insert in Hins. destruct (insAt new (doc tr) _) as [d' |]; simpl in Hins; [| done].
  injection Hins as <-. reflexivity.
Qed.

Lemma highlightMark_highlighted b bc a :
  truthy (highlightMark b bc a !! "highlight") = true.
Proof. unfold highlightMark. by rewrite lookup_insert_eq. Qed.

(** Once the walk is inside a table around the selection it stays in
    scope as far as the tables it meets in front of the selection reach. *)
Lemma scanScope_reach cs q l : ∀ sc,
  curTable sc = true → (∃ x, last sc = Some x ∧ q ≤ x) →
  (∀ e, e ∈ l → isTable e.2 = true → e.1 < cs → q ≤ e.1 + nodeSize e.2) →
  inScope q (scanScope cs sc l) = true.
Proof.
  induction l as [| e l IH]; intros sc Hc (x & Hx & Hq) Hl.
  - unfold inScope. simpl. rewrite Hx, Hc. by destruct (Nat.leb_spec q x); [| lia].
  - simpl. apply IH; [| | intros e' He'; apply Hl; by right].
    + unfold enterTable. destruct (isTable e.2 && (e.1 <? cs)); [| done].
      simpl. by rewrite Hc.
    + unfold enterTable. destruct (isTable e.2) eqn:Ht; simpl; [| by exists x].
      destruct (Nat.ltb_spec e.1 cs); simpl; [| by exists x].
      eexists. split; [done |]. apply Hl; [left | done | done].
Qed.

(** A cell of the enclosing table that is not highlighted is written when
    no table nested in front of the selection ends in front of it. *)
Lemma tableWrites_reached key value sel fpos fnode d q m :
  (fpos, fnode) ∈ descendants d → isTable fnode = true →
  fpos < from sel < fpos + nodeSize fnode →
  (q, m) ∈ descendants d → fpos < q < fpos + nodeSize fnode →
  reaches (descendants d) fpos (from sel) q →
  isCell m = true → highlighted m = false →
  lastWrite (tableWrites key value sel fpos fnode d) q
  = Some (<[key := value]> (attrsOf m)).
Proof.
  intros Hf Ht Hsel Hq Hin Hreach Hc Hh. unfold tableWrites. simpl.
  pose proof (descendants_sorted d) as Hs.
  apply list_elem_of_split in Hq as (l1 & l2 & Hd). rewrite Hd in *.
  rewrite default_lastWrite by done.
  unfold enterTable at 1. rewrite (isCell_not_table _ Hc). simpl.
  pose proof Hs as (H12 & Hs1 & [Hq2 _]%StronglySorted_cons)%StronglySorted_app.
  rewrite Forall_forall in Hq2.
  assert ((fpos, fnode) ∈ l1) as Hin1.
  { apply elem_of_app in Hf as [? | [[= -> ->] | Hf]%elem_of_cons]; [done | lia |].
    apply Hq2 in Hf. unfold before in Hf. simpl in Hf. lia. }
  apply list_elem_of_split in Hin1 as (la & lb & ->).
  rewrite scanScope_app. simpl.
  apply StronglySorted_app in Hs1 as (_ & _ & [Hb _]%StronglySorted_cons).
  rewrite Forall_forall in Hb.
  rewrite scanScope_reach; [by rewrite Hc, Hh | | |].
  - unfold enterTable. rewrite Ht. simpl.
    destruct (Nat.ltb_spec fpos (from sel)); [| lia]. simpl.
    destruct (Nat.ltb_spec (from sel) (fpos + nodeSize fnode)); [| lia].
    by rewrite orb_true_r.
  - unfold enterTable. rewrite Ht. simpl.
    destruct (Nat.ltb_spec fpos (from sel)); [| lia]. simpl.
    eexists. split; [done |]. lia.
  - intros e He Hte Hcs. apply Hreach; [| done | | done].
    + apply elem_of_app. left. apply elem_of_app. right. by right.
    + pose proof (Hb _ He) as H1. unfold before in H1. simpl in H1. lia.
Qed.

(** The positions a cell selection works on hold nodes once the command
    has gone through. *)
Lemma perCell_targets gR gS tr tr1 q :
  perCell gR gS tr = Returns true (Some tr1) →
  q ∈ targetCells (selection tr) (doc tr) → is_Some (nodeAt (doc tr) q).
Proof.
  unfold perCell, targetCells. destruct (cellRange (selection tr)) as [cells |].
  - destruct (forEachCell _ _ _ _) as [tr' |] eqn:Hf; [| done]. intros _.
    apply forEachCell_writes in Hf as (ws & Hws & _). clear tr'.
    revert ws Hws. induction cells as [| p cells IH]; intros ws Hws Hq;
      [by apply elem_of_nil in Hq |].
    apply cellWrites_cons in Hws as (n & ws' & Hn & Hws' & _).
    apply elem_of_cons in Hq as [-> | Hq]; [by eexists | by eapply IH].
  - destruct (findParentNodeOfType _ _ _) as [[pos node] |] eqn:Hf; [| done].
    intros _ ->%list_elem_of_singleton.
    apply findParent_Some in Hf as (Hin%nodeAt_elem_of & _). by eexists.
Qed.

(** C1, as amended: for every table and every cell set S whose cells
    have been given [highlight = true] by [setHighlight], a default command
    run afterwards with the selection in that table leaves every attribute
    of every cell of S unchanged (as of every other cell whose highlight
    flag is set), while it sets its attribute on every cell of the same
    table whose highlight flag is not set, provided no table nested in
    that table in front of the selection ends before the cell. *)
Theorem highlight_exemption key cmd b bc v tr0 tr1 :
  (key, cmd) ∈ defaultCommands →
  highlightSelection b bc tr0 = Returns true (Some tr1) →
  (∀ q, q ∈ targetCells (selection tr0) (doc tr0) →
        ∀ c, nodeAt (doc tr0) q = Some c → isCell c = true) →
  (∀ q, q ∈ targetCells (selection tr0) (doc tr0) →
        ∃ a, attrsAt (doc tr1) q = Some a ∧ a !! "highlight" = Some (VBool true))
  ∧ ∀ sel' fpos fnode,
      findParentNodeOfType sel' "table" (doc tr1) = Some (fpos, fnode) →
      ∃ tr2, cmd v (startTr (doc tr1) sel') = Returns true (Some tr2)
        ∧ (∀ q, q ∈ targetCells (selection tr0) (doc tr0) →
             attrsAt (doc tr2) q = attrsAt (doc tr1) q)
        ∧ (∀ q c, nodeAt (doc tr1) q = Some c → isCell c = true →
             highlighted c = true → attrsAt (doc tr2) q = Some (attrsOf c))
        ∧ (∀ q c, nodeAt (doc tr1) q = Some c → isCell c = true →
             fpos < q < fpos + nodeSize fnode → highlighted c = false →
             reaches (descendants (doc tr1)) fpos (from sel') q →
             attrsAt (doc tr2) q = Some (<[key := v]> (attrsOf c))).
Proof.
  intros Hcmd Hhl Hcells. rewrite highlightSelection_perCell in Hhl.
  assert (∀ q, q ∈ targetCells (selection tr0) (doc tr0) →
            ∃ c1, nodeAt (doc tr1) q = Some c1 ∧ isCell c1 = true
                  ∧ attrsOf c1 !! "highlight" = Some (VBool true)) as HS.
  { intros q Hq. destruct (perCell_targets _ _ _ _ q Hhl Hq) as [c Hc].
    pose proof (Hcells q Hq c Hc) as Hcell.
    destruct (perCell_spec _ _ _ _ Hhl) as (ws & HF1 & Hin & _).
    destruct (written_nodeAt _ _ _ _ _ HF1 Hc) as (c1 & Hc1 & Hty & _ & Ha).
    rewrite (Hin q c Hq Hc) in Ha. simpl in Ha.
    assert (perCellAttrs (highlightMark b bc) (highlightMark b bc) (selection tr0)
            = highlightMark b bc) as Hg by (unfold perCellAttrs; by destruct (cellRange _)).
    rewrite Hg in Ha. exists c1. split_and!; [done | |].
    - unfold isCell in *. by rewrite Hty.
    - rewrite Ha. unfold highlightMark. by rewrite lookup_insert_eq. }
  split.
  { intros q Hq. destruct (HS q Hq) as (c1 & Hc1 & _ & Hh). exists (attrsOf c1).
    unfold attrsAt. by rewrite Hc1. }
  intros sel' fpos fnode Hf.
  rewrite (defaultCommands_setTableDefault _ _ Hcmd).
  destruct (setTableDefault_spec key v (startTr (doc tr1) sel') fpos fnode Hf)
    as (tr2 & Hret & _ & _ & HF).
  simpl in HF. exists tr2. split; [done |].
  pose proof (findParent_Some _ _ _ _ _ Hf) as (Hfin & Hfty & _ & Hfsel).
  assert (isTable fnode = true) as Hft by (unfold isTable; by rewrite Hfty).
  assert (∀ q c, nodeAt (doc tr1) q = Some c → isCell c = true → q ≠ fpos) as Hne.
  { intros q c Hc%nodeAt_elem_of Hcell ->.
    rewrite (descendants_unique _ _ _ _ Hc Hfin) in Hcell.
    apply isCell_not_table in Hcell. congruence. }
  assert (∀ q c, nodeAt (doc tr1) q = Some c → isCell c = true →
            highlighted c = true → attrsAt (doc tr2) q = Some (attrsOf c)) as Hex.
  { intros q c Hc Hcell Hh.
    destruct (written_nodeAt _ _ _ _ _ HF Hc) as (c' & Hc' & _ & _ & Ha).
    unfold attrsAt. rewrite Hc'. simpl. rewrite Ha.
    rewrite (tableWrites_exempt key v sel' fpos fnode (doc tr1) q c); eauto.
    by apply nodeAt_elem_of. }
  split_and!; [| exact Hex |].
  - intros q Hq. destruct (HS q Hq) as (c1 & Hc1 & Hcell & Hh).
    rewrite (Hex q c1 Hc1 Hcell); [unfold attrsAt; by rewrite Hc1 |].
    unfold highlighted. by rewrite Hh.
  - intros q c Hc Hcell Hq Hh Hreach.
    destruct (written_nodeAt _ _ _ _ _ HF Hc) as (c' & Hc' & _ & _ & Ha).
    unfold attrsAt. rewrite Hc'. simpl. rewrite Ha.
    rewrite (tableWrites_reached key v sel' fpos fnode (doc tr1) q c); eauto.
    by apply nodeAt_elem_of.
Qed.

Lemma reachesb_true l p cs q : reachesb l p cs q = true → reaches l p cs q.
Proof.
  unfold reachesb, reaches. rewrite forallb_forall.
  intros H e He%list_elem_of_In Ht H1 H2. specialize (H e He).
  rewrite Ht in H. apply Nat.ltb_lt in H1, H2. rewrite H1, H2 in H. simpl in H.
  by apply Nat.leb_le in H.
Qed.

Lemma exHighlighted_run :
  highlightSelection (VStr "4px dashed") (VStr "blue") (startTr (doc exBackground) exCursor)
  = Returns true (Some exHighlighted).
Proof. vm_compute. reflexivity. Qed.

Lemma exDefaulted_run :
  setDefaultTableBorder (VStr "1px dotted") (startTr (doc exHighlighted) exCursor)
  = Returns true (Some exDefaulted).
Proof. vm_compute. reflexivity. Qed.

Lemma exMarked_run :
  highlightSelection (VStr "4px dashed") (VStr "blue") (startTr exNestedBehind exCursor)
  = Returns true (Some exMarked).
Proof. vm_compute. reflexivity. Qed.

Lemma highlight_exemption_witness :
  ∃ tr2, setDefaultTableBorder (VStr "1px dotted") (startTr (doc exMarked) exCursor)
         = Returns true (Some tr2)
    ∧ (attrsAt (doc tr2) 2 ≫= (.!! "border")) = Some (VStr "4px dashed")
    ∧ (attrsAt (doc tr2) 7 ≫= (.!! "border")) = Some (VStr "1px dotted")
    ∧ (attrsAt (doc tr2) 7 ≫= (.!! "background")) = Some VNull.
Proof.
  destruct (highlight_exemption "border" setDefaultTableBorder
              (VStr "4px dashed") (VStr "blue") (VStr "1px dotted")
              (startTr exNestedBehind exCursor) exMarked)
    as (_ & Hnext).
  - left.
  - exact exMarked_run.
  - intros q Hq c Hc. change (q ∈ [2]) in Hq. apply list_elem_of_singleton in Hq as ->.
    assert (nodeAt exNestedBehind 2 = Some (exCell [exPara])) as Hn
      by (vm_compute; reflexivity).
    change (doc (startTr exNestedBehind exCursor)) with exNestedBehind in Hc.
    rewrite Hn in Hc. by injection Hc as <-.
  - destruct (Hnext exCursor 0 exMarkedTable) as (tr2 & Hret & HS & _ & Hset).
    + vm_compute; reflexivity.
    + exists tr2. split; [exact Hret |]. split_and!.
      * rewrite (HS 2); [vm_compute; reflexivity | left].
      * rewrite (Hset 7 (exCell [exPara; exInner]));
          [reflexivity | vm_compute; reflexivity | reflexivity | vm_compute; lia
           | reflexivity | apply reachesb_true; vm_compute; reflexivity].
      * rewrite (Hset 7 (exCell [exPara; exInner]));
          [reflexivity | vm_compute; reflexivity | reflexivity | vm_compute; lia
           | reflexivity | apply reachesb_true; vm_compute; reflexivity].
Defined.

Lemma highlight_exemption_counterexample :
  ¬ exemptionClaim (startTr (doc exBackground) exCursor) (VStr "4px dashed") (VStr "blue")
      exCursor "border" setDefaultTableBorder (VStr "1px dotted").
Proof.
  intros H.
  destruct (H exHighlighted 0 exHighlightedTable)
    as (tr2 & Hret & _ & Hout); [exact exHighlighted_run | vm_compute; reflexivity |].
  rewrite exDefaulted_run in Hret. injection Hret as <-.
  specialize (Hout 7 (default exPara (nodeAt (doc exHighlighted) 7))).
  assert (7 ∉ [2]) as Hn by (intros [Heq | []%elem_of_nil]%elem_of_cons; discriminate Heq).
  assert (targetCells (selection (startTr (doc exBackground) exCursor))
            (doc (startTr (doc exBackground) exCursor)) = [2]) as Ht
    by (vm_compute; reflexivity).
  rewrite Ht in Hout.
  specialize (Hout ltac:(vm_compute; reflexivity) ltac:(vm_compute; reflexivity)
                ltac:(vm_compute; split; lia) Hn).
  apply (f_equal (λ o : option Attrs, o ≫= (.!! "border"))) in Hout.
  vm_compute in Hout. discriminate Hout.
Qed.

(** C7, as amended: for a 4-row table that is the only table around the
    selection, holds no highlighted cell and has neither tables nor rows
    inside its cells, one call of [applyAlternateColor] returns [true] and
    leaves every cell of rows 1 and 3 with the banding colour and every
    cell of rows 2 and 4 with the no-colour string as its background, all
    other attributes as they were; the two values differ. *)
Theorem alternation_parity d sel :
  (∀ e, e ∈ descendants d → isTable e.2 = true →
        e.1 < from sel < e.1 + nodeSize e.2 →
        findParentNodeOfType sel "table" d = Some e) →
  (∀ fpos ta rows, findParentNodeOfType sel "table" d = Some (fpos, Elem "table" ta rows) →
                   Forall plainRow rows) →
  parityClaim d sel ∧ bandingColor ≠ noColor.
Proof.
  intros Hout Hplain. split; [| done].
  intros fpos ta r1 r2 r3 r4 rows Hf Hhl.
  destruct (alternate_table d sel fpos ta rows Hf) as (tr' & Hret & Hcells).
  - intros e He Ht Henc. by rewrite (Hout e He Ht Henc) in Hf; simplify_eq.
  - by eapply Hplain.
  - exists tr'. split; [done |]. intros i r q c Hi Hq Hc.
    assert (highlighted c = false) as Hh.
    { apply (Hhl (q, c)); [| done]. rewrite descNode_unfold. right.
      replace (fpos + 1) with (S fpos) in Hq by lia.
      exact (descFrag_lookup rows (S fpos) i r (q, c) Hi Hq). }
    rewrite (Hcells i r q c Hi Hq Hc Hh). simpl. rewrite lookup_insert_eq.
    f_equal. unfold bandOf.
    by destruct i as [| [| [| [| i]]]].
Qed.

Lemma alternation_parity_witness :
  parityClaim exFourRows exCursor ∧ bandingColor ≠ noColor.
Proof.
  apply alternation_parity.
  - intros [p n] He Ht Henc. simpl in *.
    unfold descendants in He. simpl in He.
    repeat (apply elem_of_cons in He as [He | He];
            [injection He as -> ->; first [discriminate Ht | reflexivity] |]).
    by apply elem_of_nil in He.
  - intros fpos ta rows Hf.
    assert (findParentNodeOfType exCursor "table" exFourRows
            = Some (0, exTable [exRow [exCell [exPara]]; exRow [exCell [exPara]];
                                exRow [exCell [exPara]]; exRow [exCell [exPara]]])) as Hfound
      by (vm_compute; reflexivity).
    rewrite Hfound in Hf. injection Hf as <- <- <-.
    repeat (apply Forall_cons; split); try apply Forall_nil_2.
    all: split; [reflexivity |]; intros s e He; simpl in He.
    all: repeat (apply elem_of_cons in He as [He | He]; [by subst e |]).
    all: by apply elem_of_nil in He.
Defined.

Lemma alternation_parity_counterexample : ¬ parityClaim exFourRowsNested exCursor.
Proof.
  intros H.
  destruct (H 0 exTableAttrs (exRow [exCell [exPara; exInner]]) (exRow [exCell [exPara]])
              (exRow [exCell [exPara]]) (exRow [exCell [exPara]]))
    as (tr' & Hret & Hcells); [reflexivity | |].
  - intros [p n] He Hc. simpl in *.
    repeat (apply elem_of_cons in He as [He | He];
            [injection He as -> ->; first [discriminate Hc | reflexivity] |]).
    by apply elem_of_nil in He.
  - specialize (Hcells 1 (exRow [exCell [exPara]]) 18 (exCell [exPara]) eq_refl).
    apply (f_equal (dispatchedOr (startTr exFourRowsNested exCursor))) in Hret.
    change (exBanded = tr') in Hret. subst tr'.
    specialize (Hcells ltac:(right; left) eq_refl). vm_compute in Hcells. discriminate.
Qed.

Lemma perCellAttrs_same g sel : perCellAttrs g g sel = g.
Proof. unfold perCellAttrs. by destruct (cellRange sel). Qed.

Lemma isCell_typeName c c' : typeName c' = typeName c → isCell c' = isCell c.
Proof. unfold isCell. by intros ->. Qed.

(** C9: [setTableCellBackground] with a target (a cell range, or an
    enclosing cell) whose positions hold cells returns [true], and every
    cell it rewrites gets the new background and [highlight = true]; from
    then on each table-wide default command and the alternation command,
    wherever the selection is, either raises or returns [true] with that
    cell's attributes unchanged; clearing the highlight of the cell ends the
    exemption. *)
Theorem cell_background_exempts bg tr0 :
  is_Some (cellRange (selection tr0)) ∨ targetCells (selection tr0) (doc tr0) ≠ [] →
  (∀ q, q ∈ targetCells (selection tr0) (doc tr0) →
        ∃ c, nodeAt (doc tr0) q = Some c ∧ isCell c = true) →
  ∃ tr1, setTableCellBackground bg tr0 = Returns true (Some tr1)
    ∧ ∀ q c, q ∈ targetCells (selection tr0) (doc tr0) → nodeAt (doc tr0) q = Some c →
      ∃ c1, nodeAt (doc tr1) q = Some c1
        ∧ attrsOf c1 = <["highlight" := VBool true]> (<["background" := bg]> (attrsOf c))
        ∧ (∀ key cmd v sel', (key, cmd) ∈ defaultCommands →
             cmd v (startTr (doc tr1) sel') = Throws
             ∨ ∃ tr2, cmd v (startTr (doc tr1) sel') = Returns true (Some tr2)
                      ∧ attrsAt (doc tr2) q = Some (attrsOf c1))
        ∧ (∀ sel',
             applyAlternateColor (startTr (doc tr1) sel') = Throws
             ∨ ∃ tr2, applyAlternateColor (startTr (doc tr1) sel') = Returns true (Some tr2)
                      ∧ attrsAt (doc tr2) q = Some (attrsOf c1))
        ∧ (∀ sel' tr2, q ∈ targetCells sel' (doc tr1) →
             removeHighlightSelection (startTr (doc tr1) sel') = Returns true (Some tr2) →
             ∃ c2, nodeAt (doc tr2) q = Some c2 ∧ highlighted c2 = false).
Proof.
  intros Htarget Hwf. rewrite setTableCellBackground_perCell.
  destruct (perCell_returns (backgroundMark bg) (backgroundMark bg) tr0 Htarget)
    as [tr1 Hbg].
  { intros q Hq. destruct (Hwf q Hq) as (c & Hc & Hcell). exists c.
    split; [done | by apply isCell_not_text]. }
  exists tr1. split; [done |]. intros q c Hq Hc.
  destruct (Hwf q Hq) as (c0 & Hc0 & Hcell). rewrite Hc in Hc0. injection Hc0 as <-.
  apply perCell_spec in Hbg as (ws & HF1 & Hin & _).
  destruct (written_nodeAt _ _ _ _ _ HF1 Hc) as (c1 & Hc1 & Hty & _ & Ha).
  rewrite (Hin q c Hq Hc), perCellAttrs_same in Ha. simpl in Ha.
  exists c1. split; [done |]. split; [done |].
  assert (isCell c1 = true) as Hcell1 by (by rewrite (isCell_typeName _ _ Hty)).
  assert (highlighted c1 = true) as Hh1.
  { unfold highlighted. rewrite Ha. unfold backgroundMark. by rewrite lookup_insert_eq. }
  pose proof Hc1 as Hc1in%nodeAt_elem_of.
  split_and!.
  - intros key cmd v sel' Hcmd. rewrite (defaultCommands_setTableDefault _ _ Hcmd).
    destruct (findParentNodeOfType sel' "table" (doc tr1)) as [[fpos fnode] |] eqn:Hf.
    + right.
      destruct (setTableDefault_spec key v (startTr (doc tr1) sel') fpos fnode Hf)
        as (tr2 & Hret & _ & _ & HF).
      exists tr2. split; [done |]. simpl in HF.
      destruct (written_nodeAt _ _ _ _ _ HF Hc1) as (c2 & Hc2 & _ & _ & Ha2).
      unfold attrsAt. rewrite Hc2. simpl. rewrite Ha2.
      rewrite (tableWrites_exempt key v sel' fpos fnode (doc tr1) q c1); auto.
      intros ->. apply findParent_Some in Hf as (Hfin & Hfty & _).
      rewrite (descendants_unique _ _ _ _ Hc1in Hfin) in Hcell1.
      unfold isCell in Hcell1. by rewrite Hfty in Hcell1.
    + left. by apply setTableDefault_throws.
  - intros sel'. unfold applyAlternateColor.
    destruct (findParentNodeOfType sel' "table" (doc tr1)) as [[fpos fnode] |] eqn:Hf.
    + right.
      destruct (alternateColor_spec (startTr (doc tr1) sel') fpos fnode Hf)
        as (tr2 & Hret & _ & HF).
      exists tr2. split; [done |]. simpl in HF.
      destruct (written_nodeAt _ _ _ _ _ HF Hc1) as (c2 & Hc2 & _ & _ & Ha2).
      unfold attrsAt. rewrite Hc2. simpl. rewrite Ha2.
      rewrite (alternateQueue_exempt sel' fpos fnode (doc tr1) q c1); auto.
      intros ->. apply findParent_Some in Hf as (Hfin & Hfty & _).
      rewrite (descendants_unique _ _ _ _ Hc1in Hfin) in Hcell1.
      unfold isCell in Hcell1. by rewrite Hfty in Hcell1.
    + left. unfold alternateColor. simpl. by rewrite Hf.
  - intros sel' tr2 Hq' Hrm. rewrite removeHighlightSelection_perCell in Hrm.
    apply perCell_spec in Hrm as (ws' & HF' & Hin' & _). simpl in *.
    destruct (written_nodeAt _ _ _ _ _ HF' Hc1) as (c2 & Hc2 & _ & _ & Ha2).
    exists c2. split; [done |]. unfold highlighted. rewrite Ha2.
    rewrite (Hin' q c1 Hq' Hc1). simpl. unfold perCellAttrs.
    destruct (cellRange sel'); by rewrite lookup_insert_eq.
Qed.

Lemma exBackground_run :
  setTableCellBackground (VStr "red") (startTr exTwoCells exCursor2)
  = Returns true (Some exBackground).
Proof. vm_compute. reflexivity. Qed.

Lemma cell_background_exempts_witness :
  ∃ c1, nodeAt (doc exBackground) 7 = Some c1
    ∧ attrsOf c1 = <["highlight" := VBool true]> (<["background" := VStr "red"]> exCellAttrs).
Proof.
  destruct (cell_background_exempts (VStr "red") (startTr exTwoCells exCursor2))
    as (tr1 & Hret & Hcells).
  - right. vm_compute. discriminate.
  - intros q Hq. vm_compute in Hq. apply list_elem_of_singleton in Hq as ->.
    eexists. split; vm_compute; reflexivity.
  - rewrite exBackground_run in Hret. injection Hret as <-.
    destruct (Hcells 7 (exCell [exPara])) as (c1 & Hc1 & Ha & _);
      [vm_compute; left | vm_compute; reflexivity |].
    exists c1. split; [exact Hc1 | exact Ha].
Defined.

(** The default commands have one failure mode, and it is an exception. *)
Lemma setTableDefault_never_false key tr v o :
  setTableDefault key tr v ≠ Returns false o.
Proof.
  unfold setTableDefault.
  destruct (findParentNodeOfType _ _ _) as [[fpos fnode] |]; [| done].
  by destruct (_ ≫= _).
Qed.

(** C2: on a document without a table, with the cursor in its paragraph,
    each of the three default commands raises instead of returning
    [false]; nothing is dispatched. *)
Theorem defaults_without_table :
  findParentNodeOfType exCursorPara "table" exNoTable = None
  ∧ setDefaultTableBorder (VStr "2px solid") (startTr exNoTable exCursorPara) = Throws
  ∧ setDefaultTableBorderColor (VStr "red") (startTr exNoTable exCursorPara) = Throws
  ∧ setDefaultTableBackgroundColor (VStr "red") (startTr exNoTable exCursorPara) = Throws.
Proof. by vm_compute. Qed.

(** C3: clearing the highlight of a single enclosing cell (no cell-range
    selection) returns [true] and sets [highlight] to false, but leaves the
    [border] and [borderColor] the highlight had put there. *)
Theorem clearHighlight_single_cell :
  ∃ tr', removeHighlightSelection (startTr (doc exHighlighted) exCursor)
         = Returns true (Some tr')
    ∧ targetCells exCursor (doc exHighlighted) = [2]
    ∧ attrsAt (doc tr') 2 ≫= (.!! "highlight") = Some (VBool false)
    ∧ attrsAt (doc tr') 2 ≫= (.!! "border") = Some (VStr "4px dashed")
    ∧ attrsAt (doc tr') 2 ≫= (.!! "borderColor") = Some (VStr "blue").
Proof. eexists. by vm_compute. Qed.

(** C4: with sibling tables B and A in one cell of an outer table and the
    cursor in A, [setDefaultTableBorder] finds A as the enclosing table and
    still rewrites the border of the cell of B. *)
Theorem default_reaches_sibling :
  ∃ fnode d', findParentNodeOfType exCursorA "table" exSiblings = Some (12, fnode)
    ∧ docAfter (setDefaultTableBorder (VStr "1px dotted") (startTr exSiblings exCursorA))
      = Some d'
    ∧ isCell <$> nodeAt exSiblings 5 = Some true
    ∧ ¬ (12 < 5 < 12 + nodeSize fnode)
    ∧ borderAt exSiblings 5 = Some VNull
    ∧ borderAt d' 5 = Some (VStr "1px dotted").
Proof.
  do 2 eexists. split; [vm_compute; reflexivity |].
  split; [vm_compute; reflexivity |]. split_and!; [by vm_compute | lia | by vm_compute ..].
Qed.

(** C5: inserting a column in front of the only column of a table
    ([col = 0], [width = 1]) takes column -1 as the reference and raises; no
    cell is inserted and nothing is passed to [dispatch]. *)
Theorem addColumn_single_column createAndFill sel :
  refColumn (rmap exOneCellRect) 0 = (-1)%Z
  ∧ (∀ dispatch, addColumn createAndFill (startTr (exDoc [exOneCell]) sel) exOneCellRect 0
                   dispatch = quiet Raises)
  ∧ addColumnBefore createAndFill (λ _, true) (λ _, exOneCellRect)
      {| sdoc := exDoc [exOneCell]; sselection := sel |} true = quiet Raises.
Proof. split_and!; [done | by intros [] | done]. Qed.

(** C6: adding a column after the last one of a table with default
    border "2px solid", whose first cell holds a table in front of the
    cursor, passes the transaction to [dispatch] four times (once in each
    closing default call, once at the end) and, when those calls come
    back, returns [true]; at the first call already, and at each later
    one, the new cell (at 21) is without that border while the cell of the
    inner table (at 8) has received it. *)
Theorem addColumn_misses_new_cell :
  let run := addColumnAfter exCreate (λ _, true) (λ _, exStyledRect) exStyledState true in
  ending run = Gives true
  ∧ length (calls run) = 4
  ∧ attrsOf (table exStyledRect) !! "border" = Some (VStr "2px solid")
  ∧ nodeAt (sdoc exStyledState) 21 = None
  ∧ borderAt (sdoc exStyledState) 8 = Some VNull
  ∧ Forall (λ t, isCell <$> nodeAt (doc t) 21 = Some true
                 ∧ borderAt (doc t) 21 = Some VNull
                 ∧ borderAt (doc t) 8 = Some (VStr "2px solid")) (calls run).
Proof.
  cbv zeta. split_and!; [by vm_compute .. |].
  compute_done.
Qed.

(** Without the inner table the new cell does get the default border. *)
Lemma addColumn_flat_table :
  let run := addColumnAfter exCreate (λ _, true) (λ _, exFlatRect) exFlatState true in
  ending run = Gives true
  ∧ length (calls run) = 4
  ∧ Forall (λ t, isCell <$> nodeAt (doc t) 12 = Some true
                 ∧ borderAt (doc t) 12 = Some (VStr "2px solid")) (calls run).
Proof.
  cbv zeta. split_and!; [by vm_compute .. |].
  compute_done.
Qed.

(** C8: the repair command returns [false] exactly when [fixTables]
    computes no corrective transaction, and then nothing is dispatched: the
    editor (document, selection and last good state) is unchanged;
    otherwise it returns [true] and dispatches the correction.  With
    [fixTables] as the spec has it, on a document whose tables are all
    well-formed two runs in succession return [false] both times and leave
    the editor as it was. *)
Theorem fixTable_reports
    (fixTables repair : EditorState → option EditorState → option Transaction)
    (ed : Editor) :
  match fixTables (state ed) (lastGoodState ed) with
  | None =>
      fixTablesCmd fixTables ed = Returns false None
      ∧ runCommand (fixTablesCmd fixTables) ed = Some (false, ed)
  | Some tr =>
      fixTablesCmd fixTables ed = Returns true (Some tr)
      ∧ runCommand (fixTablesCmd fixTables) ed = Some (true, dispatch ed tr)
  end
  ∧ (needsFix (sdoc (state ed)) = false →
     fixTablesCmd (specFixTables repair) ed = Returns false None
     ∧ runTwice (fixTablesCmd (specFixTables repair)) ed = Some (false, false, ed)).
Proof.
  split.
  - unfold runCommand, fixTablesCmd, fixTablesCommand.
    by destruct (fixTables (state ed) (lastGoodState ed)) as [tr |].
  - intros Hvalid.
    assert (fixTablesCmd (specFixTables repair) ed = Returns false None) as Hcmd.
    { unfold fixTablesCmd, fixTablesCommand, specFixTables. by rewrite Hvalid. }
    split; [done |]. unfold runTwice, runCommand. rewrite Hcmd. simpl. by rewrite Hcmd.
Qed.

Lemma fixTable_reports_witness :
  needsFix exRagged = true
  ∧ needsFix (sdoc (state exEditor)) = false
  ∧ runTwice (fixTablesCmd (specFixTables exRepair)) exEditor = Some (false, false, exEditor).
Proof.
  split; [vm_compute; reflexivity |]. split; [vm_compute; reflexivity |].
  apply (fixTable_reports exRepair exRepair exEditor). vm_compute; reflexivity.
Defined.

(** C10: the merge toggle returns [false] whenever [mergeCells] succeeds,
    handing on what [mergeCells] dispatched, and otherwise returns what
    [splitCell] returns and dispatches. *)
Theorem toggleMerge_reports (mergeCells splitCell : EditorState → bool * option Transaction)
    (st : EditorState) :
  toggleMergeCellCommand mergeCells splitCell st
  = if (mergeCells st).1
    then Returns false (mergeCells st).2
    else Returns (splitCell st).1 (splitCell st).2.
Proof.
  unfold toggleMergeCellCommand.
  destruct (mergeCells st) as [[] mtr]; simpl; [done |].
  by destruct (splitCell st).
Qed.

(** The default commands run their whole queue: the dispatched
    transaction is the queue applied to the one the command started on. *)
Lemma setTableDefault_queue key v tr fpos fnode :
  findParentNodeOfType (selection tr) "table" (doc tr) = Some (fpos, fnode) →
  ∃ tr', setTableDefault key tr v = Returns true (Some tr')
    ∧ applyWrites (tableWrites key v (selection tr) fpos fnode (doc tr)) tr = Some tr'.
Proof.
  intros Hf. destruct (setTableDefault_spec key v tr fpos fnode Hf) as (tr' & Hret & _).
  exists tr'. split; [done |]. revert Hret.
  pose proof (findParent_Some _ _ _ _ _ Hf) as (Hin & Hty & Htxt & _).
  unfold setTableDefault, tableWrites. rewrite Hf, applyWrites_cons. simpl.
  destruct (setNodeMarkup fpos _ tr) as [tr1 |] eqn:H1; simpl; [| done].
  pose proof (setNodeMarkup_spec _ _ _ _ H1) as (_ & _ & _ & HF1).
  assert (∀ m, (fpos, m) ∈ descendants (doc tr) → isCell m = false) as Hnc.
  { intros m Hm. rewrite (descendants_unique _ _ _ _ Hm Hin). unfold isCell. by rewrite Hty. }
  pose proof (walk_default (from (selection tr)) key v (descendants (doc tr1)) noScope tr1)
    as Hw.
  rewrite (defaultWrites_rewritten _ _ _ _ _ _ _ HF1 Hnc) in Hw.
  destruct (walk _ _ _) as [[sc t] |]; simpl in Hw; [| done].
  intros [= <-]. by rewrite <- Hw.
Qed.

Lemma tableWrites_table key v sel fpos fnode d :
  (fpos, fnode) ∈ descendants d → isCell fnode = false →
  lastWrite (tableWrites key v sel fpos fnode d) fpos = Some (<[key := v]> (attrsOf fnode)).
Proof.
  intros Hin Hc. unfold tableWrites. simpl.
  destruct (lastWrite _ fpos) as [a |] eqn:Hl; [| by rewrite decide_True].
  apply lastWrite_Some, defaultWrites_elem_of in Hl as (m & Hm & Hcm & _).
  simpl in Hm. rewrite (descendants_unique _ _ _ _ Hm Hin) in Hcm. congruence.
Qed.

Lemma tableWrites_key key v sel fpos fnode d q c a :
  (q, c) ∈ descendants d → (fpos, fnode) ∈ descendants d →
  lastWrite (tableWrites key v sel fpos fnode d) q = Some a →
  a = <[key := v]> (attrsOf c).
Proof.
  intros Hq Hin. unfold tableWrites. simpl.
  destruct (lastWrite _ q) as [a' |] eqn:Hl.
  - intros [= <-]. apply lastWrite_Some, defaultWrites_elem_of in Hl as (m & Hm & _ & _ & Hw).
    simpl in Hm, Hw. by rewrite Hw, (descendants_unique _ _ _ _ Hm Hq).
  - case_decide as Heq; [| done]. intros [= <-]. subst q.
    by rewrite (descendants_unique _ _ _ _ Hq Hin).
Qed.

(** X1: a default command raises exactly when no table encloses the
    selection; otherwise it returns [true] and dispatches a transaction
    with the selection, the position mapping and the metadata it started
    with. *)
Theorem default_command_outcome (v : Val) (tr : Transaction) :
  match findParentNodeOfType (selection tr) "table" (doc tr) with
  | None =>
      defaultBorder tr v = Throws ∧ defaultBorderColor tr v = Throws
      ∧ defaultBackgroundColor tr v = Throws
  | Some _ =>
      ∀ o, o ∈ [defaultBorder tr v; defaultBorderColor tr v; defaultBackgroundColor tr v] →
        ∃ tr', o = Returns true (Some tr') ∧ selection tr' = selection tr
               ∧ mapping tr' = mapping tr ∧ fixTablesMeta tr' = fixTablesMeta tr
  end.
Proof.
  destruct (findParentNodeOfType _ _ _) as [[fpos fnode] |] eqn:Hf.
  - intros o Ho.
    assert (∃ key, o = setTableDefault key tr v) as [key ->].
    { rewrite !elem_of_cons, elem_of_nil in Ho.
      destruct Ho as [-> | [-> | [-> | []]]]; eexists; reflexivity. }
    destruct (setTableDefault_queue key v tr fpos fnode Hf) as (tr' & Hret & Happ).
    exists tr'. split; [done |]. by apply applyWrites_inv in Happ as (? & ? & ? & _).
  - unfold defaultBorder, defaultBorderColor, defaultBackgroundColor.
    by rewrite !setTableDefault_throws.
Qed.

(** X2: a default command gives the enclosing table node itself the new
    value, adds or removes no node, keeps every position, type and size,
    changes no attribute other than the one it is for, and changes nothing
    at all on a node that is neither that table nor a cell. *)
Theorem default_command_frame key cmd v tr fpos fnode :
  (key, cmd) ∈ defaultCommands →
  findParentNodeOfType (selection tr) "table" (doc tr) = Some (fpos, fnode) →
  ∃ tr', cmd v tr = Returns true (Some tr')
    ∧ attrsAt (doc tr') fpos = Some (<[key := v]> (attrsOf fnode))
    ∧ length (descendants (doc tr')) = length (descendants (doc tr))
    ∧ ∀ q c, nodeAt (doc tr) q = Some c →
        ∃ c', nodeAt (doc tr') q = Some c'
          ∧ typeName c' = typeName c ∧ nodeSize c' = nodeSize c
          ∧ (∀ k, k ≠ key → attrsOf c' !! k = attrsOf c !! k)
          ∧ (isCell c = false → q ≠ fpos → attrsOf c' = attrsOf c).
Proof.
  intros Hcmd Hf. rewrite (defaultCommands_setTableDefault _ _ Hcmd).
  destruct (setTableDefault_spec key v tr fpos fnode Hf) as (tr' & Hret & _ & _ & HF).
  pose proof (findParent_Some _ _ _ _ _ Hf) as (Hin & Hty & _ & _).
  assert (isCell fnode = false) as Hnc by (unfold isCell; by rewrite Hty).
  exists tr'. split_and!; [done | | by rewrite (Forall2_length _ _ _ HF) |].
  - apply nodeAt_elem_of in Hin as Hn.
    destruct (written_nodeAt _ _ _ _ _ HF Hn) as (c' & Hc' & _ & _ & Ha).
    unfold attrsAt. rewrite Hc'. simpl. rewrite Ha.
    by rewrite (tableWrites_table key v (selection tr) fpos fnode (doc tr) Hin Hnc).
  - intros q c Hc. destruct (written_nodeAt _ _ _ _ _ HF Hc) as (c' & Hc' & Hty' & Hsz & Ha).
    exists c'. split_and!; try done.
    + intros k Hk. rewrite Ha.
      destruct (lastWrite _ q) as [a |] eqn:Hl; simpl; [| done].
      apply nodeAt_elem_of in Hc.
      rewrite (tableWrites_key _ _ _ _ _ _ _ _ _ Hc Hin Hl).
      by rewrite lookup_insert_ne.
    + intros Hcell Hne. rewrite Ha.
      rewrite (tableWrites_exempt key v (selection tr) fpos fnode (doc tr) q c); auto.
      by apply nodeAt_elem_of.
Qed.

(** X3: when the enclosing table is the only table around the selection,
    a default command changes nothing in front of that table and nothing
    behind the position that follows it; in particular the cells of tables
    next to it keep all their attributes. *)
Theorem default_command_isolated key cmd v tr fpos fnode :
  (key, cmd) ∈ defaultCommands →
  findParentNodeOfType (selection tr) "table" (doc tr) = Some (fpos, fnode) →
  (∀ e, e ∈ descendants (doc tr) → isTable e.2 = true →
        e.1 < from (selection tr) < e.1 + nodeSize e.2 → e.1 = fpos) →
  ∃ tr', cmd v tr = Returns true (Some tr')
    ∧ ∀ q c, nodeAt (doc tr) q = Some c →
        q < fpos ∨ fpos + nodeSize fnode < q →
        attrsAt (doc tr') q = Some (attrsOf c).
Proof.
  intros Hcmd Hf Hout. rewrite (defaultCommands_setTableDefault _ _ Hcmd).
  by apply default_stays_in_table.
Qed.

Lemma Forall2_filter_shape (R : nat * Node → nat * Node → Prop) (f : nat * Node → bool) l l' :
  (∀ e e', R e e' → f e' = f e) →
  Forall2 R l l' → Forall2 R (List.filter f l) (List.filter f l').
Proof.
  intros Hf. induction 1 as [| e e' l l' He _ IH]; simpl; [constructor |].
  rewrite (Hf _ _ He). destruct (f e); [by constructor | done].
Qed.

Lemma Forall2_last {A B} (R : A → B → Prop) (l : list A) (l' : list B) x :
  Forall2 R l l' → list.last l = Some x → ∃ y, list.last l' = Some y ∧ R x y.
Proof.
  intros HF Hl. apply last_Some in Hl as [k ->].
  apply Forall2_app_inv_l in HF as (k' & s & _ & Hs & ->).
  apply Forall2_cons_inv_l in Hs as (y & n & Hxy & Hn & ->).
  apply Forall2_nil_inv_l in Hn as ->. exists y. by rewrite last_snoc.
Qed.

(** The ancestor lookup sees positions, types and sizes only. *)
Lemma findParent_shape (R : nat * Node → nat * Node → Prop) sel ty d d' p n :
  (∀ e e', R e e' → sameShape e e') →
  Forall2 R (descendants d) (descendants d') →
  findParentNodeOfType sel ty d = Some (p, n) →
  ∃ n', findParentNodeOfType sel ty d' = Some (p, n') ∧ R (p, n) (p, n').
Proof.
  intros HR HF Hf. unfold findParentNodeOfType in *.
  eapply Forall2_filter_shape in HF.
  - destruct (Forall2_last _ _ _ _ HF Hf) as ([p' n'] & Hl & Hrel).
    pose proof (HR _ _ Hrel) as (Hp & _). simpl in Hp. subst p'. by exists n'.
  - intros e e' (Hp & Hty & Hsz & Ht)%HR. unfold encloses. by rewrite Hp, Hty, Hsz, Ht.
Qed.

Lemma lastWrite_is_Some ws q : q ∈ ws.*1 → is_Some (lastWrite ws q).
Proof.
  induction ws as [| [p a] ws IH]; simpl; [intros []%elem_of_nil |].
  intros [Heq | Hq]%elem_of_cons.
  - destruct (lastWrite ws q); [by eexists |]. rewrite decide_True by done. by eexists.
  - destruct (IH Hq) as [a' ->]. by eexists.
Qed.

(** The positions the default walk writes depend on positions, types,
    sizes and highlight flags only. *)
Lemma defaultWrites_positions cs key v l l' :
  Forall2 (λ e e', sameShape e e' ∧ highlighted e'.2 = highlighted e.2) l l' →
  ∀ sc, (defaultWrites cs key v sc l').*1 = (defaultWrites cs key v sc l).*1.
Proof.
  induction 1 as [| e e' l l' [Hsh Hh] _ IH]; intros sc; [done |].
  simpl. rewrite (enterTable_shape _ _ _ _ Hsh), !fmap_app, IH. f_equal.
  destruct Hsh as (Hp & Hty & _). unfold defaultWrite, isCell. rewrite Hp, Hty, Hh.
  by destruct (_ && _ && _).
Qed.

(** X4: running a default command a second time changes nothing: every
    node has the position, type, size and attributes the first run left. *)
Theorem default_command_idempotent key cmd v tr fpos fnode :
  (key, cmd) ∈ defaultCommands →
  findParentNodeOfType (selection tr) "table" (doc tr) = Some (fpos, fnode) →
  ∃ tr1 tr2, cmd v tr = Returns true (Some tr1)
    ∧ cmd v tr1 = Returns true (Some tr2)
    ∧ ∀ q c1, nodeAt (doc tr1) q = Some c1 →
        ∃ c2, nodeAt (doc tr2) q = Some c2 ∧ typeName c2 = typeName c1
              ∧ nodeSize c2 = nodeSize c1 ∧ attrsOf c2 = attrsOf c1.
Proof.
  intros Hcmd Hf. rewrite (defaultCommands_setTableDefault _ _ Hcmd).
  assert (key ≠ "highlight") as Hkey.
  { unfold defaultCommands in Hcmd. rewrite !elem_of_cons, elem_of_nil in Hcmd.
    destruct Hcmd as [[= -> _] | [[= -> _] | [[= -> _] | []]]]; done. }
  destruct (setTableDefault_spec key v tr fpos fnode Hf) as (tr1 & Hret1 & Hsel & _ & HF1).
  pose proof (findParent_Some _ _ _ _ _ Hf) as (Hin & Hty & _ & _).
  destruct (findParent_shape _ (selection tr) "table" (doc tr) (doc tr1) fpos fnode
              (λ _ _ H, proj1 H) HF1 Hf) as (fnode1 & Hf1 & _).
  rewrite <- Hsel in Hf1.
  destruct (setTableDefault_spec key v tr1 fpos fnode1 Hf1) as (tr2 & Hret2 & _ & _ & HF2).
  pose proof (findParent_Some _ _ _ _ _ Hf1) as (Hin1 & _ & _ & _).
  exists tr1, tr2. rewrite (defaultCommands_setTableDefault _ _ Hcmd).
  split_and!; [done | done |]. intros q c1 Hc1.
  destruct (written_nodeAt _ _ _ _ _ HF2 Hc1) as (c2 & Hc2 & Hty2 & Hsz2 & Ha2).
  exists c2. split_and!; try done. rewrite Ha2.
  destruct (lastWrite _ q) as [a |] eqn:Hl2; simpl; [| done].
  apply nodeAt_elem_of in Hc1 as Hc1in.
  rewrite (tableWrites_key _ _ _ _ _ _ _ _ _ Hc1in Hin1 Hl2).
  apply list_elem_of_lookup in Hc1in as [i Hi].
  apply Forall2_flip in HF1 as HF1'.
  destruct (Forall2_lookup_l _ _ _ _ _ HF1' Hi) as ([q0 c0] & Hi0 & [Hsh Ha1]).
  cbn [fst snd] in Hsh, Ha1. destruct Hsh as (Hq0 & _). simpl in Hq0. subst q0.
  apply list_elem_of_lookup_2 in Hi0 as Hc0in.
  assert (Forall2 (λ e e', sameShape e e' ∧ highlighted e'.2 = highlighted e.2)
            (descendants (doc tr)) (descendants (doc tr1))) as Hrel.
  { apply Forall2_same_length_lookup_2; [by eapply Forall2_length |].
    intros j [p m] e' He He'.
    destruct (Forall2_lookup_lr _ _ _ _ _ _ HF1 He He') as [Hsh Ha].
    split; [done |]. unfold highlighted. rewrite Ha. cbn [fst snd].
    destruct (lastWrite (tableWrites key v (selection tr) fpos fnode (doc tr)) p)
      as [a' |] eqn:Hl; cbn [default from_option id]; [| done].
    apply list_elem_of_lookup_2 in He.
    rewrite (tableWrites_key _ _ _ _ _ _ _ _ _ He Hin Hl).
    by rewrite lookup_insert_ne. }
  assert (q ∈ (tableWrites key v (selection tr) fpos fnode (doc tr)).*1) as Hq1.
  { assert (q ∈ (tableWrites key v (selection tr1) fpos fnode1 (doc tr1)).*1) as Hq2.
    { apply list_elem_of_fmap. eexists (q, _). split; [done |]. by apply lastWrite_Some. }
    unfold tableWrites in *. rewrite fmap_cons in *. rewrite Hsel in Hq2.
    by rewrite (defaultWrites_positions _ _ _ _ _ Hrel) in Hq2. }
  destruct (lastWrite_is_Some _ _ Hq1) as [a1 Hl1]. rewrite Hl1 in Ha1. simpl in Ha1.
  rewrite (tableWrites_key _ _ _ _ _ _ _ _ _ Hc0in Hin Hl1) in Ha1.
  rewrite Ha1. by rewrite insert_insert_eq.
Qed.

Lemma onlyTableAroundb_true l cs fpos :
  onlyTableAroundb l cs fpos = true →
  ∀ e, e ∈ l → isTable e.2 = true → e.1 < cs < e.1 + nodeSize e.2 → e.1 = fpos.
Proof.
  unfold onlyTableAroundb. rewrite forallb_forall.
  intros H e He%list_elem_of_In Ht [H1 H2]. specialize (H e He).
  apply Nat.ltb_lt in H1, H2. rewrite Ht, H1, H2 in H. simpl in H.
  by apply Nat.eqb_eq in H.
Qed.

Lemma default_command_frame_witness :
  ∃ tr', setDefaultTableBorder (VStr "2px solid") (startTr exTwoCells exCursor)
         = Returns true (Some tr')
    ∧ attrsAt (doc tr') 0 = Some (<["border" := VStr "2px solid"]> exTableAttrs).
Proof.
  destruct (default_command_frame "border" setDefaultTableBorder (VStr "2px solid")
              (startTr exTwoCells exCursor) 0 exTwoCellsTable)
    as (tr' & Hret & Ht & _); [left | vm_compute; reflexivity |].
  exists tr'. split; [exact Hret | exact Ht].
Defined.

Lemma default_command_isolated_witness :
  ∃ tr', setDefaultTableBorder (VStr "2px solid") (startTr exTwoTables exCursorSecond)
         = Returns true (Some tr')
    ∧ attrsAt (doc tr') 2 = Some exCellAttrs.
Proof.
  destruct (default_command_isolated "border" setDefaultTableBorder (VStr "2px solid")
              (startTr exTwoTables exCursorSecond) 9 exInner)
    as (tr' & Hret & Hout); [left | vm_compute; reflexivity | |].
  - apply onlyTableAroundb_true. vm_compute; reflexivity.
  - exists tr'. split; [exact Hret |].
    apply (Hout 2 (exCell [exPara])); [vm_compute; reflexivity | left; lia].
Defined.

Lemma default_command_idempotent_witness :
  ∃ tr1 tr2, setDefaultTableBorder (VStr "2px solid") (startTr exTwoCells exCursor)
             = Returns true (Some tr1)
    ∧ setDefaultTableBorder (VStr "2px solid") tr1 = Returns true (Some tr2).
Proof.
  destruct (default_command_idempotent "border" setDefaultTableBorder (VStr "2px solid")
              (startTr exTwoCells exCursor) 0 exTwoCellsTable)
    as (tr1 & tr2 & H1 & H2 & _); [left | vm_compute; reflexivity |].
  exists tr1, tr2. split; [exact H1 | exact H2].
Defined.

Lemma alternateColor_queue tr fpos fnode :
  findParentNodeOfType (selection tr) "table" (doc tr) = Some (fpos, fnode) →
  ∃ tr', alternateColor tr = Returns true (Some tr')
    ∧ applyWrites (alternateQueue (selection tr) fpos fnode (doc tr)) tr = Some tr'.
Proof.
  intros Hf. destruct (alternateColor_spec tr fpos fnode Hf) as (tr' & Hret & _).
  exists tr'. split; [done |]. revert Hret.
  pose proof (findParent_Some _ _ _ _ _ Hf) as (Hin & Hty & Htxt & _).
  unfold alternateColor, alternateQueue. rewrite Hf, applyWrites_cons. simpl.
  destruct (setNodeMarkup fpos _ tr) as [tr1 |] eqn:H1; simpl; [| done].
  pose proof (setNodeMarkup_spec _ _ _ _ H1) as (_ & _ & _ & HF1).
  assert (Forall2 sameEntry (descendants (doc tr)) (descendants (doc tr1))) as HE.
  { apply Forall2_same_length_lookup_2; [by eapply Forall2_length |].
    intros i [p n] e' He He'.
    destruct (Forall2_lookup_lr _ _ _ _ _ _ HF1 He He') as [Hsh Ha].
    split; [done |]. rewrite Ha. simpl. destruct (decide (p = fpos)) as [-> |]; [| done].
    f_equal. eapply descendants_unique; [exact Hin |]. by eapply list_elem_of_lookup_2. }
  pose proof (walk_alternate (from (selection tr)) (descendants (doc tr1)) noScope 0 tr1)
    as Hw.
  rewrite (alternateWrites_sameEntry _ _ _ HE) in Hw.
  destruct (walk _ _ _) as [[[sc n] t] |]; simpl in Hw; [| done].
  intros [= <-]. by rewrite <- Hw.
Qed.

Lemma bandOf_succ i : bandOf (i + 1) = if Nat.even i then bandingColor else noColor.
Proof.
  unfold bandOf.
  pose proof (Nat.div_mod_eq (i + 1) 2) as Hd.
  pose proof (Nat.mod_upper_bound (i + 1) 2 ltac:(lia)) as Hu.
  destruct (Nat.even i) eqn:E.
  - apply Nat.even_spec in E as [k Hk].
    destruct (Nat.eqb_spec ((i + 1) mod 2) 0); [lia | done].
  - assert (Nat.odd i = true) as O by (by rewrite <- Nat.negb_even, E).
    apply Nat.odd_spec in O as [k Hk].
    destruct (Nat.eqb_spec ((i + 1) mod 2) 0); [done | lia].
Qed.

(** X5: in a table of any number of plain rows that is the only table
    around the selection, the alternation command gives every cell without
    highlight the banding colour in rows 1, 3, 5, ... and the no-colour
    string in rows 2, 4, 6, ..., other attributes untouched; highlighted
    cells of the table keep all their attributes. *)
Theorem alternation_by_row d sel fpos ta rows :
  findParentNodeOfType sel "table" d = Some (fpos, Elem "table" ta rows) →
  (∀ e, e ∈ descendants d → isTable e.2 = true →
        e.1 < from sel < e.1 + nodeSize e.2 → e.1 = fpos) →
  Forall plainRow rows →
  ∃ tr', applyAlternateColor (startTr d sel) = Returns true (Some tr')
    ∧ ∀ i r q c, rows !! i = Some r →
        (q, c) ∈ descNode (fpos + 1 + fragSize (take i rows)) r →
        isCell c = true →
        attrsAt (doc tr') q
        = Some (if highlighted c then attrsOf c
                else <["background" := if Nat.even i then bandingColor else noColor]>
                       (attrsOf c)).
Proof.
  intros Hf Hout Hrows.
  destruct (alternate_table d sel fpos ta rows Hf Hout Hrows) as (tr' & Hret & Hcells).
  exists tr'. split; [done |]. intros i r q c Hi Hq Hc.
  destruct (highlighted c) eqn:Hh.
  - destruct (alternateColor_spec (startTr d sel) fpos _ Hf) as (tr'' & Hret' & _ & HF).
    rewrite Hret in Hret'. injection Hret' as <-. simpl in HF.
    pose proof (findParent_Some _ _ _ _ _ Hf) as (Hin & _ & _ & _).
    assert ((q, c) ∈ descendants d) as Hqd.
    { destruct (descFrag_subtree _ _ _ _ Hin) as (pre & post & Hd).
      fold (descendants d) in Hd. rewrite Hd, descNode_unfold.
      apply elem_of_app. right. apply elem_of_app. left. right.
      replace (fpos + 1) with (S fpos) in Hq by lia.
      exact (descFrag_lookup rows (S fpos) i r (q, c) Hi Hq). }
    apply nodeAt_elem_of in Hqd as Hn.
    destruct (written_nodeAt _ _ _ _ _ HF Hn) as (c' & Hc' & _ & _ & Ha).
    unfold attrsAt. rewrite Hc'. simpl. rewrite Ha.
    rewrite (alternateQueue_exempt sel fpos _ d q c); auto.
    intros ->. rewrite (descendants_unique _ _ _ _ Hqd Hin) in Hc. done.
  - rewrite (Hcells i r q c Hi Hq Hc Hh). by rewrite bandOf_succ.
Qed.

Lemma alternation_by_row_witness :
  ∃ tr', applyAlternateColor (startTr exFourRows exCursor) = Returns true (Some tr')
    ∧ attrsAt (doc tr') 2 = Some (<["background" := bandingColor]> exCellAttrs)
    ∧ attrsAt (doc tr') 9 = Some (<["background" := noColor]> exCellAttrs).
Proof.
  destruct (alternation_by_row exFourRows exCursor 0 exTableAttrs
              [exRow [exCell [exPara]]; exRow [exCell [exPara]];
               exRow [exCell [exPara]]; exRow [exCell [exPara]]])
    as (tr' & Hret & Hcells).
  - vm_compute; reflexivity.
  - apply onlyTableAroundb_true. vm_compute; reflexivity.
  - repeat (apply Forall_cons; split); try apply Forall_nil_2.
    all: split; [reflexivity |]; intros s e He; simpl in He.
    all: repeat (apply elem_of_cons in He as [He | He]; [by subst e |]).
    all: by apply elem_of_nil in He.
  - exists tr'. split; [exact Hret |]. split.
    + apply (Hcells 0 (exRow [exCell [exPara]]) 2 (exCell [exPara]));
        [reflexivity | | reflexivity].
      simpl. right. left.
    + apply (Hcells 1 (exRow [exCell [exPara]]) 9 (exCell [exPara]));
        [reflexivity | | reflexivity].
      simpl. right. left.
Defined.

Lemma altWrite_value cs st e w :
  w ∈ altWrite cs st e →
  w.1 = e.1
  ∧ ((isTable e.2 = true ∧ alternateOff e.2 = true
      ∧ w.2 = <["alternateColor" := VStr "true"]> (attrsOf e.2))
     ∨ (isCell e.2 = true ∧ highlighted e.2 = false
        ∧ (w.2 = <["background" := bandingColor]> (attrsOf e.2)
           ∨ w.2 = <["background" := noColor]> (attrsOf e.2)))).
Proof.
  unfold altWrite. rewrite elem_of_app. intros [Hw | Hw].
  - destruct (isTable e.2) eqn:Ht; simpl in Hw; [| by apply elem_of_nil in Hw].
    destruct (e.1 <? cs); simpl in Hw; [| by apply elem_of_nil in Hw].
    destruct (cs <? e.1 + nodeSize e.2); simpl in Hw; [| by apply elem_of_nil in Hw].
    destruct (alternateOff e.2) eqn:Hoff; [| by apply elem_of_nil in Hw].
    apply list_elem_of_singleton in Hw as ->. simpl. split; [done |]. by left.
  - destruct (inScope e.1 st.1); simpl in Hw; [| by apply elem_of_nil in Hw].
    destruct (isCell e.2) eqn:Hc; simpl in Hw; [| by apply elem_of_nil in Hw].
    destruct (highlighted e.2) eqn:Hh; simpl in Hw; [by apply elem_of_nil in Hw |].
    apply list_elem_of_singleton in Hw as ->. simpl. split; [done |]. right.
    split_and!; try done. destruct (negb _); [by left | by right].
Qed.

Lemma alternateWrites_value cs l : ∀ st w,
  w ∈ alternateWrites cs st l →
  ∃ m, (w.1, m) ∈ l
    ∧ ((isTable m = true ∧ alternateOff m = true
        ∧ w.2 = <["alternateColor" := VStr "true"]> (attrsOf m))
       ∨ (isCell m = true ∧ highlighted m = false
          ∧ (w.2 = <["background" := bandingColor]> (attrsOf m)
             ∨ w.2 = <["background" := noColor]> (attrsOf m)))).
Proof.
  induction l as [| [pos node] l IH]; intros st w; simpl; [intros []%elem_of_nil |].
  rewrite elem_of_app. intros [Hw | Hw].
  - apply altWrite_value in Hw as [Hp Hw]. simpl in *. exists node. rewrite Hp.
    split; [left | done].
  - apply IH in Hw as (m & Hm & ?). exists m. split; [by right | done].
Qed.

Lemma alternateQueue_table sel fpos fnode d :
  findParentNodeOfType sel "table" d = Some (fpos, fnode) →
  lastWrite (alternateQueue sel fpos fnode d) fpos
  = Some (if alternateOff fnode
          then <["alternateColor" := VStr "true"]> (attrsOf fnode) else attrsOf fnode).
Proof.
  intros Hf. pose proof (findParent_Some _ _ _ _ _ Hf) as (Hin & Hty & _ & Hlo & Hhi).
  assert (isTable fnode = true) as Ht by (unfold isTable; by rewrite Hty).
  assert (isCell fnode = false) as Hc by (unfold isCell; by rewrite Hty).
  unfold alternateQueue. cbn [lastWrite].
  apply list_elem_of_split in Hin as (l1 & l2 & Hd).
  pose proof (descendants_sorted d) as Hs. rewrite Hd in Hs |- *.
  rewrite (alternate_lastWrite _ _ _ _ _ _ Hs).
  unfold altWrite. cbn [fst snd]. rewrite Ht, Hc.
  apply Nat.ltb_lt in Hlo, Hhi. rewrite Hlo, Hhi. rewrite andb_false_r. simpl.
  rewrite app_nil_r. destruct (alternateOff fnode); simpl; by rewrite decide_True.
Qed.

(** X6: the alternation command turns the flag of the enclosing table on
    when it was the string "false" and leaves that table otherwise as it
    was; it adds or removes no node and keeps every position, type and
    size; a table can only get its flag turned on, a cell can only get one
    of the two backgrounds, a highlighted cell and any node that is
    neither table nor cell keep all their attributes. *)
Theorem alternation_frame tr fpos fnode :
  findParentNodeOfType (selection tr) "table" (doc tr) = Some (fpos, fnode) →
  ∃ tr', applyAlternateColor tr = Returns true (Some tr')
    ∧ selection tr' = selection tr ∧ mapping tr' = mapping tr
    ∧ fixTablesMeta tr' = fixTablesMeta tr
    ∧ attrsAt (doc tr') fpos
      = Some (if alternateOff fnode
              then <["alternateColor" := VStr "true"]> (attrsOf fnode)
              else attrsOf fnode)
    ∧ length (descendants (doc tr')) = length (descendants (doc tr))
    ∧ ∀ q c, nodeAt (doc tr) q = Some c →
        ∃ c', nodeAt (doc tr') q = Some c'
          ∧ typeName c' = typeName c ∧ nodeSize c' = nodeSize c
          ∧ (attrsOf c' = attrsOf c
             ∨ (isTable c = true ∧ alternateOff c = true
                ∧ attrsOf c' = <["alternateColor" := VStr "true"]> (attrsOf c))
             ∨ (isCell c = true ∧ highlighted c = false
                ∧ (attrsOf c' = <["background" := bandingColor]> (attrsOf c)
                   ∨ attrsOf c' = <["background" := noColor]> (attrsOf c)))).
Proof.
  intros Hf. unfold applyAlternateColor.
  destruct (alternateColor_queue tr fpos fnode Hf) as (tr' & Hret & Happ).
  apply applyWrites_inv in Happ as (Hsel & Hmap & Hmeta & HF).
  pose proof (findParent_Some _ _ _ _ _ Hf) as (Hin & Hty & _ & _).
  exists tr'. split_and!; try done.
  - apply nodeAt_elem_of in Hin as Hn.
    destruct (written_nodeAt _ _ _ _ _ HF Hn) as (c' & Hc' & _ & _ & Ha).
    unfold attrsAt. rewrite Hc'. simpl. rewrite Ha.
    by rewrite (alternateQueue_table _ _ _ _ Hf).
  - by rewrite (Forall2_length _ _ _ HF).
  - intros q c Hc. destruct (written_nodeAt _ _ _ _ _ HF Hc) as (c' & Hc' & Hty' & Hsz & Ha).
    exists c'. split_and!; try done. rewrite Ha.
    destruct (lastWrite _ q) as [a |] eqn:Hl; simpl; [| by left].
    apply nodeAt_elem_of in Hc.
    apply lastWrite_Some in Hl. unfold alternateQueue in Hl.
    apply elem_of_cons in Hl as [Hl | Hl].
    + injection Hl as -> ->. left.
      by rewrite (descendants_unique _ _ _ _ Hc Hin).
    + apply alternateWrites_value in Hl as (m & Hm & Hw). simpl in Hm, Hw.
      rewrite (descendants_unique _ _ _ _ Hm Hc) in Hw. by right.
Qed.

Lemma alternation_frame_witness :
  ∃ tr', applyAlternateColor (startTr exFourRows exCursor) = Returns true (Some tr')
    ∧ attrsAt (doc tr') 0 = Some (<["alternateColor" := VStr "true"]> exTableAttrs)
    ∧ length (descendants (doc tr')) = length (descendants exFourRows).
Proof.
  destruct (alternation_frame (startTr exFourRows exCursor) 0
              (exTable [exRow [exCell [exPara]]; exRow [exCell [exPara]];
                        exRow [exCell [exPara]]; exRow [exCell [exPara]]]))
    as (tr' & Hret & _ & _ & _ & Htab & Hlen & _); [vm_compute; reflexivity |].
  exists tr'. split; [exact Hret |]. split; [| exact Hlen].
  rewrite Htab. reflexivity.
Defined.

(** X17: the alternation command raises exactly when no table encloses the
    selection; otherwise it returns [true] and dispatches a transaction
    with the selection it started with. *)
Theorem alternation_outcome (tr : Transaction) :
  match findParentNodeOfType (selection tr) "table" (doc tr) with
  | None => applyAlternateColor tr = Throws
  | Some _ => ∃ tr', applyAlternateColor tr = Returns true (Some tr')
                     ∧ selection tr' = selection tr
  end.
Proof.
  destruct (findParentNodeOfType _ _ _) as [[fpos fnode] |] eqn:Hf.
  - destruct (alternateColor_spec tr fpos fnode Hf) as (tr' & Hret & Hsel & _).
    by exists tr'.
  - unfold applyAlternateColor, alternateColor. by rewrite Hf.
Qed.

Lemma scanAlt_shape cs l l' :
  Forall2 sameShape l l' → ∀ st, scanAlt cs st l' = scanAlt cs st l.
Proof.
  induction 1 as [| e e' l l' Hsh _ IH]; intros st; [done |].
  unfold scanAlt in *. simpl. by rewrite (altStep_shape _ _ _ _ Hsh), IH.
Qed.

(** The attributes the alternation walk leaves at an entry, from the
    scope and counter it has reached there. *)
Lemma alternateQueue_at sel fpos fnode d l1 q c l2 :
  descendants d = l1 ++ (q, c) :: l2 →
  lastWrite (alternateQueue sel fpos fnode d) q
  = match lastWrite (altWrite (from sel)
                       (altStep (from sel) (scanAlt (from sel) (noScope, 0) l1) (q, c))
                       (q, c)) q with
    | Some a => Some a
    | None => if decide (fpos = q) then Some (attrsOf fnode) else None
    end.
Proof.
  intros Hd. unfold alternateQueue. cbn [lastWrite].
  pose proof (descendants_sorted d) as Hs. rewrite Hd in Hs |- *.
  by rewrite (alternate_lastWrite _ _ _ _ _ _ Hs).
Qed.

Lemma altWrite_again cs st q c c1 fpos fn fn1 :
  sameShape (q, c) (q, c1) →
  (fpos = q → fn = c ∧ fn1 = c1 ∧ isTable c = true) →
  attrsOf c1
  = default (attrsOf c)
      (match lastWrite (altWrite cs st (q, c)) q with
       | Some a => Some a
       | None => if decide (fpos = q) then Some (attrsOf fn) else None
       end) →
  ∀ a2, match lastWrite (altWrite cs st (q, c1)) q with
        | Some a => Some a
        | None => if decide (fpos = q) then Some (attrsOf fn1) else None
        end = Some a2 →
        a2 = attrsOf c1.
Proof.
  intros (_ & Hty & Hsz & _) Hfp. cbn [fst snd] in Hty, Hsz.
  unfold altWrite. cbn [fst snd].
  assert (isTable c1 = isTable c) as Ht1 by (unfold isTable; by rewrite Hty).
  assert (isCell c1 = isCell c) as Hc1 by (unfold isCell; by rewrite Hty).
  rewrite Ht1, Hc1, Hsz.
  destruct (isCell c) eqn:Hc.
  - rewrite (isCell_not_table _ Hc). cbn [andb app].
    assert (fpos ≠ q) as Hne.
    { intros Heq. destruct (Hfp Heq) as (_ & _ & Ht).
      by rewrite (isCell_not_table _ Hc) in Ht. }
    rewrite !andb_true_r, !(decide_False (P := fpos = q)) by done.
    destruct (inScope q st.1); cbn [andb negb lastWrite]; [| done].
    destruct (highlighted c) eqn:Hh; cbn [negb lastWrite default from_option id].
    + intros Ha1.
      assert (highlighted c1 = true) as ->
        by (unfold highlighted in *; by rewrite Ha1).
      done.
    + rewrite decide_True by done. cbn [default from_option id]. intros Ha1.
      assert (highlighted c1 = false) as ->.
      { unfold highlighted in *. by rewrite Ha1, lookup_insert_ne. }
      cbn [negb lastWrite]. rewrite decide_True by done. intros a2 [= <-].
      by rewrite Ha1, insert_insert_eq.
  - rewrite !andb_false_r, !app_nil_r.
    assert (∀ fn', fn' = fn ∨ fn' = fn1 →
              ∀ x a2, (if decide (fpos = q) then Some (attrsOf fn') else None) = Some a2 →
                      (fpos = q → fn' = x) → a2 = attrsOf x) as Hfirst.
    { intros fn' _ x a2. case_decide as Heq; [| done]. intros [= <-] Hx. by rewrite Hx. }
    destruct (isTable c && (q <? cs) && (cs <? q + nodeSize c)) eqn:Hcond;
      cbn [andb lastWrite].
    + destruct (alternateOff c) eqn:Hoff; cbn [lastWrite].
      * rewrite decide_True by done. cbn [default from_option id]. intros Ha1.
        assert (alternateOff c1 = false) as ->.
        { unfold alternateOff. by rewrite Ha1, lookup_insert_eq. }
        cbn [lastWrite]. intros a2 Ha2.
        apply (Hfirst fn1 (or_intror eq_refl) c1 a2 Ha2). by intros (_ & ? & _)%Hfp.
      * intros Ha1.
        assert (attrsOf c1 = attrsOf c) as Hsame.
        { rewrite Ha1. case_decide as Heq; [| done]. cbn [default from_option id].
          by destruct (Hfp Heq) as (-> & _). }
        assert (alternateOff c1 = false) as ->
          by (unfold alternateOff in *; by rewrite Hsame).
        cbn [lastWrite]. intros a2 Ha2.
        apply (Hfirst fn1 (or_intror eq_refl) c1 a2 Ha2). by intros (_ & ? & _)%Hfp.
    + intros _ a2 Ha2.
      apply (Hfirst fn1 (or_intror eq_refl) c1 a2 Ha2). by intros (_ & ? & _)%Hfp.
Qed.

(** X18: running the alternation command a second time changes nothing:
    every node has the position, type, size and attributes the first run
    left, so the command cannot be used to turn the banding off again. *)
Theorem alternation_idempotent tr fpos fnode :
  findParentNodeOfType (selection tr) "table" (doc tr) = Some (fpos, fnode) →
  ∃ tr1 tr2, applyAlternateColor tr = Returns true (Some tr1)
    ∧ applyAlternateColor tr1 = Returns true (Some tr2)
    ∧ ∀ q c1, nodeAt (doc tr1) q = Some c1 →
        ∃ c2, nodeAt (doc tr2) q = Some c2 ∧ typeName c2 = typeName c1
              ∧ nodeSize c2 = nodeSize c1 ∧ attrsOf c2 = attrsOf c1.
Proof.
  intros Hf. unfold applyAlternateColor.
  destruct (alternateColor_queue tr fpos fnode Hf) as (tr1 & Hret1 & Happ1).
  apply applyWrites_inv in Happ1 as (Hsel & _ & _ & HF1).
  pose proof (findParent_Some _ _ _ _ _ Hf) as (Hin & Hty & _ & _).
  destruct (findParent_shape _ (selection tr) "table" (doc tr) (doc tr1) fpos fnode
              (λ _ _ H, proj1 H) HF1 Hf) as (fnode1 & Hf1 & _).
  rewrite <- Hsel in Hf1.
  destruct (alternateColor_queue tr1 fpos fnode1 Hf1) as (tr2 & Hret2 & Happ2).
  apply applyWrites_inv in Happ2 as (_ & _ & _ & HF2).
  pose proof (findParent_Some _ _ _ _ _ Hf1) as (Hin1 & _ & _ & _).
  exists tr1, tr2. split_and!; [done | done |]. intros q c1 Hc1.
  destruct (written_nodeAt _ _ _ _ _ HF2 Hc1) as (c2 & Hc2 & Hty2 & Hsz2 & Ha2).
  exists c2. split_and!; try done. rewrite Ha2.
  destruct (lastWrite _ q) as [a2 |] eqn:Hl2; cbn [default from_option id]; [| done].
  apply nodeAt_elem_of in Hc1 as Hc1in.
  apply list_elem_of_lookup in Hc1in as [i Hi]. pose proof Hi as Hi1.
  apply Forall2_flip in HF1 as HF1'.
  destruct (Forall2_lookup_l _ _ _ _ _ HF1' Hi) as ([q0 c] & Hi0 & [Hsh Ha1]).
  cbn [fst snd] in Ha1. pose proof Hsh as (Hq0 & _). cbn [fst snd] in Hq0. subst q0.
  assert (descendants (doc tr) = take i (descendants (doc tr)) ++ (q, c)
            :: drop (S i) (descendants (doc tr))) as Hd
    by (by rewrite take_drop_middle).
  assert (descendants (doc tr1) = take i (descendants (doc tr1)) ++ (q, c1)
            :: drop (S i) (descendants (doc tr1))) as Hd1
    by (by rewrite take_drop_middle).
  assert (Forall2 sameShape (take i (descendants (doc tr))) (take i (descendants (doc tr1))))
    as Hpre.
  { apply Forall2_take. eapply Forall2_impl; [exact HF1 |]. by intros ?? [? _]. }
  rewrite (alternateQueue_at _ _ _ _ _ _ _ _ Hd) in Ha1.
  rewrite (alternateQueue_at _ _ _ _ _ _ _ _ Hd1) in Hl2.
  rewrite Hsel, (scanAlt_shape _ _ _ Hpre), (altStep_shape _ _ _ _ Hsh) in Hl2.
  eapply altWrite_again; [exact Hsh | | exact Ha1 | exact Hl2].
  intros ->. apply list_elem_of_lookup_2 in Hi0, Hi1.
  split_and!.
  - by eapply descendants_unique.
  - by eapply descendants_unique.
  - rewrite <- (descendants_unique _ _ _ _ Hin Hi0). unfold isTable. by rewrite Hty.
Qed.

Lemma alternation_idempotent_witness :
  ∃ tr1 tr2,
    applyAlternateColor (startTr exFourRows exCursor) = Returns true (Some tr1)
    ∧ applyAlternateColor tr1 = Returns true (Some tr2)
    ∧ attrsAt (doc tr2) 9 = attrsAt (doc tr1) 9.
Proof.
  destruct (alternation_idempotent (startTr exFourRows exCursor) 0
              (exTable [exRow [exCell [exPara]]; exRow [exCell [exPara]];
                        exRow [exCell [exPara]]; exRow [exCell [exPara]]]))
    as (tr1 & tr2 & Hret1 & Hret2 & Hsame); [vm_compute; reflexivity |].
  exists tr1, tr2. split; [exact Hret1 |]. split; [exact Hret2 |].
  unfold attrsAt. destruct (nodeAt (doc tr1) 9) as [c1 |] eqn:Hc1.
  - destruct (Hsame 9 c1 Hc1) as (c2 & Hc2 & _ & _ & Ha).
    rewrite Hc2. simpl. rewrite Ha. reflexivity.
  - exfalso. revert Hc1. unfold applyAlternateColor in Hret1.
    destruct (alternateColor_spec (startTr exFourRows exCursor) 0 _ eq_refl)
      as (tr1' & Hret1' & _ & HF).
    rewrite Hret1 in Hret1'. injection Hret1' as <-.
    destruct (written_nodeAt _ _ _ 9 (exCell [exPara]) HF) as (c' & -> & _);
      [vm_compute; reflexivity | done].
Defined.

Lemma perCell_keeps gR gS tr tr1 :
  perCell gR gS tr = Returns true (Some tr1) →
  selection tr1 = selection tr ∧ mapping tr1 = mapping tr
  ∧ fixTablesMeta tr1 = fixTablesMeta tr.
Proof.
  unfold perCell. destruct (cellRange (selection tr)) as [cells |].
  - destruct (forEachCell _ _ _ _) as [tr' |] eqn:Hf; [| done]. intros [= <-].
    apply forEachCell_writes in Hf as (ws & _ & Happ).
    by apply applyWrites_inv in Happ as (? & ? & ? & _).
  - destruct (findParentNodeOfType _ _ _) as [[pos node] |]; [| done].
    destruct (setNodeMarkup _ _ _) as [tr' |] eqn:Hs; [| done]. intros [= <-].
    by apply setNodeMarkup_spec in Hs as (? & ? & ? & _).
Qed.

Lemma cellCommands_perCell bg b bc sel cmd g :
  (cmd, g) ∈ cellCommands bg b bc sel →
  ∃ gR gS, (∀ tr, cmd tr = perCell gR gS tr) ∧ g = perCellAttrs gR gS sel.
Proof.
  unfold cellCommands. rewrite !elem_of_cons, elem_of_nil.
  intros [[= -> ->] | [[= -> ->] | [[= -> ->] | []]]].
  - exists (backgroundMark bg), (backgroundMark bg). split.
    + apply setTableCellBackground_perCell.
    + unfold perCellAttrs. by destruct (cellRange sel).
  - exists (highlightMark b bc), (highlightMark b bc). split.
    + apply highlightSelection_perCell.
    + unfold perCellAttrs. by destruct (cellRange sel).
  - exists (λ a, <["highlight" := VBool false]>
                 (<["borderColor" := VNull]> (<["border" := VNull]> a))),
           (λ a, <["highlight" := VBool false]> a).
    split; [apply removeHighlightSelection_perCell |].
    unfold perCellAttrs, clearMark. by destruct (cellRange sel).
Qed.

Lemma targetsOkb_true sel d :
  targetsOkb sel d = true →
  ∀ q, q ∈ targetCells sel d → ∃ c, nodeAt d q = Some c ∧ isText c = false.
Proof.
  unfold targetsOkb. rewrite forallb_forall. intros H q Hq%list_elem_of_In.
  specialize (H q Hq). destruct (nodeAt d q) as [c |]; [| done].
  exists c. split; [done |]. by destruct (isText c).
Qed.

Lemma perCell_frame gR gS tr :
  is_Some (cellRange (selection tr)) ∨ targetCells (selection tr) (doc tr) ≠ [] →
  (∀ q, q ∈ targetCells (selection tr) (doc tr) →
        ∃ c, nodeAt (doc tr) q = Some c ∧ isText c = false) →
  ∃ tr', perCell gR gS tr = Returns true (Some tr')
    ∧ selection tr' = selection tr
    ∧ Forall2 sameShape (descendants (doc tr)) (descendants (doc tr'))
    ∧ ∀ q c, nodeAt (doc tr) q = Some c →
        ∃ c', nodeAt (doc tr') q = Some c'
          ∧ typeName c' = typeName c ∧ nodeSize c' = nodeSize c
          ∧ isText c' = isText c
          ∧ attrsOf c' = if decide (q ∈ targetCells (selection tr) (doc tr))
                         then perCellAttrs gR gS (selection tr) (attrsOf c)
                         else attrsOf c.
Proof.
  intros Hsome Hwf. destruct (perCell_returns gR gS tr Hsome Hwf) as [tr' Hret].
  exists tr'. split; [done |].
  pose proof (perCell_keeps _ _ _ _ Hret) as (Hsel & _ & _).
  destruct (perCell_spec _ _ _ _ Hret) as (ws & HF & Hin & Hout).
  split_and!; [done | |].
  - eapply Forall2_impl; [exact HF |]. by intros e e' [? _].
  - intros q c Hc. apply nodeAt_elem_of in Hc as Hm.
    assert (∀ e e', written ws e e' → sameShape e e') as Hsh by (by intros e e' [? _]).
    destruct (Forall2_sameShape_elem_of (written ws) _ _ q c Hsh HF Hm)
      as (c' & Hc' & (_ & Hty & Hsz & Htx) & Ha).
    simpl in *. exists c'. apply nodeAt_elem_of in Hc'. split_and!; try done.
    rewrite Ha. case_decide as Hq.
    + by rewrite (Hin q c Hq Hc).
    + by rewrite (Hout q Hq).
Qed.

(** X7: each of the three per-cell commands, run on a cell selection whose
    positions hold cells or on a cursor inside a [tableCell], returns
    [true], keeps the selection, adds or removes no node, and rewrites the
    attributes of exactly the targeted cells, each by the rewrite of the
    command; every other node keeps its attributes. *)
Theorem cell_command_frame bg b bc tr cmd g :
  (cmd, g) ∈ cellCommands bg b bc (selection tr) →
  is_Some (cellRange (selection tr)) ∨ targetCells (selection tr) (doc tr) ≠ [] →
  (∀ q, q ∈ targetCells (selection tr) (doc tr) →
        ∃ c, nodeAt (doc tr) q = Some c ∧ isText c = false) →
  ∃ tr', cmd tr = Returns true (Some tr')
    ∧ selection tr' = selection tr
    ∧ length (descendants (doc tr')) = length (descendants (doc tr))
    ∧ ∀ q c, nodeAt (doc tr) q = Some c →
        ∃ c', nodeAt (doc tr') q = Some c'
          ∧ typeName c' = typeName c ∧ nodeSize c' = nodeSize c
          ∧ attrsOf c' = if decide (q ∈ targetCells (selection tr) (doc tr))
                         then g (attrsOf c) else attrsOf c.
Proof.
  intros Hcmd Hsome Hwf.
  destruct (cellCommands_perCell _ _ _ _ _ _ Hcmd) as (gR & gS & Hp & ->).
  rewrite Hp. destruct (perCell_frame gR gS tr Hsome Hwf) as (tr' & Hret & Hsel & HF & Hat).
  exists tr'. split_and!; [done | done | by rewrite (Forall2_length _ _ _ HF) |].
  intros q c Hc. destruct (Hat q c Hc) as (c' & ? & ? & ? & _ & ?). by exists c'.
Qed.

Lemma cell_command_frame_witness :
  ∃ tr', removeHighlightSelection (startTr exTwoCells exRange) = Returns true (Some tr')
    ∧ attrsAt (doc tr') 7
      = Some (<["highlight" := VBool false]>
              (<["borderColor" := VNull]> (<["border" := VNull]> exCellAttrs)))
    ∧ attrsAt (doc tr') 0 = Some exTableAttrs.
Proof.
  destruct (cell_command_frame VNull VNull VNull (startTr exTwoCells exRange)
              removeHighlightSelection (clearMark exRange))
    as (tr' & Hret & _ & _ & Hat).
  - right. right. left.
  - left. by eexists.
  - apply targetsOkb_true. vm_compute; reflexivity.
  - exists tr'. split; [exact Hret |]. split.
    + destruct (Hat 7 (exCell [exPara])) as (c' & Hc' & _ & _ & Ha);
        [vm_compute; reflexivity |].
      unfold attrsAt. rewrite Hc'. simpl. rewrite Ha. reflexivity.
    + destruct (Hat 0 exTwoCellsTable) as (c' & Hc' & _ & _ & Ha);
        [vm_compute; reflexivity |].
      unfold attrsAt. rewrite Hc'. simpl. rewrite Ha. reflexivity.
Defined.

(** X8: with a plain cursor the three per-cell commands never raise: when
    no [tableCell] encloses the cursor (as inside a header cell, or outside
    any table) each returns [false] and dispatches nothing; otherwise each
    returns [true] and dispatches a transaction with the selection, the
    position mapping and the metadata unchanged. *)
Theorem cell_command_cursor bg b bc tr :
  cellRange (selection tr) = None →
  match findParentNodeOfType (selection tr) "tableCell" (doc tr) with
  | None =>
      ∀ o, o ∈ [setTableCellBackground bg tr; highlightSelection b bc tr;
                removeHighlightSelection tr] → o = Returns false None
  | Some _ =>
      ∀ o, o ∈ [setTableCellBackground bg tr; highlightSelection b bc tr;
                removeHighlightSelection tr] →
        ∃ tr', o = Returns true (Some tr') ∧ selection tr' = selection tr
               ∧ mapping tr' = mapping tr ∧ fixTablesMeta tr' = fixTablesMeta tr
  end.
Proof.
  intros Hr.
  assert (∀ o, o ∈ [setTableCellBackground bg tr; highlightSelection b bc tr;
                    removeHighlightSelection tr] →
               ∃ gR gS, o = perCell gR gS tr) as Hper.
  { intros o. rewrite !elem_of_cons, elem_of_nil. intros [-> | [-> | [-> | []]]].
    - eexists _, _. apply setTableCellBackground_perCell.
    - eexists _, _. apply highlightSelection_perCell.
    - eexists _, _. apply removeHighlightSelection_perCell. }
  destruct (findParentNodeOfType _ _ _) as [[pos node] |] eqn:Hf.
  - intros o (gR & gS & ->)%Hper.
    destruct (perCell_returns gR gS tr) as [tr' Hret].
    { right. unfold targetCells. by rewrite Hr, Hf. }
    { intros q. unfold targetCells. rewrite Hr, Hf. intros ->%list_elem_of_singleton.
      apply findParent_Some in Hf as (Hin%nodeAt_elem_of & _ & Ht & _). by exists node. }
    exists tr'. split; [done |]. by apply perCell_keeps in Hret.
  - intros o (gR & gS & ->)%Hper. unfold perCell. by rewrite Hr, Hf.
Qed.

Lemma cell_command_cursor_witness :
  highlightSelection (VStr "1px solid") (VStr "red") (startTr exNoTable exCursorPara)
  = Returns false None.
Proof.
  pose proof (cell_command_cursor VNull (VStr "1px solid") (VStr "red")
                (startTr exNoTable exCursorPara) eq_refl) as H.
  assert (findParentNodeOfType (selection (startTr exNoTable exCursorPara)) "tableCell"
            (doc (startTr exNoTable exCursorPara)) = None) as Hf
    by (vm_compute; reflexivity).
  rewrite Hf in H. apply H. right. left.
Defined.

Lemma clear_after_highlight b bc (a : Attrs) :
  <["highlight" := VBool false]> (<["borderColor" := VNull]> (<["border" := VNull]>
    (highlightMark b bc a)))
  = <["highlight" := VBool false]> (<["borderColor" := VNull]> (<["border" := VNull]> a)).
Proof.
  unfold highlightMark. apply map_eq. intros k.
  destruct (decide (k = "highlight")) as [-> | H1]; [by simplify_map_eq |].
  destruct (decide (k = "borderColor")) as [-> | H2]; [by simplify_map_eq |].
  destruct (decide (k = "border")) as [-> | H3]; by simplify_map_eq.
Qed.

(** X9: highlighting a cell selection and then clearing the highlight does
    not bring the cells back: both commands return [true], and afterwards
    every selected cell has [border] and [borderColor] null and
    [highlight] false whatever they were before, with its other attributes
    as at the start; every other node is as at the start. *)
Theorem highlight_then_clear b bc tr :
  is_Some (cellRange (selection tr)) →
  (∀ q, q ∈ targetCells (selection tr) (doc tr) →
        ∃ c, nodeAt (doc tr) q = Some c ∧ isText c = false) →
  ∃ tr1 tr2,
    highlightSelection b bc tr = Returns true (Some tr1)
    ∧ removeHighlightSelection tr1 = Returns true (Some tr2)
    ∧ ∀ q c, nodeAt (doc tr) q = Some c →
        ∃ c2, nodeAt (doc tr2) q = Some c2
          ∧ typeName c2 = typeName c ∧ nodeSize c2 = nodeSize c
          ∧ attrsOf c2
            = if decide (q ∈ targetCells (selection tr) (doc tr))
              then <["highlight" := VBool false]>
                     (<["borderColor" := VNull]> (<["border" := VNull]> (attrsOf c)))
              else attrsOf c.
Proof.
  intros Hr Hwf. rewrite highlightSelection_perCell.
  destruct (perCell_frame (highlightMark b bc) (highlightMark b bc) tr (or_introl Hr) Hwf)
    as (tr1 & Hret1 & Hsel1 & HF1 & Hat1).
  assert (targetCells (selection tr1) (doc tr1) = targetCells (selection tr) (doc tr)) as Ht.
  { unfold targetCells. rewrite Hsel1. by destruct Hr as [cells ->]. }
  exists tr1. 
  destruct (perCell_frame (λ a, <["highlight" := VBool false]>
                               (<["borderColor" := VNull]> (<["border" := VNull]> a)))
              (λ a, <["highlight" := VBool false]> a) tr1)
    as (tr2 & Hret2 & Hsel2 & HF2 & Hat2).
  { left. by rewrite Hsel1. }
  { intros q Hq. rewrite Ht in Hq. destruct (Hwf q Hq) as (c & Hc & Htx).
    destruct (Hat1 q c Hc) as (c1 & Hc1 & _ & _ & Htx1 & _). exists c1. split; congruence. }
  exists tr2. rewrite removeHighlightSelection_perCell.
  split; [exact Hret1 |]. split; [exact Hret2 |].
  intros q c Hc. destruct (Hat1 q c Hc) as (c1 & Hc1 & Hty1 & Hsz1 & _ & Ha1).
  destruct (Hat2 q c1 Hc1) as (c2 & Hc2 & Hty2 & Hsz2 & _ & Ha2).
  exists c2. split_and!; [done | congruence | congruence |].
  rewrite Ha2, Ht, Ha1.
  destruct (decide (q ∈ targetCells (selection tr) (doc tr))); [| done].
  unfold perCellAttrs. rewrite Hsel1. destruct Hr as [cells ->].
  apply clear_after_highlight.
Qed.

Lemma highlight_then_clear_witness :
  ∃ tr1 tr2,
    highlightSelection (VStr "4px dashed") (VStr "blue") (startTr exTwoCells exRange)
    = Returns true (Some tr1)
    ∧ removeHighlightSelection tr1 = Returns true (Some tr2)
    ∧ attrsAt (doc tr2) 2
      = Some (<["highlight" := VBool false]>
              (<["borderColor" := VNull]> (<["border" := VNull]> exCellAttrs))).
Proof.
  destruct (highlight_then_clear (VStr "4px dashed") (VStr "blue")
              (startTr exTwoCells exRange))
    as (tr1 & tr2 & Hret1 & Hret2 & Hat).
  - by eexists.
  - apply targetsOkb_true. vm_compute; reflexivity.
  - exists tr1, tr2. split; [exact Hret1 |]. split; [exact Hret2 |].
    destruct (Hat 2 (exCell [exPara])) as (c2 & Hc2 & _ & _ & Ha);
      [vm_compute; reflexivity |].
    unfold attrsAt. rewrite Hc2. simpl. rewrite Ha. reflexivity.
Defined.

Lemma slot_negative m i : (i < 0)%Z → slot m i = None.
Proof. intros Hi. unfold slot. by destruct (Z.ltb_spec i 0); [| lia]. Qed.

(** X10: in a table of one column, adding a column in front of it raises
    for every document and every table map, before anything is passed to
    [dispatch]: the reference column is the one before the first, where the
    map has no cell; [addColumnBefore] run inside such a table raises with
    it. *)
Theorem addColumn_first_of_one createAndFill isInTable selectedRect tr rect st dispatch :
  width (rmap rect) = 1%Z → (0 < height (rmap rect))%Z →
  addColumn createAndFill tr rect 0 dispatch = quiet Raises
  ∧ (isInTable st = true → selectedRect st = rect → left rect = 0%Z →
     addColumnBefore createAndFill isInTable selectedRect st true = quiet Raises).
Proof.
  intros Hw Hh.
  assert (∀ t d, addColumn createAndFill t rect 0 d = quiet Raises) as Hthrows.
  { intros t d. unfold addColumn. cbv zeta.
    destruct (Z.to_nat (height (rmap rect))) as [| fuel] eqn:Hf; [lia |].
    cbn [addColumnRows]. destruct (Z.leb_spec (height (rmap rect)) 0); [lia |].
    unfold addColumnRow, refColumn. rewrite Hw. simpl.
    rewrite ?slot_negative by lia. done. }
  split; [apply Hthrows |]. intros Hin Hrect Hleft.
  unfold addColumnBefore, structural. rewrite Hin, Hrect, Hleft. simpl.
  by rewrite Hthrows.
Qed.

Lemma addColumn_first_of_one_witness :
  addColumn exCreate (startTr (exDoc [exOneCell]) exCursor) exOneCellRect 0 true
  = quiet Raises.
Proof.
  apply (addColumn_first_of_one exCreate (λ _, true) (λ _, exOneCellRect)
           (startTr (exDoc [exOneCell]) exCursor) exOneCellRect
           {| sdoc := exDoc [exOneCell]; sselection := exCursor |} true);
    [reflexivity | reflexivity].
Defined.

(** X11: in a table of one row, adding a row in front of it raises for
    every document and every table map, before anything is passed to
    [dispatch]: the reference row is the one before the first;
    [addRowBefore] run inside such a table raises with it. *)
Theorem addRow_first_of_one createAndFill rowDefaults isInTable selectedRect tr rect st
    dispatch :
  height (rmap rect) = 1%Z → (0 < width (rmap rect))%Z →
  addRow createAndFill rowDefaults tr rect 0 dispatch = quiet Raises
  ∧ (isInTable st = true → selectedRect st = rect → top rect = 0%Z →
     addRowBefore createAndFill rowDefaults isInTable selectedRect st true = quiet Raises).
Proof.
  intros Hh Hw.
  assert (∀ t d, addRow createAndFill rowDefaults t rect 0 d = quiet Raises) as Hthrows.
  { intros t d. unfold addRow. cbv zeta. simpl.
    destruct (Z.to_nat (width (rmap rect))) as [| fuel] eqn:Hf; [lia |].
    cbn [addRowCols]. destruct (Z.leb_spec (width (rmap rect)) 0); [lia |].
    unfold addRowCol, refRow. rewrite Hh. simpl.
    rewrite slot_negative by lia. change (Z.to_nat 0) with 0.
    by destruct (contentOf (table rect)). }
  split; [apply Hthrows |]. intros Hin Hrect Htop.
  unfold addRowBefore, structural. rewrite Hin, Hrect, Htop. simpl.
  by rewrite Hthrows.
Qed.

Lemma addRow_first_of_one_witness :
  addRow exCreate ∅ (startTr (exDoc [exOneCell]) exCursor) exOneCellRect 0 true
  = quiet Raises.
Proof.
  apply (addRow_first_of_one exCreate ∅ (λ _, true) (λ _, exOneCellRect)
           (startTr (exDoc [exOneCell]) exCursor) exOneCellRect
           {| sdoc := exDoc [exOneCell]; sselection := exCursor |} true);
    [reflexivity | reflexivity].
Defined.

Lemma slot_colCount m i pos : slot m i = Some pos → is_Some (colCount m pos).
Proof.
  unfold slot, colCount. destruct (i <? 0)%Z; [done |]. intros Hl.
  destruct (list_find_elem_of (λ q, q = pos) (map m) pos) as [[j x] Hj];
    [by eapply list_elem_of_lookup_2 | done |].
  rewrite Hj. by eexists.
Qed.

Lemma addColSpan_other a pos a' k :
  addColSpan a pos = Gives a' → k ≠ "colspan" → k ≠ "colwidth" → a' !! k = a !! k.
Proof.
  unfold addColSpan. destruct (numAttr a "colspan") as [c |]; [| done]. simpl.
  intros Ha Hk1 Hk2. repeat case_match; simplify_eq; by rewrite ?lookup_insert_ne by done.
Qed.

Lemma addColSpan_spliceable a pos w :
  numAttr a "colspan" = Some w →
  if spliceable a then ∃ a', addColSpan a pos = Gives a' else addColSpan a pos = Raises.
Proof.
  unfold addColSpan, spliceable. intros ->. simpl.
  repeat case_match; simplify_eq; simpl in *; try done; by eexists.
Qed.

(** X12: a turn of the column loop at a slot inside a cell that spans
    from the column before.  With a [colwidth] that is an array or unset
    the turn succeeds: the cell's [colspan] becomes the double nearest to
    [colspan + 1] (which is [colspan + 1] below 2^53 and [colspan] itself
    at 2^53), no attribute other than [colspan] and [colwidth] changes,
    nothing is inserted (no node is added, positions keep mapping the same
    way, the selection stays), and the loop goes on at the double of
    [row + (rowspan - 1) + 1], which is [row + rowspan] for numbers below
    2^52.  With any other [colwidth] the turn raises. *)
Theorem addColumnRow_span createAndFill m tStart tbl col row tr pos cell w rs target :
  (0 < col < width m)%Z →
  slot m (row * width m + col - 1) = Some pos →
  slot m (row * width m + col) = Some pos →
  nodeAt tbl pos = Some cell →
  numAttr (attrsOf cell) "colspan" = Some w →
  numAttr (attrsOf cell) "rowspan" = Some rs →
  nodeAt (doc tr) (mapPos (mapping tr) (tStart + pos)) = Some target →
  isText target = false →
  if spliceable (attrsOf cell)
  then
    ∃ tr' a next,
      addColumnRow createAndFill m tStart tbl col row tr = Gives (tr', next)
      ∧ next = jsAdd (jsAdd row (jsSub rs 1)) 1
      ∧ ((Z.abs row < 2 ^ 52)%Z → (Z.abs rs < 2 ^ 52)%Z → next = (row + rs)%Z)
      ∧ mapping tr' = mapping tr ∧ selection tr' = selection tr
      ∧ length (descendants (doc tr')) = length (descendants (doc tr))
      ∧ attrsAt (doc tr') (mapPos (mapping tr) (tStart + pos)) = Some a
      ∧ a !! "colspan" = Some (VNum (jsAdd w 1))
      ∧ ((Z.abs (w + 1) < 2 ^ 53)%Z → a !! "colspan" = Some (VNum (w + 1)))
      ∧ (w = (2 ^ 53)%Z → a !! "colspan" = Some (VNum w))
      ∧ ∀ k, k ≠ "colspan" → k ≠ "colwidth" → a !! k = attrsOf cell !! k
  else addColumnRow createAndFill m tStart tbl col row tr = Raises.
Proof.
  intros [Hc1 Hc2] Hs1 Hs2 Hcell Hw Hrs Htarget Htext. unfold addColumnRow.
  destruct (Z.ltb_spec 0 col); [| lia]. destruct (Z.ltb_spec col (width m)); [| lia].
  rewrite Hs1, Hs2, bool_decide_eq_true_2 by done. simpl. rewrite Hcell. simpl.
  destruct (slot_colCount _ _ _ Hs2) as [cc ->]. simpl.
  pose proof (addColSpan_spliceable (attrsOf cell) (col - cc) w Hw) as Hsp.
  destruct (spliceable (attrsOf cell)); [| by rewrite Hsp].
  destruct Hsp as [a Ha]. rewrite Ha. simpl.
  apply nodeAt_elem_of in Htarget as Hin.
  destruct (setNodeMarkup_is_Some _ a _ _ Hin Htext) as [tr' Hset].
  rewrite Hset. simpl. rewrite Hrs. simpl. exists tr', a, (jsAdd (jsAdd row (jsSub rs 1)) 1).
  change (applyWrites [(mapPos (mapping tr) (tStart + pos), a)] tr = Some tr') in Hset.
  apply applyWrites_inv in Hset as (Hsel & Hmap & _ & HF).
  pose proof (addColSpan_colspan _ _ _ _ Hw Ha) as Hspan.
  split_and!; [done | done | | done | done | by rewrite (Forall2_length _ _ _ HF)
               | | done | | |].
  - intros Hrow Hrs'. rewrite (jsSub_exact rs 1) by lia.
    rewrite (jsAdd_exact row (rs - 1)) by lia.
    rewrite jsAdd_exact by lia. lia.
  - destruct (written_nodeAt _ _ _ _ _ HF Htarget) as (c' & Hc' & _ & _ & Hattrs).
    unfold attrsAt. rewrite Hc'. simpl. rewrite Hattrs. simpl.
    by rewrite decide_True.
  - intros Hb. by rewrite Hspan, jsAdd_exact.
  - intros ->. rewrite Hspan. reflexivity.
  - intros k Hk1 Hk2. by eapply addColSpan_other.
Qed.

Lemma addColumnRow_span_witness :
  ∃ tr' a,
    addColumnRow exCreate exSpanMap 1 exSpan 1 0 (startTr (exDoc [exSpan]) exCursor)
    = Gives (tr', 1%Z)
    ∧ attrsAt (doc tr') 2 = Some a
    ∧ a !! "colspan" = Some (VNum 3).
Proof.
  pose proof (addColumnRow_span exCreate exSpanMap 1 exSpan 1 0
                (startTr (exDoc [exSpan]) exCursor) 1 exSpanCell 2 1 exSpanCell) as H.
  change (spliceable (attrsOf exSpanCell)) with true in H.
  destruct H as (tr' & a & next & Hret & Hnext & _ & _ & _ & _ & Hat & Hspan & _).
  - vm_compute. split; reflexivity.
  - reflexivity.
  - reflexivity.
  - vm_compute; reflexivity.
  - vm_compute; reflexivity.
  - vm_compute; reflexivity.
  - vm_compute; reflexivity.
  - reflexivity.
  - exists tr', a. rewrite Hret, Hnext. split; [reflexivity |].
    split; [exact Hat | exact Hspan].
Defined.

Lemma addRowCols_plain createAndFill m tStart tbl row : ∀ fuel col st,
  (0 ≤ col)%Z → Z.to_nat (width m - col) ≤ fuel →
  (∀ c, (col ≤ c < width m)%Z →
     ((0 <? row)%Z && (row <? height m)%Z
      && bool_decide (slot m (width m * row + c) = slot m (width m * row + c - width m)))
     = false
     ∧ ∃ rp ref new, slot m (width m * row + c + refRow m row * width m) = Some rp
         ∧ nodeAt tbl rp = Some ref ∧ createAndFill (typeName ref) = Some new) →
  ∃ cells,
    addRowCols createAndFill m tStart tbl row fuel col (width m * row + col) st
    = Gives (st.1, st.2 ++ cells)
    ∧ length cells = Z.to_nat (width m - col)
    ∧ ∀ i new, cells !! i = Some new →
        ∃ rp ref, slot m (width m * row + (col + Z.of_nat i) + refRow m row * width m)
                  = Some rp
          ∧ nodeAt tbl rp = Some ref ∧ createAndFill (typeName ref) = Some new.
Proof.
  induction fuel as [| fuel IH]; intros col st Hcol Hfuel Hplain.
  - exists []. assert (width m ≤ col)%Z as Hle by lia. simpl.
    destruct (Z.leb_spec (width m) col); [| lia].
    rewrite app_nil_r. destruct st. split_and!; [done | simpl; lia | done].
  - cbn [addRowCols]. destruct (Z.leb_spec (width m) col) as [Hle | Hlt].
    + exists []. rewrite app_nil_r. destruct st. split_and!; [done | simpl; lia | done].
    + destruct (Hplain col ltac:(lia)) as (Hcond & rp & ref & new & Hrp & Href & Hnew).
      unfold addRowCol at 1. rewrite Hcond. cbv beta iota zeta.
      rewrite Hrp. simpl. rewrite Href. simpl. rewrite Hnew. simpl.
      destruct (IH (col + 1)%Z (st.1, st.2 ++ [new])) as (cells & Hrun & Hlen & Hcells).
      * lia.
      * lia.
      * intros c Hc. apply Hplain. lia.
      * replace (width m * row + (col + 1))%Z with (width m * row + col + 1)%Z in Hrun
          by lia.
        exists (new :: cells). rewrite Hrun. simpl. rewrite <- app_assoc. simpl.
        split_and!; [done | rewrite Hlen; lia |].
        intros [| i] new' Hi; simpl in Hi.
        -- injection Hi as <-. exists rp, ref.
           replace (col + Z.of_nat 0)%Z with col by lia. done.
        -- destruct (Hcells i new' Hi) as (rp' & ref' & Hrp' & ?).
           exists rp', ref'. split; [| done]. rewrite <- Hrp'. f_equal. lia.
Qed.

(** X13: adding a row where no cell spans across (always so at the top and
    at the bottom of the table), with a reference row of known cell types:
    the loop rewrites nothing and collects exactly one new cell per column,
    each created for the type of the reference row's cell in that column;
    the command is then the insertion of that row at the row's start
    followed by the table's defaults once more, with their calls of
    [dispatch]. *)
Theorem addRow_plain createAndFill rowDefaults tr rect row off dispatch :
  (0 ≤ width (rmap rect))%Z →
  rowStartOf (contentOf (table rect)) (Z.to_nat row) = Some off →
  (∀ c, (0 ≤ c < width (rmap rect))%Z →
     ((0 <? row)%Z && (row <? height (rmap rect))%Z
      && bool_decide (slot (rmap rect) (width (rmap rect) * row + c)
                      = slot (rmap rect) (width (rmap rect) * row + c - width (rmap rect))))
     = false
     ∧ ∃ rp ref new,
         slot (rmap rect) (width (rmap rect) * row + c
                           + refRow (rmap rect) row * width (rmap rect)) = Some rp
         ∧ nodeAt (table rect) rp = Some ref ∧ createAndFill (typeName ref) = Some new) →
  ∃ cells,
    length cells = Z.to_nat (width (rmap rect))
    ∧ (∀ i new, cells !! i = Some new →
         ∃ rp ref,
           slot (rmap rect) (width (rmap rect) * row + Z.of_nat i
                             + refRow (rmap rect) row * width (rmap rect)) = Some rp
           ∧ nodeAt (table rect) rp = Some ref ∧ createAndFill (typeName ref) = Some new)
    ∧ addRow createAndFill rowDefaults tr rect row dispatch
      = quiet (orRaise (insert (tableStart rect + off)
                          (Elem "tableRow" rowDefaults cells) tr))
        ≫= reapplyDefaults dispatch (table rect).
Proof.
  intros Hw Hoff Hplain.
  destruct (addRowCols_plain createAndFill (rmap rect) (tableStart rect) (table rect) row
              (Z.to_nat (width (rmap rect))) 0%Z (tr, []))
    as (cells & Hrun & Hlen & Hcells); [lia | lia | exact Hplain |].
  exists cells. split_and!.
  - rewrite Hlen. f_equal. lia.
  - intros i new Hi. destruct (Hcells i new Hi) as (rp & ref & Hrp & ?).
    exists rp, ref. split; [| done]. rewrite <- Hrp. f_equal.
  - unfold addRow. cbv zeta. rewrite Hoff. simpl.
    replace (width (rmap rect) * row)%Z with (width (rmap rect) * row + 0)%Z by lia.
    rewrite Hrun. reflexivity.
Qed.

Lemma addRow_plain_witness :
  ∃ cells, length cells = 2
    ∧ addRow exCreate ∅ (startTr (exDoc [exFlat]) (sselection exFlatState)) exFlatRect 1
        true
      = quiet (orRaise (insert 13 (Elem "tableRow" ∅ cells)
                          (startTr (exDoc [exFlat]) (sselection exFlatState))))
        ≫= reapplyDefaults true exFlat.
Proof.
  destruct (addRow_plain exCreate ∅ (startTr (exDoc [exFlat]) (sselection exFlatState))
              exFlatRect 1 12 true)
    as (cells & Hlen & _ & Hrun).
  - vm_compute. discriminate.
  - reflexivity.
  - intros c Hc. change (width (rmap exFlatRect)) with 2%Z in *.
    assert (c = 0 ∨ c = 1)%Z as [-> | ->] by lia.
    + split; [reflexivity |]. eexists _, _, _. split_and!; reflexivity.
    + split; [reflexivity |]. eexists _, _, _. split_and!; reflexivity.
  - exists cells. split; [exact Hlen | exact Hrun].
Defined.

Lemma written_length ws l l' : Forall2 (written ws) l l' → length l' = length l.
Proof. intros HF. by rewrite (Forall2_length _ _ _ HF). Qed.

Lemma styling_dispatches bg b bc v cmd tr r tr' :
  cmd ∈ stylingCommands bg b bc v →
  cmd tr = Returns r (Some tr') →
  selection tr' = selection tr ∧ fixTablesMeta tr' = fixTablesMeta tr
  ∧ length (descendants (doc tr')) = length (descendants (doc tr)).
Proof.
  unfold stylingCommands. rewrite !elem_of_cons, elem_of_nil.
  assert (∀ gR gS, perCell gR gS tr = Returns r (Some tr') →
            selection tr' = selection tr ∧ fixTablesMeta tr' = fixTablesMeta tr
            ∧ length (descendants (doc tr')) = length (descendants (doc tr))) as Hper.
  { intros gR gS Hret.
    assert (r = true) as ->.
    { revert Hret. unfold perCell. repeat case_match; congruence. }
    pose proof (perCell_keeps _ _ _ _ Hret) as (? & _ & ?).
    destruct (perCell_spec _ _ _ _ Hret) as (ws & HF & _).
    split_and!; [done | done | by eapply written_length]. }
  assert (∀ key, setTableDefault key tr v = Returns r (Some tr') →
            selection tr' = selection tr ∧ fixTablesMeta tr' = fixTablesMeta tr
            ∧ length (descendants (doc tr')) = length (descendants (doc tr))) as Hdef.
  { intros key Hret.
    destruct (findParentNodeOfType (selection tr) "table" (doc tr)) as [[fpos fnode] |]
      eqn:Hf; [| by rewrite setTableDefault_throws in Hret].
    destruct (setTableDefault_queue key v tr fpos fnode Hf) as (tr1 & Hret1 & Happ).
    rewrite Hret1 in Hret. injection Hret as <- <-.
    apply applyWrites_inv in Happ as (? & _ & ? & HF).
    split_and!; [done | done | by eapply written_length]. }
  intros [-> | [-> | [-> | [-> | [-> | [-> | [-> | []]]]]]]].
  - rewrite setTableCellBackground_perCell. apply Hper.
  - rewrite highlightSelection_perCell. apply Hper.
  - rewrite removeHighlightSelection_perCell. apply Hper.
  - apply Hdef.
  - apply Hdef.
  - apply Hdef.
  - unfold applyAlternateColor. intros Hret.
    destruct (findParentNodeOfType (selection tr) "table" (doc tr)) as [[fpos fnode] |]
      eqn:Hf; [| by (unfold alternateColor in Hret; rewrite Hf in Hret)].
    destruct (alternateColor_queue tr fpos fnode Hf) as (tr1 & Hret1 & Happ).
    rewrite Hret1 in Hret. injection Hret as <- <-.
    apply applyWrites_inv in Happ as (? & _ & ? & HF).
    split_and!; [done | done | by eapply written_length].
Qed.

(** X14: whenever one of the seven styling commands completes on the
    editor, the extension's last good state is the one it had before, the
    selection of the editor is unchanged, and the document has as many
    nodes as before: the transaction they dispatch never carries the
    repair metadata. *)
Theorem styling_keeps_lastGoodState bg b bc v cmd ed :
  cmd ∈ stylingCommands bg b bc v →
  match runCommand (onEditor cmd) ed with
  | None => onEditor cmd ed = Throws
  | Some (r, ed') =>
      lastGoodState ed' = lastGoodState ed
      ∧ sselection (state ed') = sselection (state ed)
      ∧ length (descendants (sdoc (state ed'))) = length (descendants (sdoc (state ed)))
  end.
Proof.
  intros Hcmd. unfold runCommand, onEditor.
  destruct (cmd _) as [| r [tr' |]] eqn:Hret; [done | | done].
  destruct (styling_dispatches _ _ _ _ _ _ _ _ Hcmd Hret) as (Hsel & Hmeta & Hlen).
  unfold dispatch, onStateUpdate. simpl in *. by rewrite Hmeta.
Qed.

Lemma styling_keeps_lastGoodState_witness :
  ∃ ed', runCommand (onEditor (setDefaultTableBorder (VStr "2px solid")))
           {| state := {| sdoc := exTwoCells; sselection := exCursor |};
              lastGoodState := None |} = Some (true, ed')
    ∧ lastGoodState ed' = None.
Proof.
  pose proof (styling_keeps_lastGoodState VNull VNull VNull (VStr "2px solid")
                (setDefaultTableBorder (VStr "2px solid"))
                {| state := {| sdoc := exTwoCells; sselection := exCursor |};
                   lastGoodState := None |}) as H.
  assert (∃ tr', setDefaultTableBorder (VStr "2px solid") (startTr exTwoCells exCursor)
                 = Returns true (Some tr')) as (tr' & Hrun)
    by (eexists; vm_compute; reflexivity).
  unfold runCommand, onEditor in *. cbn [state sdoc sselection] in *.
  rewrite Hrun in *. eexists. split; [reflexivity |].
  apply H. do 3 right. left.
Defined.

Lemma enableTableSupport_enabled b : tablesEnabled (enableTableSupport b) = true.
Proof. unfold enableTableSupport. by destruct (tablesEnabled b) eqn:E. Qed.

Lemma enableTableSupport_again b :
  tablesEnabled b = true → enableTableSupport b = b.
Proof. unfold enableTableSupport. by intros ->. Qed.

(** X15: table support is switched on at most once: however often
    [enableTableSupport] is called, the browser is as after the first
    call; from a page where the flag is off that is exactly the two
    commands, in order, added to the calls made before. *)
Theorem enableTableSupport_once (n : nat) (b : Browser) :
  Nat.iter (S n) enableTableSupport b = enableTableSupport b
  ∧ tablesEnabled (Nat.iter (S n) enableTableSupport b) = true
  ∧ execLog (Nat.iter (S n) enableTableSupport b)
    = if tablesEnabled b then execLog b
      else execLog b ++ [("enableObjectResizing", false, "false");
                         ("enableInlineTableEditing", false, "false")].
Proof.
  assert (Nat.iter (S n) enableTableSupport b = enableTableSupport b) as ->.
  { induction n as [| n IH]; [done |].
    change (Nat.iter (S (S n)) enableTableSupport b)
      with (enableTableSupport (Nat.iter (S n) enableTableSupport b)).
    rewrite IH. apply enableTableSupport_again, enableTableSupport_enabled. }
  split_and!; [done | apply enableTableSupport_enabled |].
  unfold enableTableSupport. by destruct (tablesEnabled b).
Qed.

(** A default call from the structural editor ends with the caller's
    transaction, rewritten but with the insertions it had, and has passed
    that to [dispatch] when there is one. *)
Lemma callDefault_setTableDefault dispatch key v tr tr' :
  ending (callDefault dispatch (setTableDefault key tr v)) = Gives tr' →
  mapping tr' = mapping tr
  ∧ calls (callDefault dispatch (setTableDefault key tr v))
    = if dispatch then [tr'] else [].
Proof.
  destruct (findParentNodeOfType (selection tr) "table" (doc tr)) as [[fpos fnode] |]
    eqn:Hf; [| by rewrite setTableDefault_throws].
  destruct (setTableDefault_queue key v tr fpos fnode Hf) as (tr1 & -> & Happ).
  simpl. intros [= <-]. split; [| done].
  by apply applyWrites_inv in Happ as (_ & ? & _).
Qed.

Lemma reapplyDefaults_mapping dispatch tbl tr tr' :
  ending (reapplyDefaults dispatch tbl tr) = Gives tr' →
  mapping tr' = mapping tr
  ∧ Forall (λ t, mapping t = mapping tr') (calls (reapplyDefaults dispatch tbl tr))
  ∧ length (calls (reapplyDefaults dispatch tbl tr)) = if dispatch then 3 else 0.
Proof.
  unfold reapplyDefaults, defaultBorder, defaultBackgroundColor, defaultBorderColor.
  cbv zeta. unfold mbind, Ran_bind.
  destruct (ending (callDefault dispatch (setTableDefault "border" tr _)))
    as [tr1 | |] eqn:H1; [| done | done].
  apply callDefault_setTableDefault in H1 as [Hm1 ->]. cbn [ending calls].
  destruct (ending (callDefault dispatch (setTableDefault "background" tr1 _)))
    as [tr2 | |] eqn:H2; [| done | done].
  apply callDefault_setTableDefault in H2 as [Hm2 ->]. cbn [ending calls].
  intros H3. apply callDefault_setTableDefault in H3 as [Hm3 ->].
  split; [congruence |].
  destruct dispatch; simpl; [| done]. split; [| done].
  repeat constructor; congruence.
Qed.

Lemma addColumnRows_plain createAndFill m tStart tbl col : ∀ fuel row tr tr',
  (∀ r, (row ≤ r < height m)%Z →
     ((0 <? col)%Z && (col <? width m)%Z
      && bool_decide (slot m (r * width m + col - 1) = slot m (r * width m + col)))
     = false) →
  addColumnRows createAndFill m tStart tbl col fuel row tr = Gives tr' →
  ∃ steps, mapping tr' = mapping tr ++ steps
    ∧ length steps = Z.to_nat (height m - row).
Proof.
  induction fuel as [| fuel IH]; intros row tr tr' Hplain; cbn [addColumnRows];
    destruct (Z.leb_spec (height m) row) as [Hle | Hlt].
  - intros [= <-]. exists []. rewrite app_nil_r. split; [done | simpl; lia].
  - done.
  - intros [= <-]. exists []. rewrite app_nil_r. split; [done | simpl; lia].
  - destruct (addColumnRow _ _ _ _ _ row tr) as [[tr1 next] | |] eqn:Hrow; [| done | done].
    simpl. intros Hrest.
    destruct (addColumnRow_inserts _ _ _ _ _ _ _ _ _ (Hplain row ltac:(lia)) Hrow)
      as (-> & rp & ref & new & pos & _ & _ & _ & _ & _ & Hmap).
    destruct (IH (row + 1)%Z tr1 tr') as (steps & Hsteps & Hlen);
      [intros r Hr; apply Hplain; lia | done |].
    eexists (_ :: steps). rewrite Hsteps, Hmap, <- app_assoc. split; [done |].
    simpl. rewrite Hlen. lia.
Qed.

(** X16: adding a column where no cell spans across from the column before
    (always so in front of the first column and behind the last): when the
    command completes it has made exactly one insertion per row of the
    table, recorded behind the insertions the transaction already had;
    the closing default commands add none, and every transaction they pass
    to [dispatch] (three with a callback, none without) holds all of those
    insertions already. *)
Theorem addColumn_plain_inserts createAndFill tr rect col dispatch tr' :
  (0 ≤ height (rmap rect))%Z →
  (∀ r, (0 ≤ r < height (rmap rect))%Z →
     ((0 <? col)%Z && (col <? width (rmap rect))%Z
      && bool_decide (slot (rmap rect) (r * width (rmap rect) + col - 1)
                      = slot (rmap rect) (r * width (rmap rect) + col)))
     = false) →
  ending (addColumn createAndFill tr rect col dispatch) = Gives tr' →
  ∃ steps, mapping tr' = mapping tr ++ steps
    ∧ length steps = Z.to_nat (height (rmap rect))
    ∧ Forall (λ t, mapping t = mapping tr')
        (calls (addColumn createAndFill tr rect col dispatch))
    ∧ length (calls (addColumn createAndFill tr rect col dispatch))
      = if dispatch then 3 else 0.
Proof.
  intros Hh Hplain. unfold addColumn. cbv zeta. unfold mbind at 1, Ran_bind at 1.
  cbn [quiet ending calls].
  destruct (addColumnRows _ _ _ _ _ _ _ tr) as [tr1 | |] eqn:Hrows; [| done | done].
  cbn [app]. intros (Hre & Hcalls & Hn)%reapplyDefaults_mapping.
  destruct (addColumnRows_plain _ _ _ _ _ _ _ _ _ Hplain Hrows) as (steps & Hsteps & Hlen).
  exists steps. rewrite Hre, Hsteps. split_and!; [done | | | done].
  - rewrite Hlen. f_equal. lia.
  - by rewrite <- Hsteps, <- Hre.
Qed.

Lemma addColumn_plain_inserts_witness :
  ∃ tr' steps,
    ending (addColumn exCreate (startTr (sdoc exFlatState) (sselection exFlatState))
              exFlatRect 2 true) = Gives tr'
    ∧ mapping tr' = steps ∧ length steps = 1.
Proof.
  assert (∃ tr', ending (addColumn exCreate
                           (startTr (sdoc exFlatState) (sselection exFlatState))
                           exFlatRect 2 true) = Gives tr') as (tr' & Hrun)
    by (eexists; vm_compute; reflexivity).
  destruct (addColumn_plain_inserts exCreate
              (startTr (sdoc exFlatState) (sselection exFlatState)) exFlatRect 2 true tr')
    as (steps & Hsteps & Hlen & _).
  - vm_compute. discriminate.
  - intros r Hr. reflexivity.
  - exact Hrun.
  - exists tr', steps. split; [exact Hrun |]. split; [exact Hsteps | exact Hlen].
Defined.
